(** * app_rtsp_sip: message parsing, authentication, SDP and RTCP

    A shallow embedding of the protocol core of [app_rtsp_sip.c] (the
    RTSP player / SIP speaker application for Asterisk) together with the
    properties of its message parser, authentication-challenge resolver,
    digest engine, SDP parser, receiver reports and UDP port pairing.

    Conventions.
    - A C string is the list of its characters before the terminating NUL;
      a [char *] into a buffer is the suffix of the buffer that starts
      there, so [p++] takes the tail and the test for the terminating NUL
      is the test for the empty suffix.
    - C [int] return codes are [Z]; array indices and lengths are [nat].
    - A write past a fixed-size buffer or array is undefined behaviour in
      C; functions that can perform one return [option] (or [outcome])
      and yield [None] (or [Undefined]) in that case.
    - What the program asks from outside (Asterisk's MD5 and base64
      functions, [random()], [send()], the ports the system hands out)
      is a parameter of the functions that use it. *)

From Stdlib Require Import String Ascii List ZArith Lia Bool Arith.
Import ListNotations.

Open Scope char_scope.
Open Scope list_scope.

(* ===================================================================== *)
(** * Characters and C strings *)
(* ===================================================================== *)

Definition cstring := list ascii.

(** A string literal as a C string. *)
Definition L (s : string) : cstring := list_ascii_of_string s.

Definition HT : ascii := "009".
Definition LF : ascii := "010".
Definition CR : ascii := "013".
Definition SP : ascii := " ".
Definition CRLF : cstring := [CR; LF].

(** [isspace] in the C locale: space, \t, \n, \v, \f, \r. *)
Definition isspace (c : ascii) : bool :=
  let n := nat_of_ascii c in
  (n =? 32)%nat || ((9 <=? n)%nat && (n <=? 13)%nat).

Definition isdigit (c : ascii) : bool :=
  let n := nat_of_ascii c in (48 <=? n)%nat && (n <=? 57)%nat.

Definition isalpha (c : ascii) : bool :=
  let n := nat_of_ascii c in
  ((65 <=? n)%nat && (n <=? 90)%nat) || ((97 <=? n)%nat && (n <=? 122)%nat).

Definition isalnum (c : ascii) : bool := isalpha c || isdigit c.

Definition tolower (c : ascii) : ascii :=
  let n := nat_of_ascii c in
  if ((65 <=? n)%nat && (n <=? 90)%nat)%bool then ascii_of_nat (n + 32) else c.

(** The blank of a folded line: [' '] or ['\t']. *)
Definition is_wsp (c : ascii) : bool := Ascii.eqb c SP || Ascii.eqb c HT.

(** [*p] is a blank (false at the terminating NUL). *)
Definition starts_wsp (p : cstring) : bool :=
  match p with
  | c :: _ => is_wsp c
  | [] => false
  end.

Fixpoint cstr_eqb (a b : cstring) : bool :=
  match a, b with
  | [], [] => true
  | x :: a', y :: b' => Ascii.eqb x y && cstr_eqb a' b'
  | _, _ => false
  end.

(** [strncmp(s, lit, strlen(lit)) == 0]: [lit] is a prefix of [s]. *)
Fixpoint prefixb (lit s : cstring) : bool :=
  match lit, s with
  | [], _ => true
  | x :: lit', y :: s' => Ascii.eqb x y && prefixb lit' s'
  | _ :: _, [] => false
  end.

(** [strstr(s, needle)]: the suffix of [s] at the first occurrence. *)
Fixpoint strstr (s needle : cstring) : option cstring :=
  if prefixb needle s then Some s
  else match s with
       | [] => None
       | _ :: t => strstr t needle
       end.

(** [strchr(s, c)] as the offset of the first [c]. *)
Fixpoint strchr (s : cstring) (c : ascii) : option nat :=
  match s with
  | [] => None
  | x :: t => if Ascii.eqb x c then Some O else option_map S (strchr t c)
  end.

Fixpoint skip_while (f : ascii -> bool) (s : cstring) : cstring :=
  match s with
  | c :: t => if f c then skip_while f t else s
  | [] => []
  end.

Fixpoint take_while (f : ascii -> bool) (s : cstring) : cstring :=
  match s with
  | c :: t => if f c then c :: take_while f t else []
  | [] => []
  end.

(** Drop the trailing characters that satisfy [f]. *)
Definition drop_trailing (f : ascii -> bool) (s : cstring) : cstring :=
  rev (skip_while f (rev s)).

(** The common tail of [trim_whitespace] and [get_trimmed_string]:
    [end] starts at the last character and moves left while [end > start]
    and the character at [end] is white space, so [start[0]] is kept
    unconditionally and the string is cut after [end]. *)
Definition cut_trailing_space (start : cstring) : cstring :=
  match start with
  | [] => []
  | c :: t => c :: drop_trailing isspace t
  end.

(** [trim_whitespace(str)].  The leading scan advances the local pointer
    [str] only, so the leading white space stays in the caller's array;
    only the trailing white space is cut off. *)
Definition trim_whitespace (str : cstring) : cstring :=
  take_while isspace str ++ cut_trailing_space (skip_while isspace str).

(** [get_trimmed_string(str)]: a fresh copy without leading and trailing
    white space. *)
Definition get_trimmed_string (str : cstring) : cstring :=
  cut_trailing_space (skip_while isspace str).

(* ===================================================================== *)
(** * Message parser *)
(* ===================================================================== *)

Definition MAX_HEADERS : nat := 100.
Definition MAX_HEADER_LINE : nat := 1024.
Definition MAX_FIELD_NAME : nat := 1024.
Definition MAX_FIELD_VALUE : nat := 1024.
Definition MAX_TOKEN : nat := 512.
Definition MAX_AUTH_KEY_VAL : nat := 20.

Record HeaderStruct := mkHeader {
  field_name : cstring;
  field_value : cstring
}.

(** [HeaderStructList]: [headers[0 .. count-1]]. *)
Definition HeaderStructList := list HeaderStruct.

(** [parse_message]: the headers start after the first CRLF; [None] is
    the return code -1. *)
Definition parse_message (buffer : cstring) : option cstring :=
  match strstr buffer CRLF with
  | None => None
  | Some at_crlf => Some (skipn 2 at_crlf)
  end.

(** The [do { line_end = strstr(fold_start, "\r\n"); ... } while
    (line_extended)] loop of [parse_headers], as one left-to-right scan:
    the result is [line_end - fold_start].  Re-entering the loop with
    [fold_start = line_end + 2] is the recursive call on the text after
    the CRLF.  [None] is [line_end == NULL]. *)
Fixpoint find_line_end (fold_start : cstring) : option nat :=
  match fold_start with
  | [] => None
  | _ :: t =>
      if prefixb CRLF fold_start then
        match t with
        | _ :: after =>
            if starts_wsp after
            then option_map (Nat.add 2) (find_line_end after)
            else Some O
        | [] => None
        end
      else option_map S (find_line_end t)
  end.

(** Splitting one logical line at the first colon. *)
Definition split_header (line : cstring) : option HeaderStruct :=
  match strchr line ":" with
  | None => None
  | Some colon =>
      Some (mkHeader (trim_whitespace (firstn MAX_FIELD_NAME (firstn colon line)))
                     (trim_whitespace (firstn MAX_FIELD_VALUE (skipn (S colon) line))))
  end.

(** The main loop of [parse_headers], which runs while the text at
    [line_start] is not empty and [header_list->count < MAX_HEADERS].
    [room] is [MAX_HEADERS - header_list->count]; the result is the
    return code and the header list as the caller finds it. *)
Fixpoint parse_headers_loop (room : nat) (line_start : cstring)
    (header_list : HeaderStructList) : Z * HeaderStructList :=
  match room with
  | O => (0%Z, header_list)
  | S room' =>
      match line_start with
      | [] => (0%Z, header_list)
      | _ :: _ =>
          match find_line_end line_start with
          | None => (0%Z, header_list)              (* no CRLF: break *)
          | Some line_len =>
              if (line_len =? 0)%nat then (0%Z, header_list)
              else if (MAX_HEADER_LINE <=? line_len)%nat then ((-1)%Z, header_list)
              else
                match split_header (firstn line_len line_start) with
                | None => ((-1)%Z, header_list)     (* no colon *)
                | Some h =>
                    parse_headers_loop room' (skipn (line_len + 2) line_start)
                                       (header_list ++ [h])
                end
          end
      end
  end.

Definition parse_headers (buffer : cstring) : Z * HeaderStructList :=
  parse_headers_loop MAX_HEADERS buffer [].

(* ===================================================================== *)
(** * Authentication-challenge resolver *)
(* ===================================================================== *)

Definition DQUOTE : ascii := "034".

(** A text between double quotes. *)
Definition quoted (s : cstring) : cstring := DQUOTE :: s ++ [DQUOTE].
Definition BACKSLASH : ascii := "\".

(** The copy loops [while ( *p && !stop( *p) && i < MAX_TOKEN - 1)
    out[i++] = *p++;]: the characters copied and the pointer reached.
    [room] is [MAX_TOKEN - 1 - i]. *)
Fixpoint take_token (room : nat) (stop : ascii -> bool) (p : cstring)
    : cstring * cstring :=
  match room with
  | O => ([], p)
  | S room' =>
      match p with
      | [] => ([], [])
      | c :: t =>
          if stop c then ([], p)
          else let (tok, p') := take_token room' stop t in (c :: tok, p')
      end
  end.

(** [parse_auth_scheme(input, scheme, &rest)]. *)
Definition parse_auth_scheme (input : cstring) : cstring * cstring :=
  let (scheme, p) := take_token (MAX_TOKEN - 1) isspace input in
  (scheme, skip_while isspace p).

Definition is_token68 (str : cstring) : bool :=
  forallb (fun c => isalnum c || Ascii.eqb c "+" || Ascii.eqb c "/"
                    || Ascii.eqb c "=") str.

(** The quoted-value loop: stop at a double quote whose predecessor
    [*(p-1)] is not a backslash. *)
Fixpoint take_quoted (room : nat) (prev : ascii) (p : cstring)
    : cstring * cstring :=
  match room with
  | O => ([], p)
  | S room' =>
      match p with
      | [] => ([], [])
      | c :: t =>
          if Ascii.eqb c DQUOTE && negb (Ascii.eqb prev BACKSLASH) then ([], p)
          else let (v, p') := take_quoted room' c t in (c :: v, p')
      end
  end.

Definition key_stop (c : ascii) : bool := Ascii.eqb c "=" || Ascii.eqb c SP.
Definition ows_or_comma (c : ascii) : bool := isspace c || Ascii.eqb c ",".

(** The value of one parameter, read at the character after ['=']. *)
Definition parse_auth_value (p : cstring) : cstring * cstring :=
  match p with
  | c :: t =>
      if Ascii.eqb c DQUOTE then
        let (v, p') := take_quoted (MAX_TOKEN - 1) c t in
        match p' with
        | q :: t' => if Ascii.eqb q DQUOTE then (v, t') else (v, p')
        | [] => (v, p')
        end
      else take_token (MAX_TOKEN - 1) (fun c => Ascii.eqb c ",") p
  | [] => ([], [])
  end.

Definition auth_param := (cstring * cstring)%type.

(** The outcome of a loop that is run with a bound on its rounds:
    [Undefined] is a write past the end of an array, [OutOfFuel] is the
    bound reached (which the bounds used below exclude, see
    [CheckAuthScheme_terminates]). *)
Inductive outcome (A : Type) : Type :=
  | Done (a : A)
  | Undefined
  | OutOfFuel.
Arguments Done {A} a.
Arguments Undefined {A}.
Arguments OutOfFuel {A}.

Definition defined {A} (x : outcome A) : option A :=
  match x with
  | Done a => Some a
  | _ => None
  end.

(** The [while ( *p)] loop of [parse_auth_params].  [kv] holds
    [param_key/param_val[0 .. param_kv_count-1]]; both arrays have
    [MAX_AUTH_KEY_VAL] slots in the caller.  The result is the pairs and
    [*more_auths].  [fuel] bounds the iterations; every iteration moves
    [p] forward, so the length of the text plus one is enough. *)
Fixpoint parse_auth_params_loop (fuel : nat) (p : cstring) (kv : list auth_param)
    : outcome (list auth_param * option cstring) :=
  match p with
  | [] => Done (kv, None)
  | _ :: _ =>
      match fuel with
      | O => OutOfFuel
      | S fuel' =>
          let key_start := skip_while ows_or_comma p in
          let (key, p1) := take_token (MAX_TOKEN - 1) key_stop key_start in
          if (MAX_AUTH_KEY_VAL <=? length kv)%nat then Undefined  (* param_key[20] *)
          else
            match p1 with
            | c :: after_eq =>
                if Ascii.eqb c "=" then
                  let (value, p2) := parse_auth_value after_eq in
                  parse_auth_params_loop fuel' p2 (kv ++ [(key, value)])
                else Done (kv, Some key_start)
            | [] => Done (kv, Some key_start)
            end
      end
  end.

Definition parse_auth_params (str : cstring)
    : outcome (list auth_param * option cstring) :=
  parse_auth_params_loop (S (length str)) str [].

(** What [CheckAuthScheme] leaves with its caller: the return code, the
    caller's [auth_paramkey]/[auth_paramval] arrays (a slot is [None]
    while it was never written) and [*auth_paramcount] ([None] while it
    was never written). *)
Record AuthResult := mkAuthResult {
  return_code : Z;
  auth_params : list (option auth_param);
  auth_paramcount : option nat
}.

Definition auth_result_init : AuthResult :=
  mkAuthResult (-10) (repeat None MAX_AUTH_KEY_VAL) None.

(** [a[j] = x] on a list used as an array ([j] is in range wherever it is
    used below). *)
Fixpoint array_set {A} (a : list A) (j : nat) (x : A) : list A :=
  match a, j with
  | [], _ => []
  | _ :: t, O => x :: t
  | y :: t, S j' => y :: array_set t j' x
  end.

(** [auth_paramkey[j] = ..., auth_paramval[j] = ...] for the pairs of
    [kv], starting at slot [j]. *)
Fixpoint store_params (a : list (option auth_param)) (j : nat) (kv : list auth_param)
    : list (option auth_param) :=
  match kv with
  | [] => a
  | x :: kv' => store_params (array_set a j (Some x)) (S j) kv'
  end.

Definition set_single (r : AuthResult) (k v : cstring) : AuthResult :=
  mkAuthResult (return_code r) (array_set (auth_params r) 0 (Some (k, v))) (Some 1).

(** The [for (j = 0; j < param_count; j++)] loop: the copy is guarded by
    [return_code == 0] only. *)
Definition copy_params (r : AuthResult) (kv : list auth_param) : AuthResult :=
  if ((return_code r =? 0)%Z && negb (length kv =? 0)%nat)%bool
  then mkAuthResult (return_code r) (store_params (auth_params r) 0 kv) (Some (length kv))
  else r.

(** The [do { ... } while (more_auths != NULL)] loop over one header
    value. *)
Fixpoint scan_challenges (fuel : nat) (scheme_to_match auth_start : cstring)
    (r : AuthResult) : outcome AuthResult :=
  let (scheme, rest) := parse_auth_scheme auth_start in
  let r1 := if cstr_eqb scheme scheme_to_match
            then mkAuthResult 0 (auth_params r) (auth_paramcount r) else r in
  match rest with
  | [] => Done (set_single r1 (L "None") (L "None"))
  | _ :: _ =>
      if is_token68 rest then Done (set_single r1 (L "Token68") rest)
      else
        match parse_auth_params rest with
        | Done (kv, more_auths) =>
            let r2 := copy_params r1 kv in
            match more_auths with
            | None => Done r2
            | Some next =>
                match fuel with
                | O => OutOfFuel
                | S fuel' => scan_challenges fuel' scheme_to_match next r2
                end
            end
        | Undefined => Undefined
        | OutOfFuel => OutOfFuel
        end
  end.

Definition is_www_authenticate (h : HeaderStruct) : bool :=
  match strstr (field_name h) (L "WWW-Authenticate") with
  | Some _ => true
  | None => false
  end.

(** The [for (i = 0; i < headers.count; ++i)] loop. *)
Fixpoint scan_headers (scheme_to_match : cstring) (headers : HeaderStructList)
    (r : AuthResult) : outcome AuthResult :=
  match headers with
  | [] => Done r
  | h :: headers' =>
      if is_www_authenticate h then
        let auth_start := get_trimmed_string (field_value h) in
        match scan_challenges (length auth_start) scheme_to_match auth_start r with
        | Done r' => scan_headers scheme_to_match headers' r'
        | Undefined => Undefined
        | OutOfFuel => OutOfFuel
        end
      else scan_headers scheme_to_match headers' r
  end.

(** [CheckAuthScheme(buffer, bufferLen, scheme_to_match, auth_paramkey,
    auth_paramval, &auth_paramcount)]. *)
Definition CheckAuthScheme (buffer scheme_to_match : cstring) : outcome AuthResult :=
  match parse_message buffer with
  | None => Done (mkAuthResult (-1) (auth_params auth_result_init) None)
  | Some headers_start =>
      match parse_headers headers_start with
      | (0%Z, headers) => scan_headers scheme_to_match headers auth_result_init
      | (_, _) => Done (mkAuthResult (-2) (auth_params auth_result_init) None)
      end
  end.

(** The parameters the caller reads: slots [0 .. auth_paramcount-1];
    [None] when the count or one of these slots was never written. *)
Fixpoint read_params (a : list (option auth_param)) (n : nat)
    : option (list auth_param) :=
  match n with
  | O => Some []
  | S n' =>
      match a with
      | Some x :: a' =>
          match read_params a' n' with
          | Some l => Some (x :: l)
          | None => None
          end
      | _ => None
      end
  end.

Definition returned_params (r : AuthResult) : option (list auth_param) :=
  match auth_paramcount r with
  | None => None
  | Some n => read_params (auth_params r) n
  end.

(* ===================================================================== *)
(** * Challenge data, digest engine and Authorization headers *)
(* ===================================================================== *)

(** [strcpy] / [sprintf] into a [char buf[size]]: the text and its NUL
    must fit. *)
Definition fits (size : nat) (text : cstring) : option cstring :=
  if (length text <? size)%nat then Some text else None.

Definition obind {A B} (x : option A) (k : A -> option B) : option B :=
  match x with
  | Some a => k a
  | None => None
  end.

Notation "x <- c ;; k" := (obind c (fun x => k))
  (at level 61, c at next level, right associativity).

Record BasicAuthData := mkBasicAuthData {
  basic_rx_realm : cstring          (* char rx_realm[128] *)
}.

Record DigestAuthData := mkDigestAuthData {
  nonce : cstring;                  (* char nonce[64] *)
  nc : cstring;                     (* char nc[64] *)
  cnonce : cstring;                 (* char cnonce[64] *)
  qop : cstring;                    (* char qop[16] *)
  uri : cstring;                    (* char uri[64] *)
  rx_realm : cstring;               (* char rx_realm[32] *)
  opaque : cstring;                 (* char opaque[64] *)
  algorithm : cstring               (* char algorithm[64] *)
}.

Definition digest_data_init : DigestAuthData :=
  mkDigestAuthData [] [] [] [] [] [] [] [].

(** One round of the [for (pi = 0; pi < auth_paramcount; pi++)] loop of
    [GetAuthSchemeBasic]. *)
Definition basic_store (b : BasicAuthData) (kv : auth_param) : option BasicAuthData :=
  if cstr_eqb (fst kv) (L "realm")
  then v <- fits 128 (snd kv) ;; Some (mkBasicAuthData v)
  else Some b.

Fixpoint basic_store_all (b : BasicAuthData) (kvs : list auth_param)
    : option BasicAuthData :=
  match kvs with
  | [] => Some b
  | kv :: kvs' => b' <- basic_store b kv ;; basic_store_all b' kvs'
  end.

(** [GetAuthSchemeBasic(buffer, bufferLen, &basic_data)]: the return code
    and [basic_data]. *)
Definition GetAuthSchemeBasic (buffer : cstring) : option (Z * BasicAuthData) :=
  r <- defined (CheckAuthScheme buffer (L "Basic")) ;;
  if (return_code r =? 0)%Z then
    kvs <- returned_params r ;;
    b <- basic_store_all (mkBasicAuthData []) kvs ;;
    Some (0%Z, b)
  else Some ((-1)%Z, mkBasicAuthData []).

(** [strcpy(field, auth_paramval[pi])] when [auth_paramkey[pi]] is
    [name]; [size] is the size of the field's array. *)
Definition store_if (k v name : cstring) (size : nat)
    (set : cstring -> DigestAuthData) (d : DigestAuthData) : option DigestAuthData :=
  if cstr_eqb k name then x <- fits size v ;; Some (set x) else Some d.

(** One round of the loop of [GetAuthSchemeDigest]: every [strcmp] is
    tried in turn. *)
Definition digest_store (d : DigestAuthData) (kv : auth_param) : option DigestAuthData :=
  let (k, v) := kv in
  d <- store_if k v (L "realm") 32 (fun x =>
         mkDigestAuthData (nonce d) (nc d) (cnonce d) (qop d) (uri d) x (opaque d) (algorithm d)) d ;;
  d <- store_if k v (L "nonce") 64 (fun x =>
         mkDigestAuthData x (nc d) (cnonce d) (qop d) (uri d) (rx_realm d) (opaque d) (algorithm d)) d ;;
  d <- store_if k v (L "nc") 64 (fun x =>
         mkDigestAuthData (nonce d) x (cnonce d) (qop d) (uri d) (rx_realm d) (opaque d) (algorithm d)) d ;;
  d <- store_if k v (L "cnonce") 64 (fun x =>
         mkDigestAuthData (nonce d) (nc d) x (qop d) (uri d) (rx_realm d) (opaque d) (algorithm d)) d ;;
  d <- store_if k v (L "qop") 16 (fun x =>
         mkDigestAuthData (nonce d) (nc d) (cnonce d) x (uri d) (rx_realm d) (opaque d) (algorithm d)) d ;;
  d <- store_if k v (L "uri") 64 (fun x =>
         mkDigestAuthData (nonce d) (nc d) (cnonce d) (qop d) x (rx_realm d) (opaque d) (algorithm d)) d ;;
  d <- store_if k v (L "opaque") 64 (fun x =>
         mkDigestAuthData (nonce d) (nc d) (cnonce d) (qop d) (uri d) (rx_realm d) x (algorithm d)) d ;;
  store_if k v (L "algorithm") 64 (fun x =>
         mkDigestAuthData (nonce d) (nc d) (cnonce d) (qop d) (uri d) (rx_realm d) (opaque d) x) d.

Fixpoint digest_store_all (d : DigestAuthData) (kvs : list auth_param)
    : option DigestAuthData :=
  match kvs with
  | [] => Some d
  | kv :: kvs' => d' <- digest_store d kv ;; digest_store_all d' kvs'
  end.

(** [GetAuthSchemeDigest(buffer, bufferLen, &digest_data)]. *)
Definition GetAuthSchemeDigest (buffer : cstring) : option (Z * DigestAuthData) :=
  r <- defined (CheckAuthScheme buffer (L "Digest")) ;;
  if (return_code r =? 0)%Z then
    kvs <- returned_params r ;;
    d <- digest_store_all digest_data_init kvs ;;
    Some (0%Z, d)
  else Some ((-1)%Z, digest_data_init).

(** The two functions this file takes from Asterisk's utility library:
    [ast_md5_hash(output, input)], which writes the hash of [input] as
    text, and [ast_base64encode]. *)
Class Asterisk := {
  ast_md5_hash : cstring -> cstring;
  ast_base64encode : cstring -> cstring
}.

Definition string_to_compare : cstring := L "c3fcd3d76192e4007dfb496cca67e13b".
Definition string_to_hash : cstring := L "abcdefghijklmnopqrstuvwxyz".

(** [auth_digest(username, passwd, realm, nonce, uri, method,
    digest_result)]: the return code and what was written to
    [digest_result] ([None]: nothing). *)
Definition auth_digest `{Asterisk} (username passwd realm nonce uri method : cstring)
    : option (Z * option cstring) :=
  hash_result <- fits 256 (ast_md5_hash string_to_hash) ;;
  if negb (cstr_eqb string_to_compare hash_result) then Some ((-1)%Z, None)
  else
    A1 <- fits 256 (username ++ L ":" ++ realm ++ L ":" ++ passwd) ;;
    HA1 <- fits 256 (ast_md5_hash A1) ;;
    A2 <- fits 256 (method ++ L ":" ++ uri) ;;
    HA2 <- fits 256 (ast_md5_hash A2) ;;
    KD_ARGS <- fits 513 (HA1 ++ L ":" ++ nonce ++ L ":" ++ HA2) ;;
    Some (0%Z, Some (ast_md5_hash KD_ARGS)).

(* ===================================================================== *)
(** * Player state, environment and request builders *)
(* ===================================================================== *)

Open Scope Z_scope.

(** RTSP and SIP states. *)
Definition RTSP_NONE := 0.
Definition SIP_STATE_NONE := 0.
Definition SIP_STATE_OPTIONS := 1.
Definition SIP_STATE_INVITE := 2.

(** [enum SipMethodsIndex]. *)
Definition INVITE : nat := 0.
Definition OPTIONS : nat := 1.
Definition ACK : nat := 2.
Definition CANCEL : nat := 3.
Definition MAX_METHODS : nat := 10.

Definition MY_NAME : cstring := L "agbell".

(** The fields of [struct RtspPlayer] that the control protocols use. *)
Record RtspPlayer := mkRtspPlayer {
  state : Z;
  cseq : Z;
  player_end : Z;                       (* int end *)
  ip : cstring;
  port : Z;
  hostport : cstring;
  url : option cstring;
  authorization : option cstring;       (* NULL until a challenge is answered *)
  audioRtpPort : Z;
  local_ctrl_ip : cstring;
  local_ctrl_port : Z;
  cseqm : list Z;                       (* int cseqm[MAX_METHODS] *)
  in_a_dialog : Z;
  src_tag : cstring;                    (* char src_tag[20] *)
  peer_tag : cstring;                   (* char peer_tag[20] *)
  call_id : cstring;                    (* char call_id[100] *)
  branch_id : cstring;                  (* char branch_id[100] *)
  session_id : cstring                  (* char session_id[64] *)
}.

Definition set_state (p : RtspPlayer) (v : Z) : RtspPlayer :=
  mkRtspPlayer v (cseq p) (player_end p) (ip p) (port p) (hostport p) (url p)
    (authorization p) (audioRtpPort p) (local_ctrl_ip p) (local_ctrl_port p)
    (cseqm p) (in_a_dialog p) (src_tag p) (peer_tag p) (call_id p) (branch_id p)
    (session_id p).
Definition set_authorization (p : RtspPlayer) (v : option cstring) : RtspPlayer :=
  mkRtspPlayer (state p) (cseq p) (player_end p) (ip p) (port p) (hostport p) (url p)
    v (audioRtpPort p) (local_ctrl_ip p) (local_ctrl_port p)
    (cseqm p) (in_a_dialog p) (src_tag p) (peer_tag p) (call_id p) (branch_id p)
    (session_id p).
Definition set_cseqm (p : RtspPlayer) (v : list Z) : RtspPlayer :=
  mkRtspPlayer (state p) (cseq p) (player_end p) (ip p) (port p) (hostport p) (url p)
    (authorization p) (audioRtpPort p) (local_ctrl_ip p) (local_ctrl_port p)
    v (in_a_dialog p) (src_tag p) (peer_tag p) (call_id p) (branch_id p)
    (session_id p).
Definition set_in_a_dialog (p : RtspPlayer) (v : Z) : RtspPlayer :=
  mkRtspPlayer (state p) (cseq p) (player_end p) (ip p) (port p) (hostport p) (url p)
    (authorization p) (audioRtpPort p) (local_ctrl_ip p) (local_ctrl_port p)
    (cseqm p) v (src_tag p) (peer_tag p) (call_id p) (branch_id p)
    (session_id p).
Definition set_src_tag (p : RtspPlayer) (v : cstring) : RtspPlayer :=
  mkRtspPlayer (state p) (cseq p) (player_end p) (ip p) (port p) (hostport p) (url p)
    (authorization p) (audioRtpPort p) (local_ctrl_ip p) (local_ctrl_port p)
    (cseqm p) (in_a_dialog p) v (peer_tag p) (call_id p) (branch_id p)
    (session_id p).
Definition set_peer_tag (p : RtspPlayer) (v : cstring) : RtspPlayer :=
  mkRtspPlayer (state p) (cseq p) (player_end p) (ip p) (port p) (hostport p) (url p)
    (authorization p) (audioRtpPort p) (local_ctrl_ip p) (local_ctrl_port p)
    (cseqm p) (in_a_dialog p) (src_tag p) v (call_id p) (branch_id p)
    (session_id p).
Definition set_call_id (p : RtspPlayer) (v : cstring) : RtspPlayer :=
  mkRtspPlayer (state p) (cseq p) (player_end p) (ip p) (port p) (hostport p) (url p)
    (authorization p) (audioRtpPort p) (local_ctrl_ip p) (local_ctrl_port p)
    (cseqm p) (in_a_dialog p) (src_tag p) (peer_tag p) v (branch_id p)
    (session_id p).
Definition set_branch_id (p : RtspPlayer) (v : cstring) : RtspPlayer :=
  mkRtspPlayer (state p) (cseq p) (player_end p) (ip p) (port p) (hostport p) (url p)
    (authorization p) (audioRtpPort p) (local_ctrl_ip p) (local_ctrl_port p)
    (cseqm p) (in_a_dialog p) (src_tag p) (peer_tag p) (call_id p) v
    (session_id p).
Definition set_session_id (p : RtspPlayer) (v : cstring) : RtspPlayer :=
  mkRtspPlayer (state p) (cseq p) (player_end p) (ip p) (port p) (hostport p) (url p)
    (authorization p) (audioRtpPort p) (local_ctrl_ip p) (local_ctrl_port p)
    (cseqm p) (in_a_dialog p) (src_tag p) (peer_tag p) (call_id p) (branch_id p)
    v.

Definition get_cseqm (p : RtspPlayer) (m : nat) : Z := nth m (cseqm p) 0.
Definition put_cseqm (p : RtspPlayer) (m : nat) (v : Z) : RtspPlayer :=
  set_cseqm p (array_set (cseqm p) m v).

(** What the program does to the outside, in order. *)
Inductive event :=
  | EvSend (request : cstring)          (* send() on the control socket *)
  | EvLog (message : cstring)           (* ast_log at WARNING or ERROR level *)
  | EvConnectAudioRtp (dst_port : Z).   (* connect(player->audioRtp, ip:dst_port) *)

Inductive send_outcome := SendDone | SendWouldBlock | SendFailed.

(** The outside as the program meets it: the results of the successive
    calls of [random()] and of [send()], and the events so far. *)
Record World := mkWorld {
  random_results : nat -> Z;
  send_results : nat -> send_outcome;
  random_calls : nat;
  send_calls : nat;
  trace : list event
}.

(** Computations that act on the world and may run into undefined
    behaviour. *)
Definition M (A : Type) : Type := World -> option (A * World).

Definition ret {A} (a : A) : M A := fun w => Some (a, w).
Definition bind {A B} (c : M A) (k : A -> M B) : M B :=
  fun w => match c w with
           | Some (a, w') => k a w'
           | None => None
           end.
Definition lift {A} (x : option A) : M A :=
  fun w => match x with
           | Some a => Some (a, w)
           | None => None
           end.

Notation "x <~ c ;; k" := (bind c (fun x => k))
  (at level 61, c at next level, right associativity).
Notation "c ;;; k" := (bind c (fun _ => k))
  (at level 61, right associativity).

Definition emit (e : event) : M unit :=
  fun w => Some (tt, mkWorld (random_results w) (send_results w) (random_calls w)
                             (send_calls w) (trace w ++ [e])).

Definition ast_log (message : cstring) : M unit := emit (EvLog message).

Definition random : M Z :=
  fun w => Some (random_results w (random_calls w),
                 mkWorld (random_results w) (send_results w) (S (random_calls w))
                         (send_calls w) (trace w)).

(** [SendRequest(fd, request, &end)]: the return value and what it
    leaves in [*end] ([None]: untouched). *)
Definition SendRequest (request : cstring) : M (Z * option Z) :=
  fun w =>
    let w' := mkWorld (random_results w) (send_results w) (random_calls w)
                      (S (send_calls w)) (trace w ++ [EvSend request]) in
    match send_results w (send_calls w) with
    | SendDone => Some ((Z.of_nat (length request), None), w')
    | SendWouldBlock => Some ((0, None), w')
    | SendFailed =>
        Some ((0, Some 0),
              mkWorld (random_results w') (send_results w') (random_calls w')
                      (send_calls w')
                      (trace w' ++ [EvLog (L "Error sending request")]))
    end.

(** ** printf conversions *)

Definition digit_char (d : Z) : ascii :=
  ascii_of_nat (Z.to_nat (if d <? 10 then 48 + d else 87 + d)).

(** The digits of [n >= 0] in [base], most significant first; [fuel]
    bounds the number of digits. *)
Fixpoint digits (fuel : nat) (base n : Z) (acc : cstring) : cstring :=
  match fuel with
  | O => acc
  | S fuel' =>
      let acc' := digit_char (n mod base) :: acc in
      if n / base =? 0 then acc' else digits fuel' base (n / base) acc'
  end.

Definition pad_left (c : ascii) (width : nat) (s : cstring) : cstring :=
  repeat c (width - length s) ++ s.

(** ["%d"] and ["%i"]. *)
Definition fmt_d (n : Z) : cstring :=
  if n <? 0 then "-" :: digits 64 10 (- n) [] else digits 64 10 n [].

(** ["%08lx"] of a non-negative [long]. *)
Definition fmt_08lx (n : Z) : cstring := pad_left "0" 8 (digits 64 16 n []).

(** ["%8ld"]. *)
Definition fmt_8ld (n : Z) : cstring := pad_left SP 8 (fmt_d n).

(** ** Identifiers *)

Definition generateSrcTag (player : RtspPlayer) : M RtspPlayer :=
  r <~ random ;;
  t <~ lift (fits 20 (fmt_08lx r)) ;;
  ret (set_src_tag player t).

Definition generateBranch (player : RtspPlayer) : M RtspPlayer :=
  r1 <~ random ;; r2 <~ random ;; r3 <~ random ;; r4 <~ random ;;
  b <~ lift (fits 100 (L "z9hG4bKi-" ++ fmt_08lx r1 ++ fmt_08lx r2
                       ++ fmt_08lx r3 ++ fmt_08lx r4)) ;;
  ret (set_branch_id player b).

Definition generateCallId (player : RtspPlayer) : M RtspPlayer :=
  r1 <~ random ;; r2 <~ random ;; r3 <~ random ;; r4 <~ random ;;
  c <~ lift (fits 100 (fmt_08lx r1 ++ fmt_08lx r2 ++ fmt_08lx r3 ++ fmt_08lx r4
                       ++ L "@" ++ local_ctrl_ip player)) ;;
  ret (set_call_id player c).

Definition generateSessionId (player : RtspPlayer) : M RtspPlayer :=
  r <~ random ;;
  s <~ lift (fits 64 (L "158" ++ fmt_8ld r)) ;;
  ret (set_session_id player s).

(** ** Authorization headers *)


Definition digest_header (cfg_username rx_realm nonce uri digest_result : cstring)
    : cstring :=
  L "Authorization: Digest username=" ++ quoted cfg_username
  ++ L ", realm=" ++ quoted rx_realm
  ++ L ", nonce=" ++ quoted nonce
  ++ L ", uri=" ++ quoted uri
  ++ L ", response=" ++ quoted digest_result
  ++ L ", algorithm=MD5".

(** [if (x != NULL) string_len += sprintf(..., fmt, x)]. *)
Definition opt_param (before : cstring) (x : option cstring) : cstring :=
  match x with
  | Some v => before ++ quoted v
  | None => []
  end.

(** [RtspPlayerDigestAuthorization(player, cfg_username, cfg_password,
    cfg_realm, nonce, nc, cnonce, qop, uri, rx_realm, method, isSIP)]:
    the return value and the player. *)
Definition RtspPlayerDigestAuthorization `{Asterisk} (player : RtspPlayer)
    (cfg_username cfg_password cfg_realm nonce : cstring)
    (nc cnonce qop : option cstring) (uri rx_realm method : cstring) (isSIP : Z)
    : M (Z * RtspPlayer) :=
  if negb (cstr_eqb cfg_realm rx_realm) then
    ast_log (L "Received realm " ++ rx_realm
             ++ L " doesn't match configured realm " ++ cfg_realm ++ L ".") ;;;
    ret (-1, player)
  else
    res <~ lift (auth_digest cfg_username cfg_password rx_realm nonce uri method) ;;
    match res with
    | (_, None) =>
        (* digest_result was not written and is printed all the same *)
        ast_log (L "MD5 hash computation test failed! Not tested on Big Endian") ;;;
        lift None
    | (_, Some digest_result) =>
        let head := digest_header cfg_username rx_realm nonce uri digest_result in
        let tail :=
          if isSIP =? 0
          then opt_param (L ", cnonce=") cnonce
               ++ opt_param (L ", qop=") qop
               ++ opt_param (L ", nc=") nc
          else opt_param (L ",cnonce") cnonce
               ++ opt_param (L ",qop") qop
               ++ opt_param (L ",nc") nc in
        a <~ lift (fits 256 (head ++ tail)) ;;
        ret (1, set_authorization player (Some a))
    end.

(** ** Requests *)

Definition auth_line (player : RtspPlayer) : cstring :=
  match authorization player with
  | Some a => a ++ CRLF
  | None => []
  end.


(* ===================================================================== *)
(** * SDP parser *)
(* ===================================================================== *)

(** The codec bits of Asterisk's [format_compatibility.h], which the
    table below refers to; [AST_FORMAT_AMRNB] is defined as 0 by this
    file itself. *)
Definition AST_FORMAT_G723 := Z.shiftl 1 0.
Definition AST_FORMAT_GSM := Z.shiftl 1 1.
Definition AST_FORMAT_ULAW := Z.shiftl 1 2.
Definition AST_FORMAT_ALAW := Z.shiftl 1 3.
Definition AST_FORMAT_G726_AAL2 := Z.shiftl 1 4.
Definition AST_FORMAT_ADPCM := Z.shiftl 1 5.
Definition AST_FORMAT_SLIN := Z.shiftl 1 6.
Definition AST_FORMAT_LPC10 := Z.shiftl 1 7.
Definition AST_FORMAT_G729 := Z.shiftl 1 8.
Definition AST_FORMAT_SPEEX := Z.shiftl 1 9.
Definition AST_FORMAT_ILBC := Z.shiftl 1 10.
Definition AST_FORMAT_G726 := Z.shiftl 1 11.
Definition AST_FORMAT_G722 := Z.shiftl 1 12.
Definition AST_FORMAT_AMRNB := 0.
Definition AST_FORMAT_JPEG := Z.shiftl 1 16.
Definition AST_FORMAT_PNG := Z.shiftl 1 17.
Definition AST_FORMAT_H261 := Z.shiftl 1 18.
Definition AST_FORMAT_H263 := Z.shiftl 1 19.
Definition AST_FORMAT_H263P := Z.shiftl 1 20.
Definition AST_FORMAT_H264 := Z.shiftl 1 21.
Definition AST_FORMAT_MP4 := Z.shiftl 1 22.

Definition mimeTypes : list (Z * cstring) :=
  [ (AST_FORMAT_G723, L "G723");
    (AST_FORMAT_GSM, L "GSM");
    (AST_FORMAT_ULAW, L "PCMU");
    (AST_FORMAT_ALAW, L "PCMA");
    (AST_FORMAT_G726, L "G726-32");
    (AST_FORMAT_ADPCM, L "DVI4");
    (AST_FORMAT_SLIN, L "L16");
    (AST_FORMAT_LPC10, L "LPC");
    (AST_FORMAT_G729, L "G729");
    (AST_FORMAT_SPEEX, L "speex");
    (AST_FORMAT_ILBC, L "iLBC");
    (AST_FORMAT_G722, L "G722");
    (AST_FORMAT_G726_AAL2, L "AAL2-G726-32");
    (AST_FORMAT_AMRNB, L "AMR");
    (AST_FORMAT_JPEG, L "JPEG");
    (AST_FORMAT_PNG, L "PNG");
    (AST_FORMAT_H261, L "H261");
    (AST_FORMAT_H263, L "H263");
    (AST_FORMAT_H263P, L "H263-2000");
    (AST_FORMAT_H264, L "H264");
    (AST_FORMAT_MP4, L "MP4V-ES") ].

Record SDPFormat := mkSDPFormat {
  payload : Z;
  format : Z;
  control : option cstring
}.

Record SDPMedia := mkSDPMedia {
  formats : list SDPFormat;             (* formats[0 .. num-1] *)
  num : nat;
  all : Z;
  peer_media_port : Z
}.

Record SDPContent := mkSDPContent {
  audio : option SDPMedia;
  video : option SDPMedia
}.

(** [strncasecmp(a, b, n) == 0]. *)
Fixpoint strncasecmp_eq (a b : cstring) (n : nat) : bool :=
  match n with
  | O => true
  | S n' =>
      match a, b with
      | [], [] => true
      | x :: a', y :: b' =>
          Ascii.eqb (tolower x) (tolower y) && strncasecmp_eq a' b' n'
      | _, _ => false
      end
  end.

(** The digits read by [strtol(.., 10)]: the value, the character before
    the end pointer and the end pointer. *)
Fixpoint read_digits (p : cstring) (acc : Z) (prev : ascii) : Z * ascii * cstring :=
  match p with
  | c :: t =>
      if isdigit c
      then read_digits t (10 * acc + (Z.of_nat (nat_of_ascii c) - 48)) c
      else (acc, prev, p)
  | [] => (acc, prev, [])
  end.

Definition LONG_MAX := 2 ^ 63 - 1.

(** [strtol(nptr, &k, 10)] with the character at [k - 1]; [before] is
    the character at [nptr - 1]. *)
Definition strtol (before : ascii) (nptr : cstring) : Z * ascii * cstring :=
  let p := skip_while isspace nptr in
  let '(neg, q) :=
    match p with
    | c :: t => if Ascii.eqb c "-" then (true, t)
                else if Ascii.eqb c "+" then (false, t) else (false, p)
    | [] => (false, p)
    end in
  match q with
  | c :: _ =>
      if isdigit c then
        let '(v, prev, k) := read_digits q 0 c in
        ((if neg then Z.max (- v) (- LONG_MAX - 1) else Z.min v LONG_MAX), prev, k)
      else (0, before, nptr)
  | [] => (0, before, nptr)
  end.

(** The value of a [long] converted to [int]. *)
Definition to_int (v : Z) : Z := (v + 2 ^ 31) mod 2 ^ 32 - 2 ^ 31.

Definition atoi (nptr : cstring) : Z := to_int (fst (fst (strtol SP nptr))).

(** [CreateMedia(buffer, bufferLen)]; [None] is [NULL]. *)
Definition CreateMedia (buffer : cstring) (bufferLen : nat) : option SDPMedia :=
  let spaces := length (filter (fun c => Ascii.eqb c SP) (firstn bufferLen buffer)) in
  if (spaces <? 3)%nat then None
  else Some (mkSDPMedia (repeat (mkSDPFormat (-1) 0 None) (spaces - 2))
                        (spaces - 2) 0 0).

(** The media section the pointer [media] refers to: it always points to
    what the last [m=] line stored in [sdp->audio] or [sdp->video]. *)
Inductive media_ptr := MediaNone | MediaAudio | MediaVideo.

Record SDPState := mkSDPState {
  sdp : SDPContent;
  media : media_ptr;
  next_n : nat                          (* the local n: the next slot to fill *)
}.

Definition get_media (st : SDPState) : option SDPMedia :=
  match media st with
  | MediaNone => None
  | MediaAudio => audio (sdp st)
  | MediaVideo => video (sdp st)
  end.

Definition put_media (st : SDPState) (m : SDPMedia) (n' : nat) : SDPState :=
  match media st with
  | MediaNone => st
  | MediaAudio => mkSDPState (mkSDPContent (Some m) (video (sdp st))) MediaAudio n'
  | MediaVideo => mkSDPState (mkSDPContent (audio (sdp st)) (Some m)) MediaVideo n'
  end.

(** The [for (f = 0; f < sizeof(mimeTypes)/sizeof(mimeTypes[0]); ++f)]
    loop of the [a=rtpmap:] case: every entry whose name agrees with the
    first [len] characters at [ini] fills [formats[n]] and advances [n];
    the loop is not left after a match.  [None]: [formats[n]] is past the
    array. *)
Fixpoint rtpmap_table (table : list (Z * cstring)) (ini : cstring) (len : nat)
    (pt : Z) (m : SDPMedia) (n : nat) : option (SDPMedia * nat) :=
  match table with
  | [] => Some (m, n)
  | (fmt, name) :: table' =>
      if strncasecmp_eq ini name len then
        match nth_error (formats m) n with
        | None => None
        | Some f =>
            let m' := mkSDPMedia
                        (array_set (formats m) n (mkSDPFormat pt fmt (control f)))
                        (num m) (Z.lor (all m) fmt) (peer_media_port m) in
            rtpmap_table table' ini len pt m' (S n)
        end
      else rtpmap_table table' ini len pt m n
  end.

(** The offset of the first [c] among the first [len] characters, or
    [len]. *)
Fixpoint scan_to (c : ascii) (p : cstring) (len : nat) : nat :=
  match len, p with
  | S len', x :: t => if Ascii.eqb x c then O else S (scan_to c t len')
  | _, _ => O
  end.

(** The [a=rtpmap:] case for the line of length [len] at [i]. *)
Definition sdp_rtpmap (i : cstring) (len : nat) (st : SDPState) : option SDPState :=
  match get_media st with
  | None => Some st
  | Some m =>
      if (next_n st =? num m)%nat then Some st
      else
        let ini := S (scan_to SP i len) in
        if (len <=? ini)%nat then Some st
        else
          let name_len := scan_to "/" (skipn ini i) (len - ini) in
          match rtpmap_table mimeTypes (skipn ini i) name_len (atoi (skipn 9 i)) m (next_n st) with
          | None => None
          | Some (m', n') => Some (put_media st m' n')
          end
  end.

Definition set_control (f : SDPFormat) (c : cstring) : SDPFormat :=
  mkSDPFormat (payload f) (format f) (Some c).

(** The [a=control:] case.  [None]: the format whose control is replaced
    was freed just before. *)
Definition sdp_control (i : cstring) (len : nat) (st : SDPState) : option SDPState :=
  match get_media st with
  | None => Some st
  | Some m =>
      if (num m <? next_n st)%nat then Some st
      else
        let c := firstn (len - 10) (skipn 10 i) in
        if (next_n st =? 0)%nat then
          Some (put_media st (mkSDPMedia (map (fun f => set_control f c) (formats m))
                                         (num m) (all m) (peer_media_port m)) (next_n st))
        else
          match nth_error (formats m) (next_n st - 1) with
          | None => None
          | Some f =>
              match control f with
              | Some _ => None
              | None =>
                  Some (put_media st
                          (mkSDPMedia (array_set (formats m) (next_n st - 1) (set_control f c))
                                      (num m) (all m) (peer_media_port m)) (next_n st))
              end
          end
  end.

(** The [m=] case.  [None]: [sdp->audio] is [NULL] where its port is
    stored. *)
Definition sdp_media_line (i : cstring) (len : nat) (sip_enable : Z) (st : SDPState)
    : option SDPState :=
  if prefixb (L "video") (skipn 2 i) then
    Some (mkSDPState (mkSDPContent (audio (sdp st)) (CreateMedia i len)) MediaVideo 0)
  else if prefixb (L "audio") (skipn 2 i) then
    let a := CreateMedia i len in
    if sip_enable =? 0 then
      Some (mkSDPState (mkSDPContent a (video (sdp st))) MediaAudio 0)
    else
      match a with
      | None => None
      | Some m =>
          let '(v, prev, k) := strtol (nth 7 i SP) (skipn 8 i) in
          let port := v mod 2 ^ 16 in
          let port' := if port =? 0 then 0
                       else if prefixb (L "RTP") (prev :: k) then 0 else port in
          Some (mkSDPState
                  (mkSDPContent (Some (mkSDPMedia (formats m) (num m) (all m) port'))
                                (video (sdp st)))
                  MediaAudio 0)
      end
  else Some (mkSDPState (sdp st) MediaNone 0).

(** One line: [i] is the line start and [j] the offset of its ['\n']. *)
Definition sdp_line (i : cstring) (j : nat) (sip_enable : Z) (st : SDPState)
    : option SDPState :=
  if (j <=? 1)%nat then Some st
  else
    let len := if Ascii.eqb (nth (j - 1) i SP) CR then (j - 1)%nat else j in
    if prefixb (L "m=") i then sdp_media_line i len sip_enable st
    else if prefixb (L "a=rtpmap:") i then sdp_rtpmap i len st
    else if prefixb (L "a=control:") i then sdp_control i len st
    else Some st.

(** The [while ((j = strstr(i, "\n")) != NULL)] loop; the next line
    starts after the ['\n'] in every case. *)
Fixpoint CreateSDP_loop (fuel : nat) (i : cstring) (sip_enable : Z) (st : SDPState)
    : option SDPState :=
  match fuel with
  | O => Some st
  | S fuel' =>
      match strchr i LF with
      | None => Some st
      | Some j =>
          st' <- sdp_line i j sip_enable st ;;
          CreateSDP_loop fuel' (skipn (S j) i) sip_enable st'
      end
  end.

(** [CreateSDP(buffer, bufferLen, sip_enable)]. *)
Definition CreateSDP (buffer : cstring) (sip_enable : Z) : option SDPContent :=
  st <- CreateSDP_loop (length buffer) buffer sip_enable
          (mkSDPState (mkSDPContent None None) MediaNone 0) ;;
  Some (sdp st).

(* ===================================================================== *)
(** * Header lookup and the SIP speaker *)
(* ===================================================================== *)

(** [strcasestr(s, needle)] as the offset of the first occurrence. *)
Fixpoint strcasestr (s needle : cstring) : option nat :=
  if strncasecmp_eq s needle (length needle) && (length needle <=? length s)%nat
  then Some O
  else match s with
       | [] => None
       | _ :: t => option_map S (strcasestr t needle)
       end.

(** [HasHeader(buffer, bufferLen, header)]: the offset of the value, 0
    when the header is not there. *)
Definition HasHeader (buffer : cstring) (bufferLen : Z) (header : cstring) : nat :=
  let len := length header in
  if (len =? 0)%nat then O
  else
    match strcasestr buffer header with
    | None => O
    | Some i =>
        if (i <? 2)%nat then O
        else if bufferLen <? Z.of_nat i then O
        else if negb (Ascii.eqb (nth (i - 2) buffer "000") CR
                      && Ascii.eqb (nth (i - 1) buffer "000") LF) then O
        else if negb (Ascii.eqb (nth (i + len) buffer "000") ":"
                      && Ascii.eqb (nth (i + len + 1) buffer "000") SP) then O
        else (i + len + 2)%nat
    end.

Definition GetHeaderValueInt (buffer : cstring) (bufferLen : Z) (header : cstring) : Z :=
  match HasHeader buffer bufferLen header with
  | O => 0
  | i => atoi (skipn i buffer)
  end.

(** [GetHeaderValue]; [None] is the return value 0. *)
Definition GetHeaderValue (buffer : cstring) (bufferLen : Z) (header : cstring)
    : option cstring :=
  match HasHeader buffer bufferLen header with
  | O => None
  | i =>
      match strstr (skipn i buffer) CRLF with
      | None => None
      | Some j => Some (firstn (length (skipn i buffer) - length j) (skipn i buffer))
      end
  end.

Definition CheckHeaderValue (buffer : cstring) (bufferLen : Z) (header value : cstring)
    : bool :=
  match HasHeader buffer bufferLen header with
  | O => false
  | i => strncasecmp_eq (skipn i buffer) value (length value)
  end.

Definition GetResponseCode (buffer : cstring) (bufferLen : Z) (isSIP : Z) : Z :=
  if bufferLen <? 12 then -1
  else if isSIP =? 0 then atoi (skipn 9 buffer) else atoi (skipn 8 buffer).

Definition GetResponseLen (buffer : cstring) : nat :=
  match strstr buffer (CRLF ++ CRLF) with
  | None => O
  | Some i => (length buffer - length i + 4)%nat
  end.

Definition tag_stop (c : ascii) : bool := Ascii.eqb c SP || Ascii.eqb c CR.

(** [SipSetPeerTag(player, buffer, bufferLen)]; it returns 1 always. *)
Definition SipSetPeerTag (player : RtspPlayer) (buffer : cstring) (bufferLen : Z)
    : option RtspPlayer :=
  if in_a_dialog player =? 0 then
    match GetHeaderValue buffer bufferLen (L "To") with
    | None => Some player
    | Some to_header =>
        match strstr to_header (L "tag=") with
        | None => Some player
        | Some i =>
            tag <- fits 20 (take_while (fun c => negb (tag_stop c)) (skipn 4 i)) ;;
            Some (set_peer_tag player tag)
        end
    end
  else Some player.

(** [SipSpeakerSetAudioTransport(player, dst_port)]. *)
Definition SipSpeakerSetAudioTransport (player : RtspPlayer) (dst_port : Z) : M unit :=
  emit (EvConnectAudioRtp dst_port).

Definition sip_uri (username : cstring) (player : RtspPlayer) : cstring :=
  L "sip:" ++ username ++ L "@" ++ ip player ++ L ":" ++ fmt_d (port player).

Definition via_line (player : RtspPlayer) : cstring :=
  L "Via: SIP/2.0/UDP " ++ local_ctrl_ip player ++ L ":"
  ++ fmt_d (local_ctrl_port player) ++ L ";branch=" ++ branch_id player
  ++ L ";rport" ++ CRLF.

Definition from_line (player : RtspPlayer) : cstring :=
  L "From: <sip:" ++ MY_NAME ++ L "@" ++ local_ctrl_ip player ++ L ">;tag="
  ++ src_tag player ++ CRLF.

(** [SipSpeakerAck(player, username, response_type)]. *)
Definition SipSpeakerAck (player : RtspPlayer) (username : cstring) (response_type : Z)
    : M (Z * RtspPlayer) :=
  player <~ (if response_type =? 2 then generateBranch player else ret player) ;;
  request <~ lift (fits 1024
    (L "ACK " ++ sip_uri username player ++ L " SIP/2.0" ++ CRLF
     ++ L "To: <" ++ sip_uri username player ++ L ">;tag=" ++ peer_tag player ++ CRLF
     ++ from_line player
     ++ via_line player
     ++ L "Call-ID: " ++ call_id player ++ CRLF
     ++ L "CSeq: " ++ fmt_d (get_cseqm player ACK) ++ L " ACK" ++ CRLF
     ++ L "Max-Forwards: 70" ++ CRLF
     ++ L "Content-Length: 0" ++ CRLF
     ++ CRLF)) ;;
  sent <~ SendRequest request ;;
  if fst sent =? 0 then ret (0, player) else ret (1, player).

(** [SipSpeakerInvite(player, username, audioFormat, retry)]. *)
Definition SipSpeakerInvite (player : RtspPlayer) (username : cstring)
    (audioFormat : Z) (retry : Z) : M (Z * RtspPlayer) :=
  let codec :=
    if audioFormat =? AST_FORMAT_ULAW then Some (0, L "PCMU/8000", 64)
    else if audioFormat =? AST_FORMAT_ALAW then Some (8, L "PCMA/8000", 64)
    else None in
  match codec with
  | None =>
      ast_log (L "SIP does not support audio Format") ;;; ret (-1, player)
  | Some (rtp_pt, rtp_pt_name, rtp_bw) =>
      player <~ generateSessionId player ;;
      let sdp_full :=
        L "v=0" ++ CRLF
        ++ L "o=SIP " ++ session_id player ++ L " 424 IN IP4 " ++ local_ctrl_ip player ++ CRLF
        ++ L "s=SIPUA" ++ CRLF
        ++ L "c=IN IP4 " ++ local_ctrl_ip player ++ CRLF
        ++ L "t=0 0" ++ CRLF
        ++ L "m=audio " ++ fmt_d (audioRtpPort player) ++ L " RTP/AVP " ++ fmt_d rtp_pt ++ CRLF
        ++ L "b=AS:" ++ fmt_d rtp_bw ++ CRLF
        ++ L "a=rtpmap:" ++ fmt_d rtp_pt ++ L " " ++ rtp_pt_name ++ CRLF
        ++ L "a=sendonly" ++ CRLF in
      let sdp_string_len := Z.of_nat (length sdp_full) in
      let sdp_text := firstn 511 sdp_full in         (* snprintf(sdp, 512, ..) *)
      player <~ (if (in_a_dialog player =? 0) && (retry =? 0)
                 then p <~ generateSrcTag player ;; generateCallId p
                 else ret player) ;;
      player <~ generateBranch player ;;
      request <~ lift (fits 1024
        (L "INVITE " ++ sip_uri username player ++ L " SIP/2.0" ++ CRLF
         ++ L "To: <" ++ sip_uri username player ++ L ">" ++ CRLF
         ++ from_line player
         ++ via_line player
         ++ L "Call-ID: " ++ call_id player ++ CRLF
         ++ L "Contact: sip:" ++ MY_NAME ++ L "@" ++ local_ctrl_ip player ++ L ":"
         ++ fmt_d (local_ctrl_port player) ++ CRLF
         ++ auth_line player
         ++ L "CSeq: " ++ fmt_d (get_cseqm player INVITE) ++ L " INVITE" ++ CRLF
         ++ L "Allow: INVITE, ACK, CANCEL, OPTIONS, BYE, INFO" ++ CRLF
         ++ L "Max-Forwards: 70" ++ CRLF
         ++ L "Content-Type: application/sdp" ++ CRLF
         ++ L "Content-Length: " ++ fmt_d sdp_string_len ++ CRLF
         ++ CRLF
         ++ sdp_text)) ;;
      sent <~ SendRequest request ;;
      if fst sent =? 0 then ret (0, player)
      else ret (1, put_cseqm (set_state player SIP_STATE_INVITE) INVITE
                             (get_cseqm player INVITE + 1))
  end.


(* ===================================================================== *)
(** * Response handlers of the main loop *)
(* ===================================================================== *)


(** The locals of [main_loop] that the SIP handlers use. *)
Record SipLocals := mkSipLocals {
  enable_sip_tx : Z;
  sip_prev_samples : Z;
  sip_sdp : option SDPContent
}.

(** The [case 401] of a 4xx answer to INVITE. *)
Definition sip_invite_401 `{Asterisk} (sip_speaker : RtspPlayer)
    (username password sip_realm : cstring) (sip_port audioFormat : Z)
    (buffer : cstring) : M RtspPlayer :=
  basic <~ lift (GetAuthSchemeBasic buffer) ;;
  if fst basic =? 0 then
    ast_log (L "SIP Code does not yet support Basic Auth") ;;; ret sip_speaker
  else
    digest <~ lift (GetAuthSchemeDigest buffer) ;;
    if fst digest =? 0 then
      let digest_data := snd digest in
      uri <~ lift (fits 64 (L "sip:" ++ username ++ L "@" ++ ip sip_speaker
                            ++ L ":" ++ fmt_d sip_port)) ;;
      a <~ RtspPlayerDigestAuthorization sip_speaker username password sip_realm
             (nonce digest_data) None None None uri (rx_realm digest_data)
             (L "INVITE") 1 ;;
      let sip_speaker := snd a in
      if get_cseqm sip_speaker INVITE =? 3 then ret sip_speaker
      else
        r <~ SipSpeakerInvite sip_speaker username audioFormat 1 ;;
        if fst r =? 0
        then ast_log (L "SIP: Couldn't formulate/send INVITE") ;;; ret (snd r)
        else ret (snd r)
    else
      ast_log (L "No Basic/Digest Authentication header/data present") ;;;
      ret sip_speaker.

(** The [case 200] of a 2xx answer to INVITE. *)
Definition sip_invite_200 (sip_speaker : RtspPlayer) (audioFormat : Z)
    (buffer : cstring) (loc : SipLocals) : M SipLocals :=
  let bufferLen := Z.of_nat (length buffer) in
  let responseLen := GetResponseLen buffer in
  if (responseLen =? 0)%nat then ret loc
  else
    let contentLength :=
      GetHeaderValueInt buffer (Z.of_nat responseLen) (L "Content-Length") in
    if negb (CheckHeaderValue buffer (Z.of_nat responseLen) (L "Content-Type")
                              (L "application/sdp")) then
      ast_log (L "SIP: Content-Type unknown") ;;; ret loc
    else
      let bufferLen := bufferLen - Z.of_nat responseLen in
      let buffer := skipn responseLen buffer in      (* memmove *)
      if bufferLen <? contentLength then
        ast_log (L "SIP: Message Data too big to fit!!") ;;; ret loc
      else
        sdp <~ lift (CreateSDP buffer 1) ;;
        let loc := mkSipLocals (enable_sip_tx loc) (sip_prev_samples loc) (Some sdp) in
        a <~ lift (audio sdp) ;;                     (* sip_sdp->audio->num *)
        if negb (num a =? 1)%nat then
          ast_log (L "SIP: Peer Answers with more than 1 codec") ;;; ret loc
        else
          f0 <~ lift (nth_error (formats a) 0) ;;
          (if negb (format f0 =? audioFormat)
           then ast_log (L "SIP: Peer Answers with mismatched codec")
           else ret tt) ;;;
          SipSpeakerSetAudioTransport sip_speaker (peer_media_port a) ;;;
          ret (mkSipLocals 1 0 (Some sdp)).

(** The [case SIP_STATE_INVITE] of the main loop, after the response was
    read into [buffer]. *)
Definition sip_invite_response `{Asterisk} (sip_speaker : RtspPlayer)
    (username password sip_realm : cstring) (sip_port audioFormat : Z)
    (buffer : cstring) (loc : SipLocals) : M (RtspPlayer * SipLocals) :=
  let bufferLen := Z.of_nat (length buffer) in
  let responseCode := GetResponseCode buffer bufferLen 1 in
  if (100 <=? responseCode) && (responseCode <=? 199) then ret (sip_speaker, loc)
  else if (200 <=? responseCode) && (responseCode <=? 299) then
    sip_speaker <~ lift (SipSetPeerTag sip_speaker buffer bufferLen) ;;
    let sip_speaker := set_in_a_dialog sip_speaker 1 in
    let sip_speaker := put_cseqm sip_speaker ACK (get_cseqm sip_speaker INVITE - 1) in
    ack <~ SipSpeakerAck sip_speaker username 2 ;;
    (if fst ack =? 0 then ast_log (L "Couldn't formulate/send SIP ACK") else ret tt) ;;;
    let sip_speaker := snd ack in
    loc <~ (if responseCode =? 200
            then sip_invite_200 sip_speaker audioFormat buffer loc
            else ret loc) ;;
    ret (set_state sip_speaker SIP_STATE_NONE, loc)
  else if (400 <=? responseCode) && (responseCode <=? 499) then
    sip_speaker <~ lift (SipSetPeerTag sip_speaker buffer bufferLen) ;;
    let sip_speaker := put_cseqm sip_speaker ACK (get_cseqm sip_speaker INVITE - 1) in
    ack <~ SipSpeakerAck sip_speaker username 4 ;;
    (if fst ack =? 0 then ast_log (L "Couldn't formulate/send SIP ACK") else ret tt) ;;;
    let sip_speaker := snd ack in
    if responseCode =? 400 then
      ast_log (L "SIP: 400 Bad Request. Not Processing.") ;;;
      ret (set_state sip_speaker SIP_STATE_NONE, loc)
    else if responseCode =? 401 then
      sip_speaker <~ sip_invite_401 sip_speaker username password sip_realm
                       sip_port audioFormat buffer ;;
      ret (sip_speaker, loc)
    else ret (set_state sip_speaker SIP_STATE_NONE, loc)
  else ret (set_state sip_speaker SIP_STATE_NONE, loc).


(* ===================================================================== *)
(** * Receiver reports *)
(* ===================================================================== *)

Definition u32 (x : Z) : Z := x mod 2 ^ 32.
Definition u16 (x : Z) : Z := x mod 2 ^ 16.

Inductive byte_order := LittleEndian | BigEndian.

(** [htonl] and [htons] on a host of the given byte order. *)
Definition htonl (host : byte_order) (x : Z) : Z :=
  match host with
  | BigEndian => u32 x
  | LittleEndian =>
      Z.lor (Z.shiftl (Z.land (u32 x) 255) 24)
        (Z.lor (Z.shiftl (Z.land (Z.shiftr (u32 x) 8) 255) 16)
           (Z.lor (Z.shiftl (Z.land (Z.shiftr (u32 x) 16) 255) 8)
                  (Z.land (Z.shiftr (u32 x) 24) 255)))
  end.

Definition htons (host : byte_order) (x : Z) : Z :=
  match host with
  | BigEndian => u16 x
  | LittleEndian =>
      Z.lor (Z.shiftl (Z.land (u16 x) 255) 8) (Z.land (Z.shiftr (u16 x) 8) 255)
  end.

Definition ntohs := htons.

Record MediaStats := mkMediaStats {
  stats_count : Z;                      (* unsigned int count *)
  minSN : Z;
  maxSN : Z;
  lastTS : Z;
  stats_ssrc : Z;
  stats_time : Z                        (* struct timeval time, in ms *)
}.

Record RtcpCommonHeader := mkRtcpCommonHeader {
  common_count : Z;                     (* unsigned short count:5 *)
  common_p : Z;                         (* unsigned short p:1 *)
  common_version : Z;                   (* unsigned short version:2 *)
  common_pt : Z;                        (* unsigned short pt:8 *)
  common_length : Z                     (* unsigned short length *)
}.

Record RtcpReceptionReport := mkRtcpReceptionReport {
  rr_ssrc : Z;
  rr_fraction : Z;                      (* unsigned int fraction:8 *)
  rr_lost : Z;                          (* int lost:24 *)
  rr_last_seq : Z;
  rr_jitter : Z;
  rr_lsr : Z;
  rr_dlsr : Z
}.

(** [struct Rtcp] as a receiver report with one report block. *)
Record Rtcp := mkRtcp {
  common : RtcpCommonHeader;
  r_rr_ssrc : Z;
  r_rr_rr0 : RtcpReceptionReport
}.

(** Unsigned division; [None] is the division by zero. *)
Definition udiv (a b : Z) : option Z :=
  if b =? 0 then None else Some (a / b).

(** The value kept by a signed bit field of [bits] bits. *)
Definition to_signed (bits x : Z) : Z :=
  (x + 2 ^ (bits - 1)) mod 2 ^ bits - 2 ^ (bits - 1).

(** [MediaStatsRR(stats, rtcp)]; [rnd] is the result of [random()] and
    [now] the time of [ast_tvnow()] in ms.  [None]: a division by zero
    was executed. *)
Definition MediaStatsRR (host : byte_order) (stats : MediaStats) (rnd now : Z)
    : option Rtcp :=
  fraction <-
    (if 0 <? u32 (maxSN stats - minSN stats)
     then q <- udiv (u32 (255 * stats_count stats)) (u32 (maxSN stats - minSN stats)) ;;
          Some (q mod 2 ^ 8)
     else Some 255) ;;
  Some (mkRtcp
          (mkRtcpCommonHeader 1 0 2 201 (htons host 7))
          (htonl host (u32 rnd))
          (mkRtcpReceptionReport
             (htonl host (stats_ssrc stats))
             fraction
             (to_signed 24 (htonl host (maxSN stats - minSN stats - stats_count stats)))
             (htonl host (maxSN stats))
             (htonl host 255)
             (htonl host (lastTS stats))
             (htonl host (now - stats_time stats)))).

(* ===================================================================== *)
(** * RTP/RTCP port pairs *)
(* ===================================================================== *)

(** What [GetUdpPorts] hands back: the two sockets and their ports. *)
Record UdpPorts := mkUdpPorts {
  sock_a : nat;
  sock_b : nat;
  port_p : Z;
  port_q : Z
}.

Section UdpPorts.

(** The operating system: the port that [getsockname] reports for the
    [k]-th socket created, after it was bound with the port requested
    (0 when the request was 0 and any port may be given, and also what
    is read back when [bind] failed because the port was taken). *)
Variable os_bind : nat -> Z -> Z.

(** The socket just created has number [k]. *)
Definition bind_and_getsockname (k : nat) (requested : Z) : Z :=
  u16 (os_bind k (u16 requested)).

(** The [while ( *p%2 || *p+1!=*q )] loop; [k] sockets were created
    so far.  [None]: the loop is still running after [fuel] rounds. *)
Fixpoint GetUdpPorts_loop (fuel : nat) (k : nat) (a b : nat) (p q : Z)
    : option UdpPorts :=
  if negb (Z.rem p 2 =? 0) || negb (p + 1 =? q) then
    match fuel with
    | O => None
    | S fuel' =>
        let a := b in
        let p := q in
        let b := k in
        let q := bind_and_getsockname k (if 0 <? p then p + 1 else 0) in
        GetUdpPorts_loop fuel' (S k) a b p q
    end
  else Some (mkUdpPorts a b p q).

(** [GetUdpPorts(&a, &b, &p, &q, isIPv6)]. *)
Definition GetUdpPorts (fuel : nat) : option UdpPorts :=
  let p := bind_and_getsockname 0 0 in
  let q := bind_and_getsockname 1 0 in
  GetUdpPorts_loop fuel 2 0%nat 1%nat p q.

End UdpPorts.

(* ===================================================================== *)
(** * A reference instance of the Asterisk functions *)
(* ===================================================================== *)

(** MD5 (RFC 1321) with the digest written as 32 lower-case hexadecimal
    digits, which is what [ast_md5_hash] computes, and base64 with
    padding; they instantiate [Asterisk] where a concrete run is
    evaluated. *)
Module RFC.

Definition bytes_of (s : cstring) : list Z :=
  map (fun c => Z.of_nat (nat_of_ascii c)) s.

Definition K : list Z :=
  [ 0xd76aa478; 0xe8c7b756; 0x242070db; 0xc1bdceee; 0xf57c0faf; 0x4787c62a;
    0xa8304613; 0xfd469501; 0x698098d8; 0x8b44f7af; 0xffff5bb1; 0x895cd7be;
    0x6b901122; 0xfd987193; 0xa679438e; 0x49b40821; 0xf61e2562; 0xc040b340;
    0x265e5a51; 0xe9b6c7aa; 0xd62f105d; 0x02441453; 0xd8a1e681; 0xe7d3fbc8;
    0x21e1cde6; 0xc33707d6; 0xf4d50d87; 0x455a14ed; 0xa9e3e905; 0xfcefa3f8;
    0x676f02d9; 0x8d2a4c8a; 0xfffa3942; 0x8771f681; 0x6d9d6122; 0xfde5380c;
    0xa4beea44; 0x4bdecfa9; 0xf6bb4b60; 0xbebfbc70; 0x289b7ec6; 0xeaa127fa;
    0xd4ef3085; 0x04881d05; 0xd9d4d039; 0xe6db99e5; 0x1fa27cf8; 0xc4ac5665;
    0xf4292244; 0x432aff97; 0xab9423a7; 0xfc93a039; 0x655b59c3; 0x8f0ccc92;
    0xffeff47d; 0x85845dd1; 0x6fa87e4f; 0xfe2ce6e0; 0xa3014314; 0x4e0811a1;
    0xf7537e82; 0xbd3af235; 0x2ad7d2bb; 0xeb86d391 ].

Definition shifts : list Z :=
  [ 7; 12; 17; 22; 7; 12; 17; 22; 7; 12; 17; 22; 7; 12; 17; 22;
    5; 9; 14; 20; 5; 9; 14; 20; 5; 9; 14; 20; 5; 9; 14; 20;
    4; 11; 16; 23; 4; 11; 16; 23; 4; 11; 16; 23; 4; 11; 16; 23;
    6; 10; 15; 21; 6; 10; 15; 21; 6; 10; 15; 21; 6; 10; 15; 21 ].

Definition not32 (x : Z) : Z := 2 ^ 32 - 1 - x.
Definition rotl32 (x s : Z) : Z :=
  Z.lor (u32 (Z.shiftl x s)) (Z.shiftr x (32 - s)).

(** The padded message: 0x80, zeros up to 56 mod 64, and the length in
    bits as 8 bytes, least significant first. *)
Definition pad (msg : list Z) : list Z :=
  let len := Z.of_nat (length msg) in
  let zeros := Z.to_nat ((55 - len) mod 64) in
  msg ++ [128] ++ repeat 0 zeros
      ++ map (fun i => Z.shiftr (8 * len) (8 * Z.of_nat i) mod 256) (seq 0 8).

Fixpoint words (bytes : list Z) (fuel : nat) : list Z :=
  match fuel, bytes with
  | S fuel', b0 :: b1 :: b2 :: b3 :: rest =>
      (b0 + 256 * b1 + 65536 * b2 + 16777216 * b3) :: words rest fuel'
  | _, _ => []
  end.

Definition round (M : list Z) (st : Z * Z * Z * Z) (i : nat) : Z * Z * Z * Z :=
  let '(A, B, C, D) := st in
  let '(F, g) :=
    if (i <? 16)%nat then (Z.lor (Z.land B C) (Z.land (not32 B) D), i)
    else if (i <? 32)%nat
    then (Z.lor (Z.land D B) (Z.land (not32 D) C), ((5 * i + 1) mod 16)%nat)
    else if (i <? 48)%nat
    then (Z.lxor B (Z.lxor C D), ((3 * i + 5) mod 16)%nat)
    else (Z.lxor C (Z.lor B (not32 D)), ((7 * i) mod 16)%nat) in
  let F' := u32 (F + A + nth i K 0 + nth g M 0) in
  (D, u32 (B + rotl32 F' (nth i shifts 0)), B, C).

Definition block (st : Z * Z * Z * Z) (M : list Z) : Z * Z * Z * Z :=
  let '(a0, b0, c0, d0) := st in
  let '(A, B, C, D) := fold_left (round M) (seq 0 64) st in
  (u32 (a0 + A), u32 (b0 + B), u32 (c0 + C), u32 (d0 + D)).

Fixpoint blocks (ws : list Z) (fuel : nat) (st : Z * Z * Z * Z) : Z * Z * Z * Z :=
  match fuel with
  | O => st
  | S fuel' =>
      match ws with
      | [] => st
      | _ => blocks (skipn 16 ws) fuel' (block st (firstn 16 ws))
      end
  end.

Definition hex_byte (b : Z) : cstring :=
  [digit_char ((b / 16) mod 16); digit_char (b mod 16)].

Definition hex_word (w : Z) : cstring :=
  hex_byte (w mod 256) ++ hex_byte (Z.shiftr w 8 mod 256)
  ++ hex_byte (Z.shiftr w 16 mod 256) ++ hex_byte (Z.shiftr w 24 mod 256).

Definition md5 (s : cstring) : cstring :=
  let bytes := pad (bytes_of s) in
  let ws := words bytes (length bytes) in
  let '(A, B, C, D) :=
    blocks ws (length ws) (0x67452301, 0xefcdab89, 0x98badcfe, 0x10325476) in
  hex_word A ++ hex_word B ++ hex_word C ++ hex_word D.

Definition b64_char (v : Z) : ascii :=
  ascii_of_nat (Z.to_nat
    (if v <? 26 then 65 + v
     else if v <? 52 then 97 + (v - 26)
     else if v <? 62 then 48 + (v - 52)
     else if v =? 62 then 43 else 47)).

Fixpoint b64 (bytes : list Z) (fuel : nat) : cstring :=
  match fuel with
  | O => []
  | S fuel' =>
      match bytes with
      | [] => []
      | [x] =>
          [b64_char (x / 4); b64_char ((x mod 4) * 16); "="; "="]
      | [x; y] =>
          [b64_char (x / 4); b64_char ((x mod 4) * 16 + y / 16);
           b64_char ((y mod 16) * 4); "="]
      | x :: y :: z :: rest =>
          [b64_char (x / 4); b64_char ((x mod 4) * 16 + y / 16);
           b64_char ((y mod 16) * 4 + z / 64); b64_char (z mod 64)]
          ++ b64 rest fuel'
      end
  end.

Definition base64 (s : cstring) : cstring := b64 (bytes_of s) (length s).

End RFC.

Definition rfc_asterisk : Asterisk :=
  {| ast_md5_hash := RFC.md5; ast_base64encode := RFC.base64 |}.

(* ===================================================================== *)
(** * Vocabulary of the specification *)
(* ===================================================================== *)

(** A logical header line: every CRLF inside it is followed by a blank,
    so all its physical lines but the first are continuation lines. *)
Fixpoint logical_line (s : cstring) : bool :=
  match s with
  | [] => true
  | _ :: t =>
      if prefixb CRLF s then
        match t with
        | _ :: after => starts_wsp after && logical_line after
        | [] => false
        end
      else logical_line t
  end.

Definition has_colon (s : cstring) : bool :=
  match strchr s ":" with
  | Some _ => true
  | None => false
  end.

(** A header line the parser accepts: not empty, not a continuation of
    the line before it, shorter than the line cap and with a colon. *)
Definition header_line (l : cstring) : bool :=
  negb (length l =? 0)%nat && negb (starts_wsp l) && logical_line l
  && (length l <? MAX_HEADER_LINE)%nat && has_colon l.

(** The header a line stands for. *)
Definition header_of (l : cstring) : HeaderStruct :=
  match split_header l with
  | Some h => h
  | None => mkHeader [] []
  end.

(** The text of a list of lines, each ended by CRLF. *)
Definition lines (ls : list cstring) : cstring :=
  concat (map (fun l => l ++ CRLF) ls).

(** Unfolding as the message formats define it: every CRLF that is
    immediately followed by a blank is removed. *)
Fixpoint unfold (s : cstring) : cstring :=
  match s with
  | [] => []
  | c :: t =>
      if prefixb CRLF s then
        match t with
        | _ :: after => if starts_wsp after then unfold after else c :: unfold t
        | [] => c :: unfold t
        end
      else c :: unfold t
  end.

Definition no_cr (s : cstring) : bool :=
  forallb (fun c => negb (Ascii.eqb c CR)) s.

Definition starts_lf (s : cstring) : bool :=
  match s with
  | c :: _ => Ascii.eqb LF c
  | [] => false
  end.

Definition starts_space (s : cstring) : bool :=
  match s with
  | c :: _ => isspace c
  | [] => false
  end.

Definition all_space (s : cstring) : bool := forallb isspace s.

(** ** Challenges as the headers write them *)

(** A parameter value: a quoted string or a bare token. *)
Inductive auth_value :=
  | Quoted (content : cstring)
  | Bare (content : cstring).

Definition value_text (v : auth_value) : cstring :=
  match v with
  | Quoted c => c
  | Bare c => c
  end.

Definition render_value (v : auth_value) : cstring :=
  match v with
  | Quoted c => quoted c
  | Bare c => c
  end.

Definition challenge_param := (cstring * auth_value)%type.
Definition challenge := (cstring * list challenge_param)%type.

Definition render_param (p : challenge_param) : cstring :=
  fst p ++ L "=" ++ render_value (snd p).

(** The parameters of a challenge that another challenge follows: each
    one is followed by a comma and a space. *)
Definition render_params (ps : list challenge_param) : cstring :=
  concat (map (fun p => render_param p ++ L ", ") ps).

Definition render_challenge (ch : challenge) : cstring :=
  fst ch ++ L " " ++ render_params (snd ch).

Definition render_challenges (chs : list challenge) : cstring :=
  concat (map render_challenge chs).

Definition token_char (c : ascii) : bool :=
  negb (isspace c) && negb (Ascii.eqb c ",") && negb (Ascii.eqb c "=").

(** A scheme name: a token that is not empty and fits [MAX_TOKEN]. *)
Definition wf_token (t : cstring) : bool :=
  negb (length t =? 0)%nat && (length t <? MAX_TOKEN)%nat && forallb token_char t.

Definition wf_key (k : cstring) : bool :=
  (length k <? MAX_TOKEN)%nat && forallb token_char k.

(** The content of a quoted string, read after the character [prev]:
    every double quote in it is escaped by a backslash in front of it,
    and the quote that closes the string is not. *)
Fixpoint quoted_ok (prev : ascii) (c : cstring) : bool :=
  match c with
  | [] => negb (Ascii.eqb prev BACKSLASH)
  | x :: c' =>
      negb (Ascii.eqb x DQUOTE && negb (Ascii.eqb prev BACKSLASH)) && quoted_ok x c'
  end.

Definition starts_dquote (s : cstring) : bool :=
  match s with
  | c :: _ => Ascii.eqb c DQUOTE
  | [] => false
  end.

Definition wf_value (v : auth_value) : bool :=
  match v with
  | Quoted c => (length c <? MAX_TOKEN)%nat && quoted_ok DQUOTE c
  | Bare c =>
      (length c <? MAX_TOKEN)%nat && forallb (fun x => negb (Ascii.eqb x ",")) c
      && negb (starts_dquote c)
  end.

Definition wf_param (p : challenge_param) : bool :=
  wf_key (fst p) && wf_value (snd p).

(** A challenge with at least one parameter and fewer than
    [MAX_AUTH_KEY_VAL] of them. *)
Definition wf_challenge (ch : challenge) : bool :=
  wf_token (fst ch) && negb (length (snd ch) =? 0)%nat
  && (length (snd ch) <? MAX_AUTH_KEY_VAL)%nat && forallb wf_param (snd ch).

(** What follows the target scheme: nothing, or a space and the rest. *)
Definition starts_sp_or_empty (s : cstring) : bool :=
  match s with
  | c :: _ => Ascii.eqb c SP
  | [] => true
  end.

(** The key and value [parse_auth_params] is to hand back for a
    parameter. *)
Definition plain_param (p : challenge_param) : auth_param :=
  (fst p, value_text (snd p)).

(** A lower-case hexadecimal digit, and a text of 32 of them. *)
Definition is_hex (c : ascii) : bool :=
  let k := nat_of_ascii c in
  isdigit c || ((97 <=? k)%nat && (k <=? 102)%nat).

Definition hex32 (s : cstring) : bool :=
  (length s =? 32)%nat && forallb is_hex s.

(* ===================================================================== *)
(** * Concrete messages and runs *)
(* ===================================================================== *)

(** A system that first hands out the ports 40001 and 40003, then 40004
    for the third socket (the request for 40004 succeeds) and refuses
    nothing afterwards. *)
Definition os_with_collisions (k : nat) (requested : Z) : Z :=
  match k with
  | 0%nat => 40001
  | 1%nat => 40003
  | _ => requested
  end.


(** A 401 answer that carries a Digest challenge and, in a second header,
    a Basic challenge for another realm. *)
Definition challenge_digest_then_basic : cstring :=
  L "RTSP/1.0 401 Unauthorized" ++ CRLF
  ++ L "CSeq: 1" ++ CRLF
  ++ L "WWW-Authenticate: Digest realm=" ++ quoted (L "cam")
  ++ L ", nonce=" ++ quoted (L "abc") ++ CRLF
  ++ L "WWW-Authenticate: Basic realm=" ++ quoted (L "other") ++ CRLF
  ++ CRLF.

(** The same two challenges in one header value. *)
Definition challenge_digest_comma_basic : cstring :=
  L "RTSP/1.0 401 Unauthorized" ++ CRLF
  ++ L "CSeq: 1" ++ CRLF
  ++ L "WWW-Authenticate: Digest realm=" ++ quoted (L "cam")
  ++ L ", nonce=" ++ quoted (L "abc")
  ++ L ", Basic realm=" ++ quoted (L "other") ++ CRLF
  ++ CRLF.

(** A video section that declares the payload types 34 and 96. *)
Definition sdp_h263_h264 : cstring :=
  L "v=0" ++ CRLF
  ++ L "m=video 5000 RTP/AVP 34 96" ++ CRLF
  ++ L "a=rtpmap:34 H263/90000" ++ CRLF
  ++ L "a=rtpmap:96 H264/90000" ++ CRLF.

(** A 200 answer to an INVITE that offered PCMU: one audio format, PCMA. *)
Definition answer_pcma : cstring :=
  L "SIP/2.0 200 OK" ++ CRLF
  ++ L "Via: SIP/2.0/UDP 192.168.0.2:5060;branch=z9hG4bKi-1;rport" ++ CRLF
  ++ L "To: <sip:cam@192.168.0.34:5060>;tag=9f3a" ++ CRLF
  ++ L "From: <sip:agbell@192.168.0.2>;tag=0000002a" ++ CRLF
  ++ L "Call-ID: 1@192.168.0.2" ++ CRLF
  ++ L "CSeq: 1 INVITE" ++ CRLF
  ++ L "Content-Type: application/sdp" ++ CRLF
  ++ L "Content-Length: 131" ++ CRLF
  ++ CRLF
  ++ L "v=0" ++ CRLF
  ++ L "o=cam 1 1 IN IP4 192.168.0.34" ++ CRLF
  ++ L "s=cam" ++ CRLF
  ++ L "c=IN IP4 192.168.0.34" ++ CRLF
  ++ L "t=0 0" ++ CRLF
  ++ L "m=audio 5004 RTP/AVP 8" ++ CRLF
  ++ L "a=rtpmap:8 PCMA/8000" ++ CRLF
  ++ L "a=recvonly" ++ CRLF.

(** The speaker after its first INVITE, outside a dialog. *)
Definition speaker0 : RtspPlayer :=
  mkRtspPlayer SIP_STATE_INVITE 1 0 (L "192.168.0.34") 5060 (L "192.168.0.34:5060")
    None None 40000 (L "192.168.0.2") 5060 [2; 1; 1; 1; 1; 1; 1; 1; 1; 1] 0
    (L "0000002a") [] (L "1@192.168.0.2") (L "z9hG4bKi-1") (L "158       7").

(** A world in which every [send] succeeds. *)
Definition world0 : World :=
  mkWorld (fun k => 16 + Z.of_nat k) (fun _ => SendDone) 0 0 [].

Definition is_send (e : event) : bool :=
  match e with
  | EvSend _ => true
  | _ => false
  end.

(** A header block of 101 well-formed header lines. *)
Definition headers_101 : cstring := lines (repeat (L "a:b") 101) ++ CRLF.

(** One header whose value is folded over two physical lines, and the
    same header on one line. *)
Definition folded_header : cstring :=
  L "Subject: first" ++ CRLF ++ L " second" ++ CRLF ++ CRLF.
Definition unfolded_header : cstring :=
  L "Subject: first second" ++ CRLF ++ CRLF.

(** Two header instances, one Basic and one Digest, in both orders. *)
Definition challenge_basic_then_digest : cstring :=
  L "RTSP/1.0 401 Unauthorized" ++ CRLF
  ++ L "CSeq: 1" ++ CRLF
  ++ L "WWW-Authenticate: Basic realm=" ++ quoted (L "other") ++ CRLF
  ++ L "WWW-Authenticate: Digest realm=" ++ quoted (L "cam")
  ++ L ", nonce=" ++ quoted (L "abc") ++ CRLF
  ++ CRLF.



(** The realm given to the application for this call. *)
Definition configured_realm : cstring := L "streaming_server".




(* ===================================================================== *)
(** * Further vocabulary *)
(* ===================================================================== *)

(** The last character of [s] is white space. *)
Definition ends_space (s : cstring) : bool := starts_space (rev s).

(** A header as [name:value], and the condition under which the parser
    takes the line as this header: the colon that splits it is the one
    after [name]. *)
Definition header_text (h : cstring * cstring) : cstring :=
  fst h ++ ":"%char :: snd h.

Definition wf_header (h : cstring * cstring) : bool :=
  negb (has_colon (fst h)) && header_line (header_text h).

Definition header_struct (h : cstring * cstring) : HeaderStruct :=
  mkHeader (trim_whitespace (fst h)) (trim_whitespace (snd h)).

(** [needle] occurs nowhere in [s]. *)
Definition absent (needle s : cstring) : bool :=
  match strstr s needle with
  | Some _ => false
  | None => true
  end.

(** A challenge that ends the header value: the scheme name, a space
    and the parameters, separated by a comma and a space. *)
Definition render_final (s : cstring) (ps : list challenge_param) (p : challenge_param)
    : cstring :=
  s ++ L " " ++ render_params ps ++ render_param p.

(** No header of the list is a WWW-Authenticate header. *)
Definition no_challenge (headers : HeaderStructList) : bool :=
  forallb (fun h => negb (is_www_authenticate h)) headers.

(** The challenges as cameras send them. *)
Definition digest_challenge (realm nonce_value : cstring) : cstring :=
  L "Digest realm=" ++ quoted realm ++ L ", nonce=" ++ quoted nonce_value.

Definition basic_challenge (realm : cstring) : cstring :=
  L "Basic realm=" ++ quoted realm.

(** The number that a text of decimal digits stands for, read after the
    digits that gave [acc]. *)
Fixpoint decimal_value (s : cstring) (acc : Z) : Z :=
  match s with
  | [] => acc
  | c :: t => decimal_value t (10 * acc + (Z.of_nat (nat_of_ascii c) - 48))
  end.

(** The text does not go on with a digit. *)
Definition no_digit_next (s : cstring) : bool :=
  match s with
  | c :: _ => negb (isdigit c)
  | [] => true
  end.

(** A world whose [random()] stays in its range, and in which every
    [send] succeeds. *)
Definition world1 : World :=
  mkWorld (fun k => (1103515245 * Z.of_nat k + 12345) mod 2 ^ 31)
          (fun _ => SendDone) 0 0 [].

(* ===================================================================== *)
(** * Receive statistics *)
(* ===================================================================== *)

(** [MediaStatsReset(stats)]; [now] is the time of [ast_tvnow()]. *)
Definition MediaStatsReset (stats : MediaStats) (now : Z) : MediaStats :=
  mkMediaStats 0 0 0 0 (stats_ssrc stats) now.

(** [MediaStatsUpdate(stats, ts, sn, ssrc)]; the three values are
    [unsigned int] parameters. *)
Definition MediaStatsUpdate (stats : MediaStats) (ts sn ssrc : Z) : MediaStats :=
  let count := u32 (stats_count stats + 1) in
  let minSN' := if minSN stats =? 0 then u32 sn else minSN stats in
  let maxSN' := if maxSN stats <? u32 sn then u32 sn else maxSN stats in
  mkMediaStats count minSN' maxSN' (u32 ts) (u32 ssrc) (stats_time stats).

(** A packet as the statistics see it: timestamp, sequence number and
    source. *)
Definition packet := (Z * Z * Z)%type.

Definition packet_sn (p : packet) : Z := u32 (snd (fst p)).

Definition update_with (stats : MediaStats) (p : packet) : MediaStats :=
  MediaStatsUpdate stats (fst (fst p)) (snd (fst p)) (snd p).

(** The first number of the list that is not 0 (0 when there is none),
    and the largest one (0 for the empty list). *)
Fixpoint first_nonzero (l : list Z) : Z :=
  match l with
  | [] => 0
  | x :: t => if x =? 0 then first_nonzero t else x
  end.

Definition largest (l : list Z) : Z := fold_right Z.max 0 l.

(** The parser's state after the line [m=audio 5004 RTP/AVP 0]: one
    audio format, not yet filled. *)
Definition sdp_after_audio_line : SDPState :=
  mkSDPState
    (mkSDPContent (Some (mkSDPMedia [mkSDPFormat (-1) 0 None] 1 0 0)) None)
    MediaAudio 0.

Definition no_space (s : cstring) : bool :=
  forallb (fun x => negb (Ascii.eqb x SP)) s.

(** The payload types at the end of an [m=] line. *)
Definition payload_list (pts : list Z) : cstring :=
  concat (map (fun pt => L " " ++ fmt_d pt) pts).

(** A format slot that no [a=rtpmap:] line has filled. *)
Definition unfilled : SDPFormat := mkSDPFormat (-1) 0 None.

(* ===================================================================== *)
(** * RTSP sessions and transports *)
(* ===================================================================== *)

(** [if ((p = strchr(session, ';')) > 0) *p = 0;]: the session id
    without its parameters. *)
Definition strip_parameters (session : cstring) : cstring :=
  match strchr session ";" with
  | Some k => firstn k session
  | None => session
  end.

(** [RtspPlayerAddSession(player, session)] on [player->session[0 ..
    numSessions - 1]]: the return value and the sessions.  [None]: the
    write [player->session[numSessions++]] is past the two slots. *)
Definition RtspPlayerAddSession (sessions : list cstring) (session : cstring)
    : option (Z * list cstring) :=
  if (length sessions =? 2)%nat then Some (0, sessions)
  else if (2 <? length sessions)%nat then None
  else
    let session := strip_parameters session in
    if existsb (cstr_eqb session) sessions then Some (0, sessions)
    else Some (Z.of_nat (S (length sessions)), sessions ++ [session]).

(** The sessions after the answers that carried the session ids [ids],
    starting from [sessions]. *)
Fixpoint add_sessions (sessions : list cstring) (ids : list cstring)
    : option (list cstring) :=
  match ids with
  | [] => Some sessions
  | id :: ids' =>
      match RtspPlayerAddSession sessions id with
      | Some (_, sessions') => add_sessions sessions' ids'
      | None => None
      end
  end.

Definition has_char (c : ascii) (s : cstring) : bool :=
  existsb (fun x => Ascii.eqb x c) s.

(** What holds of the two session slots at any time, the session ids of
    the answers being [ids]. *)
Definition sessions_ok (ids ss : list cstring) : Prop :=
  (length ss <= 2)%nat /\ NoDup ss
  /\ Forall (fun s => has_char ";" s = false
                     /\ exists id, In id ids /\ s = strip_parameters id) ss.

(** What [RrspPlayerSetAudioTransport] does with a Transport header. *)
Inductive transport_action :=
  | LogNoServer                        (* "No server found in transport" *)
  | LogNoRtcp                          (* "No rtcp found in transport" *)
  | ConnectAudioRtcp (port : Z).       (* connect(player->audioRtcp, ip:port) *)

(** [RrspPlayerSetAudioTransport(player, transport)]. *)
Definition RrspPlayerSetAudioTransport (transport : cstring) : transport_action :=
  match strstr transport (L "server_port=") with
  | None => LogNoServer
  | Some i =>
      match strstr i (L "-") with
      | None => LogNoRtcp
      | Some j => ConnectAudioRtcp (atoi (skipn 1 j))
      end
  end.

(** What [RrspPlayerSetVideoTransport] does: both video sockets are
    connected. *)
Inductive video_transport_action :=
  | VideoLogNoServer
  | VideoLogNoRtcp
  | ConnectVideo (rtp_port rtcp_port : Z).

Definition RrspPlayerSetVideoTransport (transport : cstring) : video_transport_action :=
  match strstr transport (L "server_port=") with
  | None => VideoLogNoServer
  | Some i =>
      match strstr i (L "-") with
      | None => VideoLogNoRtcp
      | Some j => ConnectVideo (atoi (skipn 12 i)) (atoi (skipn 1 j))
      end
  end.

(** A line of a session description that [CreateSDP] passes over: it is
    no [m=], [a=rtpmap:] or [a=control:] line. *)
Definition other_line (l : cstring) : bool :=
  negb (has_char LF l)
  && negb (prefixb (L "m=") (l ++ CRLF))
  && negb (prefixb (L "a=rtpmap:") (l ++ CRLF))
  && negb (prefixb (L "a=control:") (l ++ CRLF)).

(** One [a=rtpmap:] attribute: payload type, the format and name of a
    [mimeTypes] entry, and what follows the ['/']. *)
Record rtpmap := mkRtpmap {
  rtp_payload : Z;
  rtp_format : Z;
  rtp_name : cstring;
  rtp_rate : cstring
}.

Definition rtpmap_line (e : rtpmap) : cstring :=
  L "a=rtpmap:" ++ fmt_d (rtp_payload e) ++ L " " ++ rtp_name e ++ L "/" ++ rtp_rate e.

Definition audio_line (port : Z) (proto : cstring) (pts : list Z) : cstring :=
  L "m=audio " ++ fmt_d port ++ L " " ++ proto ++ payload_list pts.

(** The format an [a=rtpmap:] attribute leaves in its slot. *)
Definition filled (e : rtpmap) : SDPFormat :=
  mkSDPFormat (rtp_payload e) (rtp_format e) None.

(** An attribute of a codec of the table other than [H263], on one line. *)
Definition known_rtpmap (e : rtpmap) : Prop :=
  0 <= rtp_payload e < 2 ^ 31
  /\ In (rtp_format e, rtp_name e) mimeTypes
  /\ rtp_name e <> L "H263"
  /\ has_char LF (rtp_rate e) = false.

(** The parser state while the audio section is read. *)
Definition audio_state (m : SDPMedia) (v : option SDPMedia) (n : nat) : SDPState :=
  mkSDPState (mkSDPContent (Some m) v) MediaAudio n.



(** A 401 answer to INVITE whose Digest challenge is for the realm
    "evil" and is followed by a challenge of another scheme that names
    the configured realm. *)
Definition sip_401_evil_then_bearer : cstring :=
  L "SIP/2.0 401 Unauthorized" ++ CRLF
  ++ L "CSeq: 1 INVITE" ++ CRLF
  ++ L "WWW-Authenticate: Digest realm=" ++ quoted (L "evil")
  ++ L ", nonce=" ++ quoted (L "abc")
  ++ L ", Bearer realm=" ++ quoted (L "streaming_server") ++ CRLF
  ++ L "Content-Length: 0" ++ CRLF
  ++ CRLF.





(* ===================================================================== *)
(** * Properties of the receiver report and of the port pairs *)
(* ===================================================================== *)

Lemma ntohs_htons_7 : forall host, ntohs host (htons host 7) = 7.
Proof. intros []; reflexivity. Qed.

Lemma u32_pos_nonzero : forall x, (0 <? u32 x) = true -> (u32 x =? 0) = false.
Proof.
  intros x H. apply Z.ltb_lt in H. apply Z.eqb_neq. lia.
Qed.

(** C9.  Every receiver report built by [MediaStatsRR] has version 2,
    padding 0, report count 1, packet type 201 and length 7 in network
    order, and its jitter field is the fixed value [htonl(0xFF)]; the
    function never divides by zero, and for statistics whose [maxSN]
    equals [minSN] the fraction-lost field is 0xFF. *)
Theorem MediaStatsRR_header_and_fraction :
  forall host cnt mn mx ts ssrc t rnd now,
    (exists rtcp,
        MediaStatsRR host (mkMediaStats cnt mn mx ts ssrc t) rnd now = Some rtcp
        /\ common_version (common rtcp) = 2
        /\ common_p (common rtcp) = 0
        /\ common_count (common rtcp) = 1
        /\ common_pt (common rtcp) = 201
        /\ ntohs host (common_length (common rtcp)) = 7
        /\ rr_jitter (r_rr_rr0 rtcp) = htonl host 255)
    /\ (exists rtcp,
        MediaStatsRR host (mkMediaStats cnt mn mn ts ssrc t) rnd now = Some rtcp
        /\ rr_fraction (r_rr_rr0 rtcp) = 255).
Proof.
  intros host cnt mn mx ts ssrc t rnd now. split.
  - unfold MediaStatsRR; simpl.
    destruct (0 <? u32 (mx - mn)) eqn:Hgt.
    + unfold udiv. rewrite (u32_pos_nonzero _ Hgt). simpl.
      eexists. split; [reflexivity|]. simpl.
      repeat split; auto using ntohs_htons_7.
    + simpl. eexists. split; [reflexivity|]. simpl.
      repeat split; auto using ntohs_htons_7.
  - unfold MediaStatsRR; simpl.
    replace (mn - mn) with 0 by lia.
    change (0 <? u32 0) with false. simpl.
    eexists. split; reflexivity.
Qed.

Section PortPairs.

Variable os_bind : nat -> Z -> Z.

Lemma GetUdpPorts_loop_exit :
  forall fuel k a b p q r,
    GetUdpPorts_loop os_bind fuel k a b p q = Some r ->
    Z.even (port_p r) = true /\ port_q r = port_p r + 1.
Proof.
  induction fuel as [|fuel IH]; intros k a b p q r H; simpl in H.
  - destruct (negb (Z.rem p 2 =? 0) || negb (p + 1 =? q)) eqn:E; [discriminate|].
    apply orb_false_elim in E. destruct E as [E1 E2].
    apply negb_false_iff in E1, E2.
    apply Z.eqb_eq in E1, E2. inversion H; subst; simpl.
    split; [|lia].
    apply Z.even_spec. apply Z.rem_divide in E1; [|lia].
    destruct E1 as [c Hc]. exists c. lia.
  - destruct (negb (Z.rem p 2 =? 0) || negb (p + 1 =? q)) eqn:E.
    + eapply IH; eauto.
    + apply orb_false_elim in E. destruct E as [E1 E2].
      apply negb_false_iff in E1, E2.
      apply Z.eqb_eq in E1, E2. inversion H; subst; simpl.
      split; [|lia].
      apply Z.even_spec. apply Z.rem_divide in E1; [|lia].
      destruct E1 as [c Hc]. exists c. lia.
Qed.

End PortPairs.

(** C10.  Whenever [GetUdpPorts] hands back a port pair, after any
    number of rounds of its reallocation loop, the RTP port is even and
    the RTCP port is the RTP port plus one. *)
Theorem GetUdpPorts_even_and_adjacent :
  forall (os_bind : nat -> Z -> Z) (fuel : nat) (r : UdpPorts),
    GetUdpPorts os_bind fuel = Some r ->
    Z.even (port_p r) = true /\ port_q r = port_p r + 1.
Proof.
  intros os_bind fuel r H. unfold GetUdpPorts in H.
  eapply GetUdpPorts_loop_exit; eauto.
Qed.

Lemma GetUdpPorts_even_and_adjacent_witness :
  GetUdpPorts os_with_collisions 0 = None
  /\ GetUdpPorts os_with_collisions 5 = Some (mkUdpPorts 2 3 40004 40005)
  /\ Z.even 40004 = true /\ 40005 = 40004 + 1.
Proof.
  split; [reflexivity|]. split; [reflexivity|].
  exact (GetUdpPorts_even_and_adjacent os_with_collisions 5
           (mkUdpPorts 2 3 40004 40005) eq_refl).
Defined.

(* ===================================================================== *)
(** * Runs in which the code departs from its description *)
(* ===================================================================== *)

(** C1.  [CheckAuthScheme] does not stop at the matching challenge: on a
    message with a Digest challenge followed by a Basic challenge in a
    later header, the query for Digest succeeds and hands back the
    parameters of the Basic challenge, not the two parameters
    (realm "cam", nonce "abc") of the Digest challenge; the same happens
    when both challenges share one header value. *)
Theorem CheckAuthScheme_returns_later_challenge :
  option_map (fun r => (return_code r, returned_params r))
             (defined (CheckAuthScheme challenge_digest_then_basic (L "Digest")))
  = Some (0, Some [(L "realm", L "other")])
  /\ option_map (fun r => (return_code r, returned_params r))
                (defined (CheckAuthScheme challenge_digest_comma_basic (L "Digest")))
     = Some (0, Some [(L "realm", L "other")])
  /\ option_map (fun d => (fst d, rx_realm (snd d), nonce (snd d)))
                (GetAuthSchemeDigest challenge_digest_then_basic)
     = Some (0, L "other", []).
Proof. repeat split; vm_compute; reflexivity. Qed.

(** C8.  One [a=rtpmap:34 H263/90000] line fills two format slots: the
    name is compared over its own length only, so it agrees with both
    table entries "H263" and "H263-2000", and the table loop goes on
    after a match.  The second declared format (payload 96) never gets
    its codec: the H264 line finds every slot taken. *)
Theorem rtpmap_H263_fills_two_slots :
  CreateSDP sdp_h263_h264 0
  = Some (mkSDPContent None
            (Some (mkSDPMedia
                     [ mkSDPFormat 34 AST_FORMAT_H263 None;
                       mkSDPFormat 34 AST_FORMAT_H263P None ]
                     2 (Z.lor AST_FORMAT_H263 AST_FORMAT_H263P) 0))).
Proof. vm_compute. reflexivity. Qed.

(** C7.  On a 200 answer to an INVITE that offered PCMU, an answer whose
    single audio format is PCMA is logged as a mismatched codec, and
    transmission is enabled all the same: [enable_sip_tx] becomes 1 and
    the audio RTP socket is connected to the answered port 5004. *)
Theorem sip_invite_200_mismatch_enables_tx :
  option_map
    (fun r => (enable_sip_tx (snd (fst r)),
               in_a_dialog (fst (fst r)),
               peer_tag (fst (fst r)),
               filter (fun e => negb (is_send e)) (trace (snd r))))
    (sip_invite_response (H := rfc_asterisk) speaker0 (L "cam") (L "pw") (L "realm")
       5060 AST_FORMAT_ULAW answer_pcma (mkSipLocals 0 0 None) world0)
  = Some (1, 1, L "9f3a",
          [ EvLog (L "SIP: Peer Answers with mismatched codec");
            EvConnectAudioRtp 5004 ]).
Proof. vm_compute. reflexivity. Qed.

(* ===================================================================== *)
(** * Properties of the message parser *)
(* ===================================================================== *)

#[local] Arguments Ascii.eqb : simpl never.

Section ParserLemmas.

Local Open Scope nat_scope.

Lemma starts_wsp_app : forall a b,
    a <> [] -> starts_wsp (a ++ b) = starts_wsp a.
Proof. intros [|c a] b H; [congruence|reflexivity]. Qed.

Lemma prefixb_CRLF_cons : forall c d s,
    prefixb CRLF (c :: d :: s) = Ascii.eqb CR c && Ascii.eqb LF d.
Proof.
  intros. unfold CRLF. cbn [prefixb]. rewrite andb_true_r. reflexivity.
Qed.

Lemma prefixb_CRLF_one : forall c, prefixb CRLF [c] = false.
Proof. intros. unfold CRLF. cbn [prefixb]. apply andb_false_r. Qed.

Lemma prefixb_CRLF_CR : forall c s, prefixb CRLF (c :: CR :: s) = false.
Proof.
  intros. rewrite prefixb_CRLF_cons.
  replace (Ascii.eqb LF CR) with false by reflexivity. apply andb_false_r.
Qed.

Lemma find_line_end_cons : forall c t,
    find_line_end (c :: t)
    = if prefixb CRLF (c :: t) then
        match t with
        | _ :: after =>
            if starts_wsp after
            then option_map (Nat.add 2) (find_line_end after)
            else Some 0
        | [] => None
        end
      else option_map S (find_line_end t).
Proof. reflexivity. Qed.

Lemma logical_line_cons : forall c t,
    logical_line (c :: t)
    = if prefixb CRLF (c :: t) then
        match t with
        | _ :: after => starts_wsp after && logical_line after
        | [] => false
        end
      else logical_line t.
Proof. reflexivity. Qed.

Lemma find_line_end_at_end : forall rest,
    starts_wsp rest = false -> find_line_end (CRLF ++ rest) = Some 0.
Proof.
  intros rest Hr. unfold CRLF. cbn [app]. rewrite find_line_end_cons.
  replace (prefixb [CR; LF] (CR :: LF :: rest)) with true by reflexivity.
  rewrite Hr. reflexivity.
Qed.

(** The scan stops at the CRLF that ends a logical line. *)
Lemma find_line_end_logical : forall k l rest,
    length l <= k ->
    logical_line l = true ->
    starts_wsp rest = false ->
    find_line_end (l ++ CRLF ++ rest) = Some (length l).
Proof.
  induction k as [|k IH]; intros l rest Hk Hl Hr.
  - destruct l; [|simpl in Hk; lia].
    apply find_line_end_at_end; assumption.
  - destruct l as [|c [|d t]].
    + apply find_line_end_at_end; assumption.
    + (* one character *)
      change (([c] ++ CRLF ++ rest)) with (c :: CR :: LF :: rest).
      rewrite find_line_end_cons, prefixb_CRLF_CR.
      change (CR :: LF :: rest) with (CRLF ++ rest).
      rewrite find_line_end_at_end by assumption. reflexivity.
    + (* at least two characters *)
      change ((c :: d :: t) ++ CRLF ++ rest)
        with (c :: d :: (t ++ CRLF ++ rest)).
      rewrite find_line_end_cons.
      assert (Hp : prefixb CRLF (c :: d :: t ++ CRLF ++ rest)
                   = prefixb CRLF (c :: d :: t)).
      { rewrite !prefixb_CRLF_cons. reflexivity. }
      rewrite Hp.
      rewrite logical_line_cons in Hl.
      destruct (prefixb CRLF (c :: d :: t)) eqn:E.
      * apply andb_true_iff in Hl. destruct Hl as [Hw Hl].
        assert (Ht : t <> []) by (destruct t; [discriminate|congruence]).
        rewrite (starts_wsp_app t _ Ht), Hw.
        rewrite (IH t rest) by (try assumption; simpl in Hk; lia).
        simpl. reflexivity.
      * change (d :: t ++ CRLF ++ rest) with ((d :: t) ++ CRLF ++ rest).
        rewrite (IH (d :: t) rest) by (try assumption; simpl in Hk |- *; lia).
        reflexivity.
Qed.

Lemma firstn_length_app : forall (l r : cstring), firstn (length l) (l ++ r) = l.
Proof.
  intros l r. rewrite firstn_app, Nat.sub_diag, firstn_all. simpl.
  apply app_nil_r.
Qed.

Lemma skipn_length_app2 : forall (l r : cstring),
    skipn (length l + 2) (l ++ CRLF ++ r) = r.
Proof.
  intros l r. rewrite skipn_app.
  rewrite skipn_all2 by lia.
  replace (length l + 2 - length l) with 2 by lia. reflexivity.
Qed.

Lemma header_line_split : forall l,
    header_line l = true -> split_header l = Some (header_of l).
Proof.
  intros l H. unfold header_line in H.
  repeat (apply andb_true_iff in H; destruct H as [H ?]).
  unfold header_of, has_colon in *. unfold split_header in *.
  destruct (strchr l ":"); [reflexivity|discriminate].
Qed.

(** One round of the loop on a line that is taken. *)
Lemma parse_headers_loop_line : forall room l rest hs h,
    l <> [] ->
    logical_line l = true ->
    length l < MAX_HEADER_LINE ->
    split_header l = Some h ->
    starts_wsp rest = false ->
    parse_headers_loop (S room) (l ++ CRLF ++ rest) hs
    = parse_headers_loop room rest (hs ++ [h]).
Proof.
  intros room l rest hs h Hne Hl Hlen Hs Hr.
  destruct l as [|c l']; [congruence|].
  cbn [parse_headers_loop app].
  change (c :: l' ++ CRLF ++ rest) with ((c :: l') ++ CRLF ++ rest).
  rewrite (find_line_end_logical (length (c :: l')) (c :: l') rest); auto.
  replace (length (c :: l') =? 0) with false by reflexivity.
  replace (MAX_HEADER_LINE <=? length (c :: l')) with false
    by (symmetry; apply Nat.leb_gt; exact Hlen).
  rewrite firstn_length_app, Hs, skipn_length_app2. reflexivity.
Qed.

Lemma parse_headers_loop_step : forall room l rest hs,
    header_line l = true ->
    starts_wsp rest = false ->
    parse_headers_loop (S room) (l ++ CRLF ++ rest) hs
    = parse_headers_loop room rest (hs ++ [header_of l]).
Proof.
  intros room l rest hs H Hr.
  pose proof (header_line_split l H) as Hs.
  unfold header_line in H.
  repeat (apply andb_true_iff in H; destruct H as [H ?]).
  apply negb_true_iff in H. apply Nat.eqb_neq in H.
  apply parse_headers_loop_line; auto.
  - intros ->. simpl in H. lia.
  - apply Nat.ltb_lt. assumption.
Qed.

(** The empty line ends the headers. *)
Lemma parse_headers_loop_end : forall room hs,
    parse_headers_loop room CRLF hs = (0%Z, hs).
Proof. intros [|room] hs; reflexivity. Qed.

Lemma header_line_not_wsp : forall l r,
    header_line l = true -> starts_wsp (l ++ r) = false.
Proof.
  intros l r H. unfold header_line in H.
  repeat (apply andb_true_iff in H; destruct H as [H ?]).
  apply negb_true_iff in H. apply Nat.eqb_neq in H.
  destruct l; [simpl in H; lia|].
  simpl. match goal with H : negb _ = true |- _ => apply negb_true_iff in H; exact H end.
Qed.

Lemma lines_cons : forall l ls, lines (l :: ls) = l ++ CRLF ++ lines ls.
Proof. intros. unfold lines. simpl. rewrite <- app_assoc. reflexivity. Qed.

Lemma starts_wsp_lines : forall ls rest,
    Forall (fun l => header_line l = true) ls ->
    starts_wsp rest = false ->
    starts_wsp (lines ls ++ rest) = false.
Proof.
  intros [|l ls] rest H Hr; [exact Hr|].
  inversion H; subst. rewrite lines_cons.
  rewrite <- !app_assoc. apply header_line_not_wsp; assumption.
Qed.

(** The loop takes the accepted lines one by one while there is room,
    and stops without a failure when the room is used up. *)
Lemma parse_headers_loop_lines : forall ls room rest hs,
    Forall (fun l => header_line l = true) ls ->
    starts_wsp rest = false ->
    parse_headers_loop room (lines ls ++ rest) hs
    = if length ls <=? room
      then parse_headers_loop (room - length ls) rest (hs ++ map header_of ls)
      else (0%Z, hs ++ map header_of (firstn room ls)).
Proof.
  induction ls as [|l ls IH]; intros room rest hs H Hr.
  - simpl. rewrite Nat.sub_0_r, app_nil_r. reflexivity.
  - inversion H; subst.
    destruct room as [|room].
    + simpl. rewrite app_nil_r. reflexivity.
    + rewrite lines_cons, <- !app_assoc.
      rewrite parse_headers_loop_step; auto using starts_wsp_lines.
      rewrite IH; auto.
      cbn [length map firstn Nat.leb Nat.sub].
      rewrite <- !app_assoc. reflexivity.
Qed.

(** A line that reaches the cap, or has no colon, is a failure. *)
Lemma parse_headers_loop_bad : forall room bad rest hs,
    bad <> [] ->
    logical_line bad = true ->
    starts_wsp rest = false ->
    MAX_HEADER_LINE <= length bad \/ has_colon bad = false ->
    fst (parse_headers_loop (S room) (bad ++ CRLF ++ rest) hs) = (-1)%Z.
Proof.
  intros room bad rest hs Hne Hl Hr Hbad.
  destruct bad as [|c bad']; [congruence|].
  cbn [parse_headers_loop app].
  change (c :: bad' ++ CRLF ++ rest) with ((c :: bad') ++ CRLF ++ rest).
  rewrite (find_line_end_logical (length (c :: bad')) (c :: bad') rest); auto.
  replace (length (c :: bad') =? 0) with false by reflexivity.
  destruct (MAX_HEADER_LINE <=? length (c :: bad')) eqn:E; [reflexivity|].
  apply Nat.leb_gt in E.
  destruct Hbad as [Hlong|Hcolon]; [lia|].
  rewrite firstn_length_app. unfold split_header.
  unfold has_colon in Hcolon.
  destruct (strchr (c :: bad') ":"); [discriminate|reflexivity].
Qed.

End ParserLemmas.

(** C5, as the code has it.  A header line that reaches the line cap
    (its continuation lines included) or has no colon makes
    [parse_headers] fail with -1 when fewer than [MAX_HEADERS] accepted
    lines come before it.  A block of [MAX_HEADERS] or more accepted
    lines is not a failure: the parser stops after [MAX_HEADERS] headers
    and returns 0 with these. *)
Theorem parse_headers_failure_and_cap :
  forall (good : list cstring) (bad rest : cstring)
         (many : list cstring) (rest' : cstring),
    Forall (fun l => header_line l = true) good ->
    (length good < MAX_HEADERS)%nat ->
    bad <> [] ->
    starts_wsp bad = false ->
    logical_line bad = true ->
    starts_wsp rest = false ->
    (MAX_HEADER_LINE <= length bad)%nat \/ has_colon bad = false ->
    Forall (fun l => header_line l = true) many ->
    (MAX_HEADERS <= length many)%nat ->
    starts_wsp rest' = false ->
    fst (parse_headers (lines good ++ bad ++ CRLF ++ rest)) = (-1)%Z
    /\ parse_headers (lines many ++ rest')
       = (0%Z, map header_of (firstn MAX_HEADERS many)).
Proof.
  intros good bad rest many rest' Hg Hlen Hne Hbw Hbl Hr Hbad Hm Hmany Hr'.
  unfold parse_headers. split.
  - rewrite parse_headers_loop_lines; auto.
    + replace (length good <=? MAX_HEADERS)%nat with true
        by (symmetry; apply Nat.leb_le; lia).
      destruct (MAX_HEADERS - length good)%nat as [|room] eqn:E; [lia|].
      apply parse_headers_loop_bad; auto.
    + destruct bad; [congruence|exact Hbw].
  - rewrite parse_headers_loop_lines; auto.
    destruct (length many <=? MAX_HEADERS)%nat eqn:E.
    + apply Nat.leb_le in E.
      assert (length many = MAX_HEADERS) by lia.
      replace (MAX_HEADERS - length many)%nat with 0%nat by lia.
      rewrite firstn_all2 by lia. reflexivity.
    + reflexivity.
Qed.

Lemma parse_headers_failure_and_cap_witness :
  fst (parse_headers (lines [L "CSeq: 1"] ++ L "no colon here" ++ CRLF ++ CRLF))
  = (-1)%Z
  /\ parse_headers (lines (repeat (L "a:b") 101) ++ CRLF)
     = (0%Z, map header_of (firstn MAX_HEADERS (repeat (L "a:b") 101))).
Proof.
  apply (parse_headers_failure_and_cap [L "CSeq: 1"] (L "no colon here") CRLF
           (repeat (L "a:b") 101) CRLF).
  - repeat constructor.
  - vm_compute; lia.
  - discriminate.
  - reflexivity.
  - reflexivity.
  - reflexivity.
  - right; reflexivity.
  - apply Forall_forall. intros x Hx. apply repeat_spec in Hx. subst. reflexivity.
  - vm_compute; lia.
  - reflexivity.
Defined.

(** C5, as stated, fails: 101 accepted header lines are more than
    [MAX_HEADERS], and [parse_headers] returns 0 with the first 100. *)
Lemma parse_headers_silent_truncation :
  fst (parse_headers headers_101) = 0%Z
  /\ length (snd (parse_headers headers_101)) = 100%nat.
Proof. split; vm_compute; reflexivity. Qed.

(* ===================================================================== *)
(** * Folded header values *)
(* ===================================================================== *)

#[local] Arguments isspace : simpl never.
#[local] Arguments is_wsp : simpl never.

Section Folding.

Local Open Scope nat_scope.

(** ** Characters *)

Lemma eqb_isspace : forall c d,
    Ascii.eqb c d = true -> isspace d = true -> isspace c = true.
Proof. intros c d H. apply Ascii.eqb_eq in H. subst. auto. Qed.

Lemma nonspace_not_CR : forall c, isspace c = false -> Ascii.eqb CR c = false.
Proof.
  intros c H. destruct (Ascii.eqb CR c) eqn:E; [|reflexivity].
  apply Ascii.eqb_eq in E. subst. discriminate.
Qed.

Lemma nonspace_not_LF : forall c, isspace c = false -> Ascii.eqb LF c = false.
Proof.
  intros c H. destruct (Ascii.eqb LF c) eqn:E; [|reflexivity].
  apply Ascii.eqb_eq in E. subst. discriminate.
Qed.

Lemma wsp_cases : forall c, is_wsp c = true -> c = SP \/ c = HT.
Proof.
  intros c H. unfold is_wsp in H. apply orb_true_iff in H.
  destruct H as [H|H]; apply Ascii.eqb_eq in H; auto.
Qed.

Lemma wsp_isspace : forall c, is_wsp c = true -> isspace c = true.
Proof. intros c H. destruct (wsp_cases c H); subst; reflexivity. Qed.

Lemma wsp_not_CR : forall c, is_wsp c = true -> Ascii.eqb CR c = false.
Proof. intros c H. destruct (wsp_cases c H); subst; reflexivity. Qed.

Lemma wsp_not_LF : forall c, is_wsp c = true -> Ascii.eqb LF c = false.
Proof. intros c H. destruct (wsp_cases c H); subst; reflexivity. Qed.

Lemma nonspace_not_wsp : forall c, isspace c = false -> is_wsp c = false.
Proof.
  intros c H. destruct (is_wsp c) eqn:E; [|reflexivity].
  apply wsp_isspace in E. congruence.
Qed.

Lemma starts_space_wsp : forall s, starts_space s = false -> starts_wsp s = false.
Proof. intros [|c s] H; [reflexivity|]. apply nonspace_not_wsp. exact H. Qed.

Lemma starts_space_lf : forall s, starts_space s = false -> starts_lf s = false.
Proof. intros [|c s] H; [reflexivity|]. apply nonspace_not_LF. exact H. Qed.

Lemma prefixb_CRLF_alt : forall c s,
    prefixb CRLF (c :: s) = Ascii.eqb CR c && starts_lf s.
Proof.
  intros c [|d s].
  - rewrite prefixb_CRLF_one. symmetry. apply andb_false_r.
  - apply prefixb_CRLF_cons.
Qed.

(** ** Unfolding *)

Lemma unfold_cons : forall c t,
    unfold (c :: t)
    = if prefixb CRLF (c :: t) then
        match t with
        | _ :: after => if starts_wsp after then unfold after else c :: unfold t
        | [] => c :: unfold t
        end
      else c :: unfold t.
Proof. reflexivity. Qed.

Lemma unfold_cons_keep : forall c t,
    Ascii.eqb CR c = false -> unfold (c :: t) = c :: unfold t.
Proof.
  intros c t H. rewrite unfold_cons, prefixb_CRLF_alt, H. reflexivity.
Qed.

Lemma unfold_single : forall c, unfold [c] = [c].
Proof. intros. rewrite unfold_cons, prefixb_CRLF_one. reflexivity. Qed.

Lemma unfold_length : forall k s, length s <= k -> length (unfold s) <= length s.
Proof.
  induction k as [|k IH]; intros s Hk.
  - destruct s; [simpl; lia|simpl in Hk; lia].
  - destruct s as [|c t]; [simpl; lia|].
    simpl in Hk. rewrite unfold_cons.
    destruct (prefixb CRLF (c :: t)).
    + destruct t as [|d after].
      * simpl. lia.
      * destruct (starts_wsp after).
        -- simpl in Hk. specialize (IH after). simpl. lia.
        -- specialize (IH (d :: after)). simpl in *. lia.
    + specialize (IH t). simpl. lia.
Qed.

Lemma unfold_starts_lf : forall s, starts_lf (unfold s) = true -> starts_lf s = true.
Proof.
  intros [|c t] H; [exact H|].
  rewrite unfold_cons in H.
  destruct (prefixb CRLF (c :: t)) eqn:E; [|exact H].
  destruct t as [|d after]; [exact H|].
  destruct (starts_wsp after) eqn:W; [|exact H].
  destruct after as [|w r]; [discriminate|].
  simpl in W. rewrite unfold_cons_keep in H by (apply wsp_not_CR; exact W).
  simpl in H. rewrite wsp_not_LF in H by exact W. discriminate.
Qed.

(** Unfolding a logical line leaves a logical line. *)
Lemma logical_line_unfold : forall k s,
    length s <= k -> logical_line s = true -> logical_line (unfold s) = true.
Proof.
  induction k as [|k IH]; intros s Hk Hl.
  - destruct s; [reflexivity|simpl in Hk; lia].
  - destruct s as [|c t]; [reflexivity|].
    simpl in Hk. rewrite logical_line_cons in Hl. rewrite unfold_cons.
    destruct (prefixb CRLF (c :: t)) eqn:E.
    + destruct t as [|d after]; [discriminate|].
      apply andb_true_iff in Hl. destruct Hl as [W Hl]. rewrite W.
      apply IH; [simpl in Hk; lia|exact Hl].
    + rewrite logical_line_cons.
      assert (E' : prefixb CRLF (c :: unfold t) = false).
      { rewrite prefixb_CRLF_alt in E |- *.
        destruct (Ascii.eqb CR c); [|reflexivity]. simpl in E |- *.
        destruct (starts_lf (unfold t)) eqn:F; [|reflexivity].
        apply unfold_starts_lf in F. congruence. }
      rewrite E'. apply IH; [lia|exact Hl].
Qed.

(** Unfolding distributes over a cut in front of a character that is
    not white space. *)
Lemma unfold_app_before_nonspace : forall k a b,
    length a <= k ->
    starts_space b = false ->
    unfold (a ++ b) = unfold a ++ unfold b.
Proof.
  induction k as [|k IH]; intros a b Hk Hb.
  - destruct a; [reflexivity|simpl in Hk; lia].
  - destruct a as [|c t]; [reflexivity|].
    simpl in Hk. cbn [app]. rewrite !unfold_cons.
    assert (Hp : prefixb CRLF (c :: t ++ b) = prefixb CRLF (c :: t)).
    { rewrite !prefixb_CRLF_alt. destruct t; [|reflexivity].
      simpl. rewrite (starts_space_lf b Hb). reflexivity. }
    rewrite Hp. destruct (prefixb CRLF (c :: t)) eqn:E.
    + destruct t as [|d after].
      * rewrite prefixb_CRLF_one in E. discriminate.
      * cbn [app]. destruct after as [|w r].
        -- cbn [app]. rewrite (starts_space_wsp b Hb). simpl starts_wsp.
           cbn [app]. f_equal.
           apply (IH [d] b); [simpl in *; lia|exact Hb].
        -- cbn [app starts_wsp]. destruct (is_wsp w).
           ++ apply (IH (w :: r) b); [simpl in *; lia|exact Hb].
           ++ cbn [app]. f_equal.
              apply (IH (d :: w :: r) b); [simpl in *; lia|exact Hb].
    + cbn [app]. f_equal. apply IH; [lia|exact Hb].
Qed.

(** Unfolding distributes over a cut behind a character that is not
    white space. *)
Lemma unfold_app_after_nonspace : forall k a c b,
    length a <= k ->
    isspace c = false ->
    unfold ((a ++ [c]) ++ b) = unfold (a ++ [c]) ++ unfold b.
Proof.
  induction k as [|k IH]; intros a c b Hk Hc.
  - destruct a; [|simpl in Hk; lia].
    cbn [app]. rewrite unfold_cons_keep by (apply nonspace_not_CR; exact Hc).
    rewrite unfold_single. reflexivity.
  - destruct a as [|x t].
    + cbn [app]. rewrite unfold_cons_keep by (apply nonspace_not_CR; exact Hc).
      rewrite unfold_single. reflexivity.
    + simpl in Hk. cbn [app]. rewrite !unfold_cons.
      assert (Hp : prefixb CRLF (x :: (t ++ [c]) ++ b) = prefixb CRLF (x :: t ++ [c])).
      { rewrite !prefixb_CRLF_alt. destruct t; reflexivity. }
      rewrite Hp. destruct (prefixb CRLF (x :: t ++ [c])) eqn:E.
      * destruct t as [|d t'].
        -- cbn [app] in E. rewrite prefixb_CRLF_cons in E.
           rewrite (nonspace_not_LF c Hc) in E.
           rewrite andb_false_r in E. discriminate.
        -- cbn [app].
           assert (Hw : starts_wsp ((t' ++ [c]) ++ b) = starts_wsp (t' ++ [c])).
           { destruct t'; reflexivity. }
           rewrite Hw. destruct (starts_wsp (t' ++ [c])).
           ++ apply IH; [simpl in Hk; lia|exact Hc].
           ++ cbn [app]. f_equal.
              apply (IH (d :: t') c b); [simpl in *; lia|exact Hc].
      * cbn [app]. f_equal. apply IH; [lia|exact Hc].
Qed.

Lemma unfold_all_space : forall k s,
    length s <= k -> all_space s = true -> all_space (unfold s) = true.
Proof.
  induction k as [|k IH]; intros s Hk Hs.
  - destruct s; [reflexivity|simpl in Hk; lia].
  - destruct s as [|c t]; [reflexivity|].
    simpl in Hk. unfold all_space in Hs. cbn [forallb] in Hs.
    apply andb_true_iff in Hs. destruct Hs as [Hc Ht].
    rewrite unfold_cons.
    assert (Hkeep : all_space (c :: unfold t) = true).
    { unfold all_space. cbn [forallb]. rewrite Hc.
      apply (IH t); [lia|exact Ht]. }
    destruct (prefixb CRLF (c :: t)); [|exact Hkeep].
    destruct t as [|d after]; [exact Hkeep|].
    destruct (starts_wsp after); [|exact Hkeep].
    cbn [forallb] in Ht. apply andb_true_iff in Ht. destruct Ht as [_ Ha].
    apply IH; [simpl in Hk; lia|exact Ha].
Qed.

(** ** Trimming *)

Lemma take_skip_while : forall f s, take_while f s ++ skip_while f s = s.
Proof.
  induction s as [|c s IH]; [reflexivity|].
  simpl. destruct (f c); [simpl; rewrite IH|]; reflexivity.
Qed.

Lemma take_while_all_space : forall s, all_space (take_while isspace s) = true.
Proof.
  induction s as [|c s IH]; [reflexivity|].
  simpl. destruct (isspace c) eqn:E; [|reflexivity].
  unfold all_space. cbn [forallb]. rewrite E. exact IH.
Qed.

Lemma skip_while_starts : forall s, starts_space (skip_while isspace s) = false.
Proof.
  induction s as [|c s IH]; [reflexivity|].
  simpl. destruct (isspace c) eqn:E; [exact IH|]. simpl. exact E.
Qed.

Lemma take_while_app : forall a b,
    all_space a = true -> starts_space b = false ->
    take_while isspace (a ++ b) = a.
Proof.
  induction a as [|c a IH]; intros b Ha Hb.
  - destruct b as [|d b]; [reflexivity|]. simpl in *. rewrite Hb. reflexivity.
  - unfold all_space in Ha. cbn [forallb] in Ha.
    apply andb_true_iff in Ha. destruct Ha as [Hc Ha].
    simpl. rewrite Hc. f_equal. apply IH; assumption.
Qed.

Lemma skip_while_app : forall a b,
    all_space a = true -> starts_space b = false ->
    skip_while isspace (a ++ b) = b.
Proof.
  induction a as [|c a IH]; intros b Ha Hb.
  - destruct b as [|d b]; [reflexivity|]. simpl in *. rewrite Hb. reflexivity.
  - unfold all_space in Ha. cbn [forallb] in Ha.
    apply andb_true_iff in Ha. destruct Ha as [Hc Ha].
    simpl. rewrite Hc. apply IH; assumption.
Qed.

Lemma unfold_starts_space : forall s,
    starts_space s = false -> starts_space (unfold s) = false.
Proof.
  intros [|c t] H; [reflexivity|].
  simpl in H. rewrite unfold_cons_keep by (apply nonspace_not_CR; exact H).
  exact H.
Qed.

(** The text without its trailing white space, and that white space. *)
Lemma drop_trailing_split : forall s,
    exists w,
      s = drop_trailing isspace s ++ w
      /\ all_space w = true
      /\ (drop_trailing isspace s = []
          \/ exists x c, drop_trailing isspace s = x ++ [c] /\ isspace c = false).
Proof.
  intros s. unfold drop_trailing.
  exists (rev (take_while isspace (rev s))). split; [|split].
  - rewrite <- rev_app_distr, take_skip_while, rev_involutive. reflexivity.
  - unfold all_space. rewrite forallb_forall. intros c Hc.
    apply in_rev in Hc.
    pose proof (take_while_all_space (rev s)) as H.
    unfold all_space in H. rewrite forallb_forall in H. auto.
  - pose proof (skip_while_starts (rev s)) as H.
    destruct (skip_while isspace (rev s)) as [|c r]; [left; reflexivity|].
    right. exists (rev r), c. split; [reflexivity|exact H].
Qed.

Lemma skip_while_all : forall s, all_space s = true -> skip_while isspace s = [].
Proof.
  induction s as [|c s IH]; intros H; [reflexivity|].
  unfold all_space in H. cbn [forallb] in H.
  apply andb_true_iff in H. destruct H as [Hc Hs].
  simpl. rewrite Hc. auto.
Qed.

Lemma all_space_rev : forall s, all_space s = true -> all_space (rev s) = true.
Proof.
  intros s H. unfold all_space in *. rewrite forallb_forall in *.
  intros c Hc. apply H. apply in_rev. exact Hc.
Qed.

Lemma drop_trailing_app : forall x c w,
    isspace c = false -> all_space w = true ->
    drop_trailing isspace ((x ++ [c]) ++ w) = x ++ [c].
Proof.
  intros x c w Hc Hw. unfold drop_trailing.
  rewrite rev_app_distr.
  rewrite skip_while_app.
  - apply rev_involutive.
  - apply all_space_rev. exact Hw.
  - rewrite rev_app_distr. simpl. exact Hc.
Qed.

Lemma drop_trailing_all : forall w,
    all_space w = true -> drop_trailing isspace w = [].
Proof.
  intros w Hw. unfold drop_trailing.
  rewrite skip_while_all by (apply all_space_rev; exact Hw). reflexivity.
Qed.

Lemma unfold_drop_trailing : forall s,
    unfold (drop_trailing isspace s) = drop_trailing isspace (unfold s).
Proof.
  intros s. destruct (drop_trailing_split s) as [w [Hs [Hw Hx]]].
  destruct Hx as [Hx|[x [c [Hx Hc]]]].
  - rewrite Hx in *. simpl in Hs. subst w.
    rewrite drop_trailing_all; [reflexivity|].
    apply (unfold_all_space (length s)); [lia|exact Hw].
  - rewrite Hx in *. rewrite Hs.
    rewrite (unfold_app_after_nonspace (length x)) by (lia || exact Hc).
    rewrite (unfold_app_before_nonspace (length x) x [c]) by (lia || (simpl; exact Hc)).
    rewrite unfold_single.
    rewrite drop_trailing_app; [reflexivity|exact Hc|].
    apply (unfold_all_space (length w)); [lia|exact Hw].
Qed.

Lemma unfold_cut_trailing_space : forall s,
    starts_space s = false ->
    unfold (cut_trailing_space s) = cut_trailing_space (unfold s).
Proof.
  intros [|c t] H; [reflexivity|].
  simpl in H. unfold cut_trailing_space.
  rewrite !unfold_cons_keep by (apply nonspace_not_CR; exact H).
  f_equal. apply unfold_drop_trailing.
Qed.

(** Trimming and unfolding commute. *)
Lemma unfold_trim_whitespace : forall v,
    unfold (trim_whitespace v) = trim_whitespace (unfold v).
Proof.
  intros v. unfold trim_whitespace.
  pose proof (take_while_all_space v) as Ha.
  pose proof (skip_while_starts v) as Hb.
  assert (Hu : unfold v = unfold (take_while isspace v) ++ unfold (skip_while isspace v)).
  { rewrite <- (take_skip_while isspace v) at 1.
    apply (unfold_app_before_nonspace (length (take_while isspace v))); [lia|exact Hb]. }
  assert (Ha' : all_space (unfold (take_while isspace v)) = true).
  { apply (unfold_all_space (length (take_while isspace v))); [lia|exact Ha]. }
  assert (Hb' : starts_space (unfold (skip_while isspace v)) = false).
  { apply unfold_starts_space. exact Hb. }
  rewrite Hu.
  rewrite take_while_app, skip_while_app by assumption.
  rewrite <- unfold_cut_trailing_space by exact Hb.
  apply (unfold_app_before_nonspace (length (take_while isspace v))); [lia|].
  destruct (skip_while isspace v) as [|c t]; [reflexivity|exact Hb].
Qed.

Lemma logical_line_app_no_cr : forall name s,
    no_cr name = true -> logical_line (name ++ s) = logical_line s.
Proof.
  induction name as [|c name IH]; intros s H; [reflexivity|].
  unfold no_cr in H. cbn [forallb] in H.
  apply andb_true_iff in H. destruct H as [Hc Hn].
  apply negb_true_iff in Hc. rewrite Ascii.eqb_sym in Hc.
  cbn [app]. rewrite logical_line_cons, prefixb_CRLF_alt, Hc. simpl.
  apply IH. exact Hn.
Qed.

Lemma strchr_app_colon : forall name x,
    has_colon name = false -> strchr (name ++ ":"%char :: x) ":" = Some (length name).
Proof.
  induction name as [|c name IH]; intros x H; [reflexivity|].
  unfold has_colon in H. cbn [strchr] in H. cbn [app strchr].
  destruct (Ascii.eqb c ":"); [discriminate|].
  rewrite IH; [reflexivity|].
  unfold has_colon. destruct (strchr name ":"); [discriminate|reflexivity].
Qed.

(** A block with the single header line [name:v]. *)
Lemma parse_headers_single : forall name v,
    has_colon name = false ->
    no_cr name = true ->
    logical_line v = true ->
    length (name ++ ":"%char :: v) < MAX_HEADER_LINE ->
    parse_headers ((name ++ ":"%char :: v) ++ CRLF ++ CRLF)
    = (0%Z, [mkHeader (trim_whitespace name) (trim_whitespace v)]).
Proof.
  intros name v Hc Hn Hl Hlen. unfold parse_headers.
  change MAX_HEADERS with (S 99).
  rewrite (parse_headers_loop_line 99 _ CRLF []
             (mkHeader (trim_whitespace name) (trim_whitespace v))).
  - apply parse_headers_loop_end.
  - destruct name; discriminate.
  - rewrite logical_line_app_no_cr by exact Hn.
    rewrite logical_line_cons. rewrite prefixb_CRLF_alt.
    replace (Ascii.eqb CR ":") with false by reflexivity. exact Hl.
  - exact Hlen.
  - unfold split_header. rewrite strchr_app_colon by exact Hc.
    rewrite firstn_length_app.
    replace (skipn (S (length name)) (name ++ ":"%char :: v)) with v.
    + rewrite length_app in Hlen. simpl in Hlen.
      rewrite !firstn_all2 by (unfold MAX_FIELD_NAME, MAX_FIELD_VALUE, MAX_HEADER_LINE in *; lia).
      reflexivity.
    + rewrite skipn_app, skipn_all2 by lia.
      replace (S (length name) - length name) with 1 by lia. reflexivity.
  - reflexivity.
Qed.

End Folding.

(** C6, as the code has it.  A header whose value is folded over several
    physical lines is parsed into one header with the same field name as
    its unfolded form, but its field value is the raw text of the folded
    lines: the CRLF of every fold stays in the value.  The value of the
    unfolded message is what unfolding makes of the value of the folded
    message. *)
Theorem folded_value_keeps_raw_span :
  forall name v : cstring,
    has_colon name = false ->
    no_cr name = true ->
    logical_line v = true ->
    (length (name ++ ":"%char :: v) < MAX_HEADER_LINE)%nat ->
    parse_headers ((name ++ ":"%char :: v) ++ CRLF ++ CRLF)
    = (0%Z, [mkHeader (trim_whitespace name) (trim_whitespace v)])
    /\ parse_headers ((name ++ ":"%char :: unfold v) ++ CRLF ++ CRLF)
       = (0%Z, [mkHeader (trim_whitespace name) (unfold (trim_whitespace v))]).
Proof.
  intros name v Hc Hn Hl Hlen. split.
  - apply parse_headers_single; assumption.
  - rewrite unfold_trim_whitespace.
    apply parse_headers_single; try assumption.
    + apply (logical_line_unfold (length v)); [lia|exact Hl].
    + pose proof (unfold_length (length v) v (Nat.le_refl _)) as Hu.
      rewrite length_app in *. simpl in *. lia.
Qed.

Lemma folded_value_keeps_raw_span_witness :
  parse_headers folded_header
  = (0%Z, [mkHeader (L "Subject") (L " first" ++ CRLF ++ L " second")])
  /\ parse_headers unfolded_header
     = (0%Z, [mkHeader (L "Subject") (unfold (L " first" ++ CRLF ++ L " second"))]).
Proof.
  apply (folded_value_keeps_raw_span (L "Subject") (L " first" ++ CRLF ++ L " second"));
    try reflexivity.
  vm_compute; lia.
Defined.

(** C6, as stated, fails: the folded header and its unfolded form are
    parsed into different field values. *)
Lemma folded_value_differs_from_unfolded :
  map field_value (snd (parse_headers folded_header))
  <> map field_value (snd (parse_headers unfolded_header)).
Proof. vm_compute. discriminate. Qed.

(* ===================================================================== *)
(** * Properties of the challenge resolver *)
(* ===================================================================== *)

#[local] Arguments take_token : simpl never.
#[local] Arguments take_quoted : simpl never.

Section AuthTermination.

Local Open Scope nat_scope.

Lemma take_token_S : forall room stop c t,
    take_token (S room) stop (c :: t)
    = if stop c then ([], c :: t)
      else let (tok, p') := take_token room stop t in (c :: tok, p').
Proof. reflexivity. Qed.

Lemma take_quoted_S : forall room prev c t,
    take_quoted (S room) prev (c :: t)
    = if Ascii.eqb c DQUOTE && negb (Ascii.eqb prev BACKSLASH) then ([], c :: t)
      else let (v, p') := take_quoted room c t in (c :: v, p').
Proof. reflexivity. Qed.

Lemma cstr_eqb_refl : forall a, cstr_eqb a a = true.
Proof.
  induction a as [|c a IH]; [reflexivity|].
  cbn [cstr_eqb]. rewrite Ascii.eqb_refl. exact IH.
Qed.

Lemma cstr_eqb_eq : forall a b, cstr_eqb a b = true -> a = b.
Proof.
  induction a as [|c a IH]; intros [|d b] H; try discriminate; [reflexivity|].
  cbn [cstr_eqb] in H. apply andb_true_iff in H. destruct H as [H1 H2].
  apply Ascii.eqb_eq in H1. subst. f_equal. auto.
Qed.

Lemma skip_while_length : forall f s, length (skip_while f s) <= length s.
Proof.
  induction s as [|c s IH]; [simpl; lia|].
  simpl. destruct (f c); simpl; lia.
Qed.

Lemma take_token_length : forall room stop p,
    length (snd (take_token room stop p)) <= length p.
Proof.
  induction room as [|room IH]; intros stop p; [simpl; lia|].
  destruct p as [|c t]; [simpl; lia|].
  rewrite take_token_S. destruct (stop c); [simpl; lia|].
  specialize (IH stop t). destruct (take_token room stop t). simpl in *. lia.
Qed.

Lemma take_quoted_length : forall room prev p,
    length (snd (take_quoted room prev p)) <= length p.
Proof.
  induction room as [|room IH]; intros prev p; [simpl; lia|].
  destruct p as [|c t]; [simpl; lia|].
  rewrite take_quoted_S.
  destruct (Ascii.eqb c DQUOTE && negb (Ascii.eqb prev BACKSLASH)); [simpl; lia|].
  specialize (IH c t). destruct (take_quoted room c t). simpl in *. lia.
Qed.

Lemma parse_auth_value_length : forall p,
    length (snd (parse_auth_value p)) <= length p.
Proof.
  intros [|c t]; [simpl; lia|].
  unfold parse_auth_value.
  destruct (Ascii.eqb c DQUOTE).
  - pose proof (take_quoted_length (MAX_TOKEN - 1) c t) as H.
    destruct (take_quoted (MAX_TOKEN - 1) c t) as [v p'].
    destruct p' as [|q t']; [simpl in *; lia|].
    destruct (Ascii.eqb q DQUOTE); simpl in *; lia.
  - apply take_token_length.
Qed.

(** Every round of [parse_auth_params] moves forward: the length of the
    text bounds its rounds. *)
Lemma parse_auth_params_loop_fuel : forall fuel p kv,
    length p < fuel -> parse_auth_params_loop fuel p kv <> OutOfFuel.
Proof.
  induction fuel as [|fuel IH]; intros p kv H; [lia|].
  destruct p as [|c t]; [discriminate|].
  cbn [parse_auth_params_loop].
  pose proof (skip_while_length ows_or_comma (c :: t)) as Hs.
  pose proof (take_token_length (MAX_TOKEN - 1) key_stop
                (skip_while ows_or_comma (c :: t))) as Ht.
  destruct (take_token (MAX_TOKEN - 1) key_stop (skip_while ows_or_comma (c :: t)))
    as [key p1].
  destruct (MAX_AUTH_KEY_VAL <=? length kv); [discriminate|].
  destruct p1 as [|e after_eq]; [discriminate|].
  destruct (Ascii.eqb e "="); [|discriminate].
  pose proof (parse_auth_value_length after_eq) as Hv.
  destruct (parse_auth_value after_eq) as [value p2].
  apply IH. simpl in *. lia.
Qed.

(** The next challenge starts inside the text. *)
Lemma parse_auth_params_loop_more : forall fuel p kv kv' next,
    parse_auth_params_loop fuel p kv = Done (kv', Some next) ->
    length next <= length p.
Proof.
  induction fuel as [|fuel IH]; intros p kv kv' next H.
  - destruct p; simpl in H; discriminate.
  - destruct p as [|c t]; [simpl in H; discriminate|].
    cbn [parse_auth_params_loop] in H.
    pose proof (skip_while_length ows_or_comma (c :: t)) as Hs.
    pose proof (take_token_length (MAX_TOKEN - 1) key_stop
                  (skip_while ows_or_comma (c :: t))) as Ht.
    destruct (take_token (MAX_TOKEN - 1) key_stop (skip_while ows_or_comma (c :: t)))
      as [key p1].
    destruct (MAX_AUTH_KEY_VAL <=? length kv); [discriminate|].
    destruct p1 as [|e after_eq].
    + inversion H; subst. exact Hs.
    + destruct (Ascii.eqb e "=").
      * pose proof (parse_auth_value_length after_eq) as Hv.
        destruct (parse_auth_value after_eq) as [value p2].
        apply IH in H. simpl in *. lia.
      * inversion H; subst. exact Hs.
Qed.

Lemma parse_auth_scheme_length : forall input,
    input <> [] -> length (snd (parse_auth_scheme input)) < length input.
Proof.
  intros [|c t] H; [congruence|].
  unfold parse_auth_scheme. change (MAX_TOKEN - 1) with (S 510).
  rewrite take_token_S. destruct (isspace c) eqn:E.
  - cbn [snd skip_while]. rewrite E.
    pose proof (skip_while_length isspace t). cbn [length]. lia.
  - pose proof (take_token_length 510 isspace t) as Ht.
    destruct (take_token 510 isspace t) as [tok p']. cbn [snd] in *.
    pose proof (skip_while_length isspace p'). cbn [length]. lia.
Qed.

(** The scan of one header value takes at most as many rounds as the
    value has characters. *)
Lemma scan_challenges_fuel : forall fuel target auth_start r,
    length auth_start <= fuel ->
    scan_challenges fuel target auth_start r <> OutOfFuel.
Proof.
  induction fuel as [|fuel IH]; intros target auth_start r H.
  - destruct auth_start; [|simpl in H; lia]. discriminate.
  - cbn [scan_challenges].
    destruct auth_start as [|c t]; [discriminate|].
    pose proof (parse_auth_scheme_length (c :: t)) as Hs.
    destruct (parse_auth_scheme (c :: t)) as [scheme rest].
    destruct rest as [|e rest']; [discriminate|].
    destruct (is_token68 (e :: rest')); [discriminate|].
    unfold parse_auth_params.
    pose proof (parse_auth_params_loop_fuel (S (length (e :: rest'))) (e :: rest') [])
      as Hp.
    destruct (parse_auth_params_loop (S (length (e :: rest'))) (e :: rest') [])
      as [[kv more]| |] eqn:E; [|discriminate|exfalso; apply Hp; [lia|reflexivity]].
    destruct more as [next|]; [|discriminate].
    apply parse_auth_params_loop_more in E.
    apply IH. assert (c :: t <> []) by discriminate.
    specialize (Hs H0). simpl in *. lia.
Qed.

Lemma scan_headers_fuel : forall target headers r,
    scan_headers target headers r <> OutOfFuel.
Proof.
  induction headers as [|h headers IH]; intros r; [discriminate|].
  cbn [scan_headers]. destruct (is_www_authenticate h); [|apply IH].
  pose proof (scan_challenges_fuel (length (get_trimmed_string (field_value h)))
                target (get_trimmed_string (field_value h)) r (Nat.le_refl _)) as H.
  destruct (scan_challenges _ target _ r); [apply IH|discriminate|congruence].
Qed.

(** [CheckAuthScheme] always comes to an end. *)
Lemma CheckAuthScheme_terminates : forall buffer target,
    CheckAuthScheme buffer target <> OutOfFuel.
Proof.
  intros buffer target. unfold CheckAuthScheme.
  destruct (parse_message buffer); [|discriminate].
  destruct (parse_headers c) as [z headers].
  destruct z; try discriminate. apply scan_headers_fuel.
Qed.

End AuthTermination.

Section AuthRendered.

Local Open Scope nat_scope.

(** ** The copy loops on well-formed text *)

Lemma take_token_exact : forall tok room stop rest,
    length tok <= room ->
    forallb (fun c => negb (stop c)) tok = true ->
    match rest with
    | c :: _ => stop c = true
    | [] => True
    end ->
    take_token room stop (tok ++ rest) = (tok, rest).
Proof.
  induction tok as [|x tok IH]; intros room stop rest Hlen Htok Hrest.
  - cbn [app]. destruct room as [|room]; [reflexivity|].
    destruct rest as [|c r]; [reflexivity|].
    rewrite take_token_S, Hrest. reflexivity.
  - destruct room as [|room]; [simpl in Hlen; lia|].
    cbn [forallb] in Htok. apply andb_true_iff in Htok. destruct Htok as [Hx Htok].
    apply negb_true_iff in Hx.
    cbn [app]. rewrite take_token_S, Hx.
    rewrite IH; [reflexivity|simpl in Hlen; lia|exact Htok|exact Hrest].
Qed.

Lemma take_quoted_exact : forall c room prev rest,
    length c <= room ->
    quoted_ok prev c = true ->
    take_quoted room prev (c ++ DQUOTE :: rest) = (c, DQUOTE :: rest).
Proof.
  induction c as [|x c IH]; intros room prev rest Hlen Hc.
  - cbn [app]. destruct room as [|room]; [reflexivity|].
    cbn [quoted_ok] in Hc.
    rewrite take_quoted_S, Ascii.eqb_refl, Hc. reflexivity.
  - destruct room as [|room]; [simpl in Hlen; lia|].
    cbn [quoted_ok] in Hc. apply andb_true_iff in Hc. destruct Hc as [Hx Hc].
    apply negb_true_iff in Hx.
    cbn [app]. rewrite take_quoted_S, Hx.
    rewrite IH; [reflexivity|simpl in Hlen; lia|exact Hc].
Qed.

Lemma token_char_not_space : forall c, token_char c = true -> isspace c = false.
Proof.
  intros c H. unfold token_char in H.
  apply andb_true_iff in H. destruct H as [H _].
  apply andb_true_iff in H. destruct H as [H _].
  apply negb_true_iff in H. exact H.
Qed.

Lemma token_char_not_key_stop : forall c, token_char c = true -> key_stop c = false.
Proof.
  intros c H. pose proof (token_char_not_space c H) as Hs.
  unfold token_char in H.
  apply andb_true_iff in H. destruct H as [_ He].
  apply negb_true_iff in He.
  unfold key_stop. rewrite He. cbn [orb].
  destruct (Ascii.eqb c SP) eqn:E; [|reflexivity].
  apply Ascii.eqb_eq in E. subst. discriminate.
Qed.

Lemma token_char_not_sep : forall c, token_char c = true -> ows_or_comma c = false.
Proof.
  intros c H. pose proof (token_char_not_space c H) as Hs.
  unfold token_char in H.
  apply andb_true_iff in H. destruct H as [H _].
  apply andb_true_iff in H. destruct H as [_ Hc].
  apply negb_true_iff in Hc.
  unfold ows_or_comma. rewrite Hs, Hc. reflexivity.
Qed.

Lemma forallb_token_chars : forall (f : ascii -> bool) t,
    (forall c, token_char c = true -> f c = false) ->
    forallb token_char t = true ->
    forallb (fun c => negb (f c)) t = true.
Proof.
  intros f t Hf H. rewrite forallb_forall in *. intros c Hc.
  apply negb_true_iff. apply Hf. apply H. exact Hc.
Qed.

Lemma skip_sep : forall sep x,
    forallb ows_or_comma sep = true ->
    match x with
    | c :: _ => ows_or_comma c = false
    | [] => True
    end ->
    skip_while ows_or_comma (sep ++ x) = x.
Proof.
  induction sep as [|s sep IH]; intros x Hsep Hx.
  - cbn [app]. destruct x as [|c x]; [reflexivity|]. cbn [skip_while]. rewrite Hx. reflexivity.
  - cbn [forallb] in Hsep. apply andb_true_iff in Hsep. destruct Hsep as [Hs Hsep].
    cbn [app skip_while]. rewrite Hs. apply IH; assumption.
Qed.

(** [parse_auth_scheme] on a scheme name and what follows it. *)
Lemma parse_auth_scheme_token : forall tok after,
    wf_token tok = true ->
    starts_sp_or_empty after = true ->
    parse_auth_scheme (tok ++ after) = (tok, skip_while isspace after).
Proof.
  intros tok after Ht Ha. unfold wf_token in Ht.
  apply andb_true_iff in Ht. destruct Ht as [Ht Hc].
  apply andb_true_iff in Ht. destruct Ht as [_ Hl].
  apply Nat.ltb_lt in Hl.
  unfold parse_auth_scheme.
  rewrite take_token_exact; [reflexivity| | |].
  - unfold MAX_TOKEN in *. lia.
  - apply forallb_token_chars; [apply token_char_not_space|exact Hc].
  - destruct after as [|c r]; [exact I|].
    simpl in Ha. apply Ascii.eqb_eq in Ha. subst. reflexivity.
Qed.

(** The value of a well-formed parameter in front of a comma. *)
Lemma parse_auth_value_rendered : forall v R,
    wf_value v = true ->
    parse_auth_value (render_value v ++ L ", " ++ R) = (value_text v, L ", " ++ R).
Proof.
  intros [c|c] R H; unfold wf_value in H.
  - apply andb_true_iff in H. destruct H as [Hl Hc]. apply Nat.ltb_lt in Hl.
    unfold render_value, quoted, value_text.
    cbn [app parse_auth_value]. rewrite Ascii.eqb_refl.
    rewrite <- app_assoc. cbn [app].
    rewrite take_quoted_exact; [|unfold MAX_TOKEN in *; lia|exact Hc].
    rewrite Ascii.eqb_refl. reflexivity.
  - apply andb_true_iff in H. destruct H as [H Hd].
    apply andb_true_iff in H. destruct H as [Hl Hc]. apply Nat.ltb_lt in Hl.
    apply negb_true_iff in Hd.
    unfold render_value, value_text.
    destruct c as [|x c].
    + reflexivity.
    + cbn [starts_dquote] in Hd. cbn [app parse_auth_value]. rewrite Hd.
      change (x :: c ++ L ", " ++ R) with ((x :: c) ++ L ", " ++ R).
      rewrite take_token_exact; [reflexivity| | |].
      * unfold MAX_TOKEN in *. lia.
      * exact Hc.
      * reflexivity.
Qed.

Lemma parse_auth_params_loop_S : forall fuel c t kv,
    parse_auth_params_loop (S fuel) (c :: t) kv
    = let key_start := skip_while ows_or_comma (c :: t) in
      let (key, p1) := take_token (MAX_TOKEN - 1) key_stop key_start in
      if MAX_AUTH_KEY_VAL <=? length kv then Undefined
      else
        match p1 with
        | e :: after_eq =>
            if Ascii.eqb e "=" then
              let (value, p2) := parse_auth_value after_eq in
              parse_auth_params_loop fuel p2 (kv ++ [(key, value)])
            else Done (kv, Some key_start)
        | [] => Done (kv, Some key_start)
        end.
Proof. reflexivity. Qed.

Lemma wf_token_parts : forall tok,
    wf_token tok = true ->
    tok <> [] /\ length tok < MAX_TOKEN /\ forallb token_char tok = true.
Proof.
  intros tok H. unfold wf_token in H.
  apply andb_true_iff in H. destruct H as [H Hc].
  apply andb_true_iff in H. destruct H as [Hn Hl].
  apply negb_true_iff in Hn. apply Nat.eqb_neq in Hn. apply Nat.ltb_lt in Hl.
  repeat split; try assumption.
  intros ->. apply Hn. reflexivity.
Qed.

Lemma wf_token_head : forall tok after,
    wf_token tok = true ->
    match tok ++ after with
    | c :: _ => ows_or_comma c = false
    | [] => True
    end.
Proof.
  intros tok after H. destruct (wf_token_parts tok H) as [Hn [_ Hc]].
  destruct tok as [|c tok]; [congruence|].
  cbn [app]. cbn [forallb] in Hc. apply andb_true_iff in Hc.
  apply token_char_not_sep. apply Hc.
Qed.

(** The key that is in fact the next scheme name. *)
Lemma take_key_token : forall tok after,
    wf_token tok = true ->
    starts_sp_or_empty after = true ->
    take_token (MAX_TOKEN - 1) key_stop (tok ++ after) = (tok, after).
Proof.
  intros tok after H Ha. destruct (wf_token_parts tok H) as [_ [Hl Hc]].
  apply take_token_exact.
  - unfold MAX_TOKEN in *. lia.
  - apply forallb_token_chars; [apply token_char_not_key_stop|exact Hc].
  - destruct after as [|c r]; [exact I|].
    simpl in Ha. apply Ascii.eqb_eq in Ha. subst. reflexivity.
Qed.

Lemma render_params_cons : forall p ps,
    render_params (p :: ps) = fst p ++ L "=" ++ render_value (snd p) ++ L ", " ++ render_params ps.
Proof.
  intros p ps. unfold render_params. cbn [map concat]. unfold render_param.
  rewrite <- !app_assoc. reflexivity.
Qed.

(** [parse_auth_params] on the parameters of a challenge that is
    followed by another challenge: the parameters are read and
    [more_auths] is where the next scheme name starts. *)
Lemma parse_auth_params_rendered : forall ps fuel sep kv tok after,
    forallb ows_or_comma sep = true ->
    forallb wf_param ps = true ->
    wf_token tok = true ->
    starts_sp_or_empty after = true ->
    length kv + length ps < MAX_AUTH_KEY_VAL ->
    length (sep ++ render_params ps ++ tok ++ after) < fuel ->
    parse_auth_params_loop fuel (sep ++ render_params ps ++ tok ++ after) kv
    = Done (kv ++ map plain_param ps, Some (tok ++ after)).
Proof.
  induction ps as [|[k v] ps IH]; intros fuel sep kv tok after Hsep Hps Htok Ha Hn Hf.
  - unfold render_params in *. cbn [map concat app] in *.
    destruct fuel as [|fuel]; [lia|].
    destruct (wf_token_parts tok Htok) as [Hne _].
    destruct (sep ++ tok ++ after) as [|c t] eqn:E.
    { destruct sep; destruct tok; try discriminate; congruence. }
    rewrite parse_auth_params_loop_S. rewrite <- E.
    cbv zeta.
    rewrite skip_sep by (try exact Hsep; apply wf_token_head; exact Htok).
    rewrite take_key_token by assumption.
    replace (MAX_AUTH_KEY_VAL <=? length kv) with false
      by (symmetry; apply Nat.leb_gt; lia).
    rewrite app_nil_r.
    destruct after as [|e r]; [reflexivity|].
    simpl in Ha. apply Ascii.eqb_eq in Ha. subst e. reflexivity.
  - cbn [forallb] in Hps. apply andb_true_iff in Hps. destruct Hps as [Hp Hps].
    unfold wf_param in Hp. cbn [fst snd] in Hp.
    apply andb_true_iff in Hp. destruct Hp as [Hk Hv].
    unfold wf_key in Hk. apply andb_true_iff in Hk. destruct Hk as [Hkl Hkc].
    apply Nat.ltb_lt in Hkl.
    rewrite render_params_cons in *. cbn [fst snd] in *.
    destruct fuel as [|fuel]; [lia|].
    remember (render_value v ++ L ", " ++ render_params ps ++ tok ++ after) as R eqn:HR.
    assert (Hp : sep ++ (k ++ L "=" ++ render_value v ++ L ", " ++ render_params ps)
                     ++ tok ++ after
                 = sep ++ k ++ "="%char :: R).
    { subst R. rewrite <- !app_assoc. reflexivity. }
    rewrite Hp in *.
    destruct (sep ++ k ++ "="%char :: R) as [|c t] eqn:E.
    { destruct sep; destruct k; discriminate. }
    rewrite parse_auth_params_loop_S. rewrite <- E.
    cbv zeta.
    rewrite skip_sep.
    + rewrite take_token_exact.
      * replace (MAX_AUTH_KEY_VAL <=? length kv) with false
          by (symmetry; apply Nat.leb_gt; simpl in Hn; lia).
        rewrite Ascii.eqb_refl. subst R.
        rewrite parse_auth_value_rendered by exact Hv.
        rewrite (IH fuel (L ", ") (kv ++ [(k, value_text v)]) tok after);
          try assumption; try reflexivity.
        -- rewrite <- app_assoc. reflexivity.
        -- rewrite length_app. simpl in *. lia.
        -- pose proof (f_equal (@length ascii) E) as HE.
           rewrite 2 length_app in HE. cbn [length] in HE, Hf.
           rewrite length_app in HE. lia.
      * unfold MAX_TOKEN in *. lia.
      * apply forallb_token_chars; [apply token_char_not_key_stop|exact Hkc].
      * reflexivity.
    + exact Hsep.
    + destruct k as [|x k]; [reflexivity|].
      cbn [app]. cbn [forallb] in Hkc. apply andb_true_iff in Hkc.
      apply token_char_not_sep. apply Hkc.
Qed.

(** ** A match is never taken back *)


Lemma scan_challenges_eq : forall fuel target auth_start r,
    scan_challenges fuel target auth_start r
    = let (scheme, rest) := parse_auth_scheme auth_start in
      let r1 := if cstr_eqb scheme target
                then mkAuthResult 0 (auth_params r) (auth_paramcount r) else r in
      match rest with
      | [] => Done (set_single r1 (L "None") (L "None"))
      | _ :: _ =>
          if is_token68 rest then Done (set_single r1 (L "Token68") rest)
          else
            match parse_auth_params rest with
            | Done (kv, more_auths) =>
                let r2 := copy_params r1 kv in
                match more_auths with
                | None => Done r2
                | Some next =>
                    match fuel with
                    | O => OutOfFuel
                    | S fuel' => scan_challenges fuel' target next r2
                    end
                end
            | Undefined => Undefined
            | OutOfFuel => OutOfFuel
            end
      end.
Proof. intros [|fuel] target auth_start r; reflexivity. Qed.



(** ** Challenges in front of the target *)

Lemma is_token68_comma : forall a b, is_token68 (a ++ ","%char :: b) = false.
Proof.
  intros a b. unfold is_token68. rewrite forallb_app. cbn [forallb].
  replace (isalnum "," || Ascii.eqb "," "+" || Ascii.eqb "," "/" || Ascii.eqb "," "=")
    with false by reflexivity.
  cbn [andb]. apply andb_false_r.
Qed.

Lemma wf_challenge_parts : forall s ps,
    wf_challenge (s, ps) = true ->
    wf_token s = true /\ ps <> [] /\ length ps < MAX_AUTH_KEY_VAL
    /\ forallb wf_param ps = true.
Proof.
  intros s ps H. unfold wf_challenge in H. cbn [fst snd] in H.
  apply andb_true_iff in H. destruct H as [H Hp].
  apply andb_true_iff in H. destruct H as [H Hl].
  apply andb_true_iff in H. destruct H as [Hs Hn].
  apply negb_true_iff in Hn. apply Nat.eqb_neq in Hn. apply Nat.ltb_lt in Hl.
  repeat split; try assumption. intros ->. apply Hn. reflexivity.
Qed.

(** What follows a rendered challenge starts with a scheme name. *)
Lemma next_scheme_name : forall before target tail,
    forallb wf_challenge before = true ->
    wf_token target = true ->
    starts_sp_or_empty tail = true ->
    exists tok after,
      render_challenges before ++ target ++ tail = tok ++ after
      /\ wf_token tok = true /\ starts_sp_or_empty after = true.
Proof.
  intros [|[s ps] before] target tail Hb Ht Ha.
  - exists target, tail. auto.
  - cbn [forallb] in Hb. apply andb_true_iff in Hb. destruct Hb as [Hc _].
    destruct (wf_challenge_parts s ps Hc) as [Hs _].
    exists s, (L " " ++ render_params ps ++ render_challenges before ++ target ++ tail).
    split; [|split; [exact Hs|reflexivity]].
    unfold render_challenges. cbn [map concat]. unfold render_challenge. cbn [fst snd].
    rewrite <- !app_assoc. reflexivity.
Qed.

Lemma render_params_head : forall ps x,
    ps <> [] ->
    forallb wf_param ps = true ->
    match render_params ps ++ x with
    | c :: _ => isspace c = false
    | [] => True
    end.
Proof.
  intros [|[k v] ps] x Hne Hps; [congruence|].
  rewrite render_params_cons. cbn [fst snd].
  cbn [forallb] in Hps. apply andb_true_iff in Hps. destruct Hps as [Hp _].
  unfold wf_param, wf_key in Hp. cbn [fst snd] in Hp.
  apply andb_true_iff in Hp. destruct Hp as [Hk _].
  apply andb_true_iff in Hk. destruct Hk as [_ Hkc].
  destruct k as [|c k]; [reflexivity|].
  cbn [app]. cbn [forallb] in Hkc. apply andb_true_iff in Hkc.
  apply token_char_not_space. apply Hkc.
Qed.

Lemma skip_space_head : forall x,
    match x with
    | c :: _ => isspace c = false
    | [] => True
    end ->
    skip_while isspace x = x.
Proof.
  intros [|c x] H; [reflexivity|]. cbn [skip_while]. rewrite H. reflexivity.
Qed.

Lemma skip_leading_sp : forall x,
    skip_while isspace (L " " ++ x) = skip_while isspace x.
Proof. reflexivity. Qed.

Lemma render_params_comma : forall ps x,
    ps <> [] -> exists a b, render_params ps ++ x = a ++ ","%char :: b.
Proof.
  intros [|[k v] ps] x Hne; [congruence|].
  rewrite render_params_cons. cbn [fst snd].
  exists (k ++ L "=" ++ render_value v), (" "%char :: render_params ps ++ x).
  rewrite <- !app_assoc. reflexivity.
Qed.


Lemma render_challenges_length : forall before x,
    length before <= length (render_challenges before ++ x).
Proof.
  induction before as [|[s ps] before IH]; intros x; [simpl; lia|].
  unfold render_challenges in *. cbn [map concat].
  unfold render_challenge at 1. cbn [fst snd].
  rewrite <- !app_assoc. rewrite length_app. cbn [L list_ascii_of_string app length].
  specialize (IH x). rewrite !length_app in *. simpl. lia.
Qed.


End AuthRendered.


(* ===================================================================== *)
(** * Properties of the digest engine and of the Authorization headers *)
(* ===================================================================== *)

Section WorldLemmas.

Lemma bind_Some : forall A B (c : M A) (k : A -> M B) w b w',
    bind c k w = Some (b, w') ->
    exists a w1, c w = Some (a, w1) /\ k a w1 = Some (b, w').
Proof.
  intros A B c k w b w' H. unfold bind in H.
  destruct (c w) as [[a w1]|]; [|discriminate].
  exists a, w1. auto.
Qed.

Lemma ret_Some : forall A (a b : A) w w',
    ret a w = Some (b, w') -> b = a /\ w' = w.
Proof. intros A a b w w' H. inversion H. auto. Qed.

Lemma lift_Some : forall A (x : option A) a w w',
    lift x w = Some (a, w') -> x = Some a /\ w' = w.
Proof.
  intros A x a w w' H. unfold lift in H. destruct x; inversion H. auto.
Qed.

Lemma fits_Some : forall size text x, fits size text = Some x -> x = text.
Proof.
  intros size text x H. unfold fits in H.
  destruct (length text <? size)%nat; inversion H. reflexivity.
Qed.

Lemma fits_lt : forall size text,
    (length text < size)%nat -> fits size text = Some text.
Proof.
  intros size text H. unfold fits.
  apply Nat.ltb_lt in H. rewrite H. reflexivity.
Qed.

End WorldLemmas.


Section AuthorizationKept.

Context {lib : Asterisk}.











End AuthorizationKept.

Section DigestEngine.

Context {lib : Asterisk}.

Lemma hex32_length : forall s, hex32 s = true -> length s = 32%nat.
Proof.
  intros s H. unfold hex32 in H. apply andb_true_iff in H.
  destruct H as [H _]. apply Nat.eqb_eq in H. exact H.
Qed.

Lemma auth_digest_value : forall username passwd realm nonce uri method,
    ast_md5_hash string_to_hash = string_to_compare ->
    (forall s, hex32 (ast_md5_hash s) = true) ->
    (length (username ++ L ":" ++ realm ++ L ":" ++ passwd) < 256)%nat ->
    (length (method ++ L ":" ++ uri) < 256)%nat ->
    (length nonce < 447)%nat ->
    auth_digest username passwd realm nonce uri method
    = Some (0%Z,
            Some (ast_md5_hash
                    (ast_md5_hash (username ++ L ":" ++ realm ++ L ":" ++ passwd)
                     ++ L ":" ++ nonce ++ L ":"
                     ++ ast_md5_hash (method ++ L ":" ++ uri)))).
Proof.
  intros username passwd realm nonce uri method Htest Hhex H1 H2 Hn.
  unfold auth_digest.
  rewrite Htest. rewrite (fits_lt 256 string_to_compare) by (vm_compute; lia).
  cbn [obind]. rewrite cstr_eqb_refl. cbn [negb].
  rewrite (fits_lt 256 _ H1). cbn [obind].
  rewrite (fits_lt 256 (ast_md5_hash _))
    by (rewrite (hex32_length _ (Hhex _)); lia).
  cbn [obind]. rewrite (fits_lt 256 _ H2). cbn [obind].
  rewrite (fits_lt 256 (ast_md5_hash _))
    by (rewrite (hex32_length _ (Hhex _)); lia).
  cbn [obind]. rewrite fits_lt; [reflexivity|].
  rewrite !length_app, !(hex32_length _ (Hhex _)).
  cbn [L list_ascii_of_string length]. lia.
Qed.

End DigestEngine.

(** C3.  When the MD5 self-test passes (and [ast_md5_hash] writes 32
    hexadecimal digits, and the texts fit the buffers of [auth_digest]),
    [auth_digest] returns 0 with the 32 hexadecimal digits
    MD5(MD5(username:realm:password):nonce:MD5(method:uri)).  The
    Authorization header built from a challenge carries this response
    whatever its [nc], [cnonce] and [qop] are, and two calls with the
    same arguments give the same result. *)
Theorem auth_digest_rfc2069 :
  forall (lib : Asterisk) (username passwd realm nonce uri method : cstring),
    ast_md5_hash string_to_hash = string_to_compare ->
    (forall s, hex32 (ast_md5_hash s) = true) ->
    (length (username ++ L ":" ++ realm ++ L ":" ++ passwd) < 256)%nat ->
    (length (method ++ L ":" ++ uri) < 256)%nat ->
    (length nonce < 447)%nat ->
    let digest :=
      ast_md5_hash
        (ast_md5_hash (username ++ L ":" ++ realm ++ L ":" ++ passwd)
         ++ L ":" ++ nonce ++ L ":" ++ ast_md5_hash (method ++ L ":" ++ uri)) in
    auth_digest username passwd realm nonce uri method = Some (0%Z, Some digest)
    /\ hex32 digest = true
    /\ (forall player nc cnonce qop isSIP w r w',
           RtspPlayerDigestAuthorization player username passwd realm nonce
             nc cnonce qop uri realm method isSIP w = Some (r, w') ->
           exists tail,
             authorization (snd r)
             = Some (digest_header username realm nonce uri digest ++ tail))
    /\ (forall username' passwd' realm' nonce' uri' method',
           (username', passwd', realm', nonce', uri', method')
           = (username, passwd, realm, nonce, uri, method) ->
           auth_digest username' passwd' realm' nonce' uri' method'
           = auth_digest username passwd realm nonce uri method).
Proof.
  intros lib username passwd realm nonce uri method Htest Hhex H1 H2 Hn digest.
  pose proof (auth_digest_value username passwd realm nonce uri method
                Htest Hhex H1 H2 Hn) as Hd.
  fold digest in Hd.
  split; [exact Hd|]. split; [apply Hhex|]. split.
  - intros player nc cnonce qop isSIP w r w' H.
    unfold RtspPlayerDigestAuthorization in H.
    rewrite cstr_eqb_refl in H. cbn [negb] in H.
    rewrite Hd in H.
    apply bind_Some in H. destruct H as (res & w1 & Hres & H).
    apply lift_Some in Hres. destruct Hres as [Hres ->].
    inversion Hres; subst res.
    apply bind_Some in H. destruct H as (a & w2 & Ha & H).
    apply lift_Some in Ha. destruct Ha as [Ha ->].
    apply fits_Some in Ha. subst a.
    apply ret_Some in H. destruct H as [-> _].
    eexists. reflexivity.
  - intros username' passwd' realm' nonce' uri' method' E.
    inversion E. reflexivity.
Qed.

Section ReferenceMD5.

Lemma digit_char_hex : forall d, 0 <= d < 16 -> is_hex (digit_char d) = true.
Proof.
  intros d H.
  assert (E : d = 0 \/ d = 1 \/ d = 2 \/ d = 3 \/ d = 4 \/ d = 5 \/ d = 6 \/ d = 7
              \/ d = 8 \/ d = 9 \/ d = 10 \/ d = 11 \/ d = 12 \/ d = 13 \/ d = 14
              \/ d = 15) by lia.
  repeat (destruct E as [E|E]; [subst; reflexivity|]). subst. reflexivity.
Qed.

Lemma hex_byte_hex : forall b, forallb is_hex (RFC.hex_byte b) = true.
Proof.
  intros b. unfold RFC.hex_byte. cbn [forallb].
  rewrite !digit_char_hex by (apply Z.mod_pos_bound; lia). reflexivity.
Qed.

Lemma hex_word_hex : forall w,
    forallb is_hex (RFC.hex_word w) = true /\ length (RFC.hex_word w) = 8%nat.
Proof.
  intros w. unfold RFC.hex_word. split.
  - rewrite !forallb_app, !hex_byte_hex. reflexivity.
  - reflexivity.
Qed.

(** The reference MD5 writes 32 hexadecimal digits. *)
Lemma md5_hex32 : forall s, hex32 (RFC.md5 s) = true.
Proof.
  intros s. unfold RFC.md5.
  destruct (RFC.blocks _ _ _) as [[[A B] C] D].
  unfold hex32. rewrite !length_app, !forallb_app.
  destruct (hex_word_hex A) as [-> ->], (hex_word_hex B) as [-> ->],
           (hex_word_hex C) as [-> ->], (hex_word_hex D) as [-> ->].
  reflexivity.
Qed.

End ReferenceMD5.

Lemma auth_digest_rfc2069_witness :
  auth_digest (H := rfc_asterisk) (L "u") (L "p") (L "r") (L "n") (L "rtsp://h/x")
    (L "DESCRIBE")
  = Some (0%Z, Some (L "d43942a69cea5a6702fa9c0d7a6b6c77")).
Proof.
  assert (Htest : ast_md5_hash (Asterisk := rfc_asterisk) string_to_hash
                  = string_to_compare) by (vm_compute; reflexivity).
  assert (H1 : (length (L "u" ++ L ":" ++ L "r" ++ L ":" ++ L "p") < 256)%nat)
    by (vm_compute; lia).
  assert (H2 : (length (L "DESCRIBE" ++ L ":" ++ L "rtsp://h/x") < 256)%nat)
    by (vm_compute; lia).
  assert (Hn : (length (L "n") < 447)%nat) by (vm_compute; lia).
  destruct (auth_digest_rfc2069 rfc_asterisk (L "u") (L "p") (L "r") (L "n")
              (L "rtsp://h/x") (L "DESCRIBE") Htest md5_hex32 H1 H2 Hn)
    as [Hd _].
  rewrite Hd. vm_compute. reflexivity.
Defined.

Section RealmCheck.

Context {lib : Asterisk}.






End RealmCheck.



(** The realm that the SIP controller compares need not be the one of
    the Digest challenge: with a Digest challenge for "evil" followed by
    a challenge of another scheme that names the configured realm, the
    realm handed back is the configured one and the header is written. *)
Example sip_realm_check_reads_last_challenge :
  option_map (fun d => rx_realm (snd d)) (GetAuthSchemeDigest sip_401_evil_then_bearer)
  = Some configured_realm
  /\ option_map (fun r => authorization (fst r))
       (sip_invite_401 (H := rfc_asterisk) speaker0 (L "cam") (L "pw") configured_realm
          5060 AST_FORMAT_ULAW sip_401_evil_then_bearer world0)
     = Some (Some (digest_header (L "cam") configured_realm []
                     (L "sip:cam@192.168.0.34:5060")
                     (RFC.md5 (RFC.md5 (L "cam:streaming_server:pw") ++ L "::"
                               ++ RFC.md5 (L "INVITE:sip:cam@192.168.0.34:5060"))))).
Proof. split; vm_compute; reflexivity. Qed.


(* ===================================================================== *)
(** * Trimming, the start line and well-formed header blocks *)
(* ===================================================================== *)

Section Lines.

Local Open Scope nat_scope.

Lemma cut_trailing_space_core : forall x c w,
    isspace c = false -> all_space w = true ->
    cut_trailing_space ((x ++ [c]) ++ w) = x ++ [c].
Proof.
  intros [|d x] c w Hc Hw.
  - cbn [app cut_trailing_space]. rewrite drop_trailing_all by exact Hw. reflexivity.
  - cbn [app cut_trailing_space].
    rewrite drop_trailing_app by assumption. reflexivity.
Qed.

Lemma starts_space_app : forall a b,
    a <> [] -> starts_space (a ++ b) = starts_space a.
Proof. intros [|c a] b H; [congruence|reflexivity]. Qed.

Lemma strstr_CRLF_app : forall line rest,
    strstr line CRLF = None -> strstr (line ++ CRLF ++ rest) CRLF = Some (CRLF ++ rest).
Proof.
  induction line as [|c line IH]; intros rest H; [reflexivity|].
  cbn [strstr] in H. destruct (prefixb CRLF (c :: line)) eqn:E; [discriminate|].
  cbn [app strstr].
  replace (prefixb CRLF (c :: line ++ CRLF ++ rest)) with false.
  - apply IH. exact H.
  - symmetry. destruct line as [|d line].
    + cbn [app]. unfold CRLF at 2. cbn [app]. apply prefixb_CRLF_CR.
    + cbn [app]. rewrite prefixb_CRLF_cons in *. exact E.
Qed.

Lemma strstr_split : forall needle s suf,
    strstr s needle = Some suf ->
    exists pre, s = pre ++ suf /\ prefixb needle suf = true.
Proof.
  intros needle. induction s as [|c s IH]; intros suf H.
  - cbn [strstr] in H. destruct (prefixb needle []) eqn:E; [|discriminate].
    inversion H; subst. exists []. split; [reflexivity|exact E].
  - cbn [strstr] in H. destruct (prefixb needle (c :: s)) eqn:E.
    + inversion H; subst. exists []. split; [reflexivity|exact E].
    + destruct (IH suf H) as (pre & -> & Hp).
      exists (c :: pre). split; [reflexivity|exact Hp].
Qed.

Lemma prefixb_split : forall lit s,
    prefixb lit s = true -> s = lit ++ skipn (length lit) s.
Proof.
  induction lit as [|x lit IH]; intros s H; [reflexivity|].
  destruct s as [|y s]; [discriminate|].
  cbn [prefixb] in H. apply andb_true_iff in H. destruct H as [Hxy H].
  apply Ascii.eqb_eq in Hxy. subst y. cbn [app length skipn]. f_equal.
  apply IH. exact H.
Qed.

Lemma strstr_none_prefix : forall needle a b,
    strstr (a ++ b) needle = Some b ->
    needle <> [] ->
    forall a1 a2, a = a1 ++ a2 -> a2 <> [] -> prefixb needle (a2 ++ b) = false.
Proof.
  intros needle. induction a as [|c a IH]; intros b H Hn a1 a2 E Ha2.
  - destruct a1, a2; try discriminate. congruence.
  - cbn [app strstr] in H.
    destruct (prefixb needle (c :: a ++ b)) eqn:P.
    + inversion H as [Hlen]. apply (f_equal (@length ascii)) in Hlen.
      cbn [length] in Hlen. rewrite length_app in Hlen. lia.
    + destruct a1 as [|d a1].
      * cbn [app] in E. subst a2. exact P.
      * cbn [app] in E. inversion E; subst. apply (IH b H Hn a1 a2); auto.
Qed.

Lemma prefixb_app : forall lit s, prefixb lit (lit ++ s) = true.
Proof.
  induction lit as [|x lit IH]; intros s; [reflexivity|].
  cbn [app prefixb]. rewrite Ascii.eqb_refl. apply IH.
Qed.

Lemma absent_cons : forall needle c s,
    absent needle (c :: s) = true ->
    prefixb needle (c :: s) = false /\ absent needle s = true.
Proof.
  intros needle c s H. unfold absent in *. cbn [strstr] in H.
  destruct (prefixb needle (c :: s)); [discriminate|]. split; [reflexivity|exact H].
Qed.

Lemma absent_strstr : forall needle s, absent needle s = true -> strstr s needle = None.
Proof. intros needle s H. unfold absent in H. destruct (strstr s needle); [discriminate|reflexivity]. Qed.

Lemma find_line_end_absent : forall s, absent CRLF s = true -> find_line_end s = None.
Proof.
  induction s as [|c s IH]; intros H; [reflexivity|].
  apply absent_cons in H. destruct H as [Hp Hs].
  rewrite find_line_end_cons, Hp, (IH Hs). reflexivity.
Qed.

Lemma parse_headers_loop_cut_off : forall room s hs,
    absent CRLF s = true -> parse_headers_loop room s hs = (0%Z, hs).
Proof.
  intros [|room] [|c s] hs H; try reflexivity.
  cbn [parse_headers_loop]. rewrite (find_line_end_absent _ H). reflexivity.
Qed.

Lemma parse_headers_loop_blank : forall room body hs,
    starts_wsp body = false -> parse_headers_loop room (CRLF ++ body) hs = (0%Z, hs).
Proof.
  intros [|room] body hs H; [reflexivity|].
  unfold CRLF at 1. cbn [app parse_headers_loop].
  change (CR :: LF :: body) with (CRLF ++ body).
  rewrite (find_line_end_at_end _ H). reflexivity.
Qed.

Lemma split_header_text : forall h,
    wf_header h = true -> split_header (header_text h) = Some (header_struct h).
Proof.
  intros [name v] H. unfold wf_header, header_line, header_text in *.
  cbn [fst snd] in *.
  apply andb_true_iff in H. destruct H as [H Hline].
  apply negb_true_iff in H.
  apply andb_true_iff in Hline. destruct Hline as [Hline _].
  apply andb_true_iff in Hline. destruct Hline as [_ Hlen].
  apply Nat.ltb_lt in Hlen.
  unfold split_header. rewrite strchr_app_colon by exact H.
  rewrite firstn_length_app.
  replace (skipn (S (length name)) (name ++ ":"%char :: v)) with v.
  - rewrite length_app in Hlen. cbn [length] in Hlen.
    rewrite !firstn_all2
      by (unfold MAX_FIELD_NAME, MAX_FIELD_VALUE, MAX_HEADER_LINE in *; lia).
    reflexivity.
  - rewrite skipn_app, skipn_all2 by lia.
    replace (S (length name) - length name) with 1 by lia. reflexivity.
Qed.

Lemma header_of_text : forall h,
    wf_header h = true -> header_of (header_text h) = header_struct h.
Proof. intros h H. unfold header_of. rewrite (split_header_text h H). reflexivity. Qed.

Lemma wf_header_lines : forall hs,
    forallb wf_header hs = true ->
    Forall (fun l => header_line l = true) (map header_text hs)
    /\ map header_of (map header_text hs) = map header_struct hs.
Proof.
  induction hs as [|h hs IH]; intros H; [split; [constructor|reflexivity]|].
  cbn [forallb] in H. apply andb_true_iff in H. destruct H as [Hh Hs].
  destruct (IH Hs) as [IH1 IH2]. split.
  - cbn [map]. constructor; [|exact IH1].
    unfold wf_header in Hh. apply andb_true_iff in Hh. apply Hh.
  - cbn [map]. rewrite IH2, (header_of_text h Hh). reflexivity.
Qed.

Lemma trim_whitespace_lead_core : forall lead x c trail,
    all_space lead = true ->
    starts_space (x ++ [c]) = false ->
    isspace c = false ->
    all_space trail = true ->
    trim_whitespace (lead ++ (x ++ [c]) ++ trail) = lead ++ x ++ [c].
Proof.
  intros lead x c trail Hl Hx Hc Ht. unfold trim_whitespace.
  assert (Hs : starts_space ((x ++ [c]) ++ trail) = false).
  { rewrite starts_space_app; [exact Hx|]. destruct x; discriminate. }
  rewrite take_while_app, skip_while_app by assumption.
  rewrite cut_trailing_space_core by assumption. reflexivity.
Qed.

Lemma get_trimmed_string_lead_core : forall lead x c trail,
    all_space lead = true ->
    starts_space (x ++ [c]) = false ->
    isspace c = false ->
    all_space trail = true ->
    get_trimmed_string (lead ++ (x ++ [c]) ++ trail) = x ++ [c].
Proof.
  intros lead x c trail Hl Hx Hc Ht. unfold get_trimmed_string.
  assert (Hs : starts_space ((x ++ [c]) ++ trail) = false).
  { rewrite starts_space_app; [exact Hx|]. destruct x; discriminate. }
  rewrite skip_while_app by assumption.
  apply cut_trailing_space_core; assumption.
Qed.

Lemma parse_message_app : forall line rest,
    absent CRLF line = true -> parse_message (line ++ CRLF ++ rest) = Some rest.
Proof.
  intros line rest H. apply absent_strstr in H. unfold parse_message.
  rewrite (strstr_CRLF_app line rest H). reflexivity.
Qed.

Lemma parse_headers_lines_blank : forall (hs : list (cstring * cstring)) body,
    forallb wf_header hs = true ->
    length hs <= MAX_HEADERS ->
    starts_wsp body = false ->
    parse_headers (lines (map header_text hs) ++ CRLF ++ body)
    = (0%Z, map header_struct hs).
Proof.
  intros hs body Hw Hlen Hb. destruct (wf_header_lines hs Hw) as [Hf Hm].
  unfold parse_headers.
  rewrite parse_headers_loop_lines by (auto; reflexivity).
  rewrite length_map. apply Nat.leb_le in Hlen. rewrite Hlen.
  rewrite parse_headers_loop_blank by exact Hb. rewrite Hm. reflexivity.
Qed.

End Lines.

(** X1.  [trim_whitespace] cuts the white space at the end of a text and
    nothing else: the white space in front of the first other character
    stays where it is, and a text of white space only is left as it
    is. *)
Theorem trim_whitespace_cuts_trailing_only :
  forall lead x c trail,
    all_space lead = true ->
    starts_space (x ++ [c]) = false ->
    isspace c = false ->
    all_space trail = true ->
    trim_whitespace (lead ++ (x ++ [c]) ++ trail) = lead ++ x ++ [c]
    /\ trim_whitespace lead = lead.
Proof.
  intros lead x c trail Hl Hx Hc Ht. split.
  - apply trim_whitespace_lead_core; assumption.
  - unfold trim_whitespace. rewrite <- (app_nil_r lead) at 1 2.
    rewrite take_while_app, skip_while_app by (auto; reflexivity).
    apply app_nil_r.
Qed.

Lemma trim_whitespace_cuts_trailing_only_witness :
  trim_whitespace (L "  " ++ (L "a " ++ ["b"]) ++ L " ") = L "  " ++ L "a " ++ ["b"]
  /\ trim_whitespace (L "  ") = L "  ".
Proof.
  apply trim_whitespace_cuts_trailing_only; reflexivity.
Defined.

(** X2.  [get_trimmed_string] hands back the text between the white
    space in front and the white space at the end, and the empty text
    for a text of white space only. *)
Theorem get_trimmed_string_core :
  forall lead x c trail,
    all_space lead = true ->
    starts_space (x ++ [c]) = false ->
    isspace c = false ->
    all_space trail = true ->
    get_trimmed_string (lead ++ (x ++ [c]) ++ trail) = x ++ [c]
    /\ get_trimmed_string lead = [].
Proof.
  intros lead x c trail Hl Hx Hc Ht. split.
  - apply get_trimmed_string_lead_core; assumption.
  - unfold get_trimmed_string. rewrite skip_while_all by exact Hl. reflexivity.
Qed.

Lemma get_trimmed_string_core_witness :
  get_trimmed_string (L " " ++ (L "Basic realm=x" ++ ["y"]) ++ CRLF)
  = L "Basic realm=x" ++ ["y"]
  /\ get_trimmed_string (L " ") = [].
Proof.
  apply get_trimmed_string_core; reflexivity.
Defined.

(** X3.  [parse_message] puts the start of the headers after the first
    CRLF of the buffer, and fails (return code -1) on a text without
    CRLF. *)
Theorem parse_message_after_start_line :
  forall line rest : cstring,
    absent CRLF line = true ->
    parse_message (line ++ CRLF ++ rest) = Some rest
    /\ parse_message line = None.
Proof.
  intros line rest H. split.
  - apply parse_message_app. exact H.
  - apply absent_strstr in H. unfold parse_message. rewrite H. reflexivity.
Qed.

Lemma parse_message_after_start_line_witness :
  parse_message (L "RTSP/1.0 200 OK" ++ CRLF ++ L "CSeq: 1" ++ CRLF ++ CRLF)
  = Some (L "CSeq: 1" ++ CRLF ++ CRLF)
  /\ parse_message (L "RTSP/1.0 200 OK") = None.
Proof.
  apply parse_message_after_start_line. reflexivity.
Defined.

(** X4.  A block of at most [MAX_HEADERS] header lines [name:value] that
    an empty line ends, when the text after the empty line does not
    start with a blank or a tab, is parsed with return code 0 into one
    header per line, in the order of the lines, each with its name and
    its value trimmed by [trim_whitespace]. *)
Theorem parse_headers_block :
  forall (hs : list (cstring * cstring)) (body : cstring),
    forallb wf_header hs = true ->
    (length hs <= MAX_HEADERS)%nat ->
    starts_wsp body = false ->
    parse_headers (lines (map header_text hs) ++ CRLF ++ body)
    = (0%Z, map header_struct hs).
Proof.
  intros hs body Hw Hlen Hb. apply parse_headers_lines_blank; assumption.
Qed.

Lemma parse_headers_block_witness :
  parse_headers (lines (map header_text [(L "CSeq", L " 2"); (L "Session ", L " 12;timeout=60 ")])
                 ++ CRLF ++ L "v=0")
  = (0%Z, map header_struct [(L "CSeq", L " 2"); (L "Session ", L " 12;timeout=60 ")]).
Proof.
  apply parse_headers_block; [reflexivity|vm_compute; lia|reflexivity].
Defined.

(** X5.  A header block that breaks off inside a line (no CRLF after the
    last complete line), when the broken-off text does not start with a
    blank or a tab, is not an error: the return code is 0 and the list
    holds the complete lines. *)
Theorem parse_headers_cut_off :
  forall (hs : list (cstring * cstring)) (partial : cstring),
    forallb wf_header hs = true ->
    (length hs <= MAX_HEADERS)%nat ->
    absent CRLF partial = true ->
    starts_wsp partial = false ->
    parse_headers (lines (map header_text hs) ++ partial)
    = (0%Z, map header_struct hs).
Proof.
  intros hs partial Hw Hlen Ha Hp. destruct (wf_header_lines hs Hw) as [Hf Hm].
  unfold parse_headers.
  rewrite parse_headers_loop_lines by assumption.
  rewrite length_map. apply Nat.leb_le in Hlen. rewrite Hlen.
  rewrite parse_headers_loop_cut_off by exact Ha. rewrite Hm. reflexivity.
Qed.

Lemma parse_headers_cut_off_witness :
  parse_headers (lines (map header_text [(L "CSeq", L " 2")]) ++ L "Content-Le")
  = (0%Z, map header_struct [(L "CSeq", L " 2")]).
Proof.
  apply parse_headers_cut_off; [reflexivity|vm_compute; lia|reflexivity|reflexivity].
Defined.

(* ===================================================================== *)
(** * What the challenge resolver hands back *)
(* ===================================================================== *)

Section Challenge.

Local Open Scope nat_scope.

(** ** The caller's arrays *)

Lemma array_set_length : forall A (a : list A) j x, length (array_set a j x) = length a.
Proof.
  induction a as [|y a IH]; intros j x; [reflexivity|].
  destruct j; cbn [array_set length]; [reflexivity|]. rewrite IH. reflexivity.
Qed.

Lemma store_params_length : forall kv a j, length (store_params a j kv) = length a.
Proof.
  induction kv as [|x kv IH]; intros a j; [reflexivity|].
  cbn [store_params]. rewrite IH. apply array_set_length.
Qed.

Lemma array_set_app : forall A (a b : list A) y x,
    array_set (a ++ y :: b) (length a) x = a ++ x :: b.
Proof.
  induction a as [|z a IH]; intros b y x; [reflexivity|].
  cbn [app length array_set]. rewrite IH. reflexivity.
Qed.

Lemma store_params_app : forall kv (a old b : list (option auth_param)),
    length old = length kv ->
    store_params (a ++ old ++ b) (length a) kv = a ++ map Some kv ++ b.
Proof.
  induction kv as [|x kv IH]; intros a old b H.
  - destruct old; [reflexivity|discriminate].
  - destruct old as [|o old]; [discriminate|].
    cbn [store_params app map]. rewrite array_set_app.
    replace (a ++ Some x :: old ++ b) with ((a ++ [Some x]) ++ old ++ b)
      by (rewrite <- app_assoc; reflexivity).
    replace (S (length a)) with (length (a ++ [Some x]))
      by (rewrite length_app; simpl; lia).
    rewrite IH by (simpl in H; lia). rewrite <- app_assoc. reflexivity.
Qed.

Lemma read_params_app : forall kv b,
    read_params (map Some kv ++ b) (length kv) = Some kv.
Proof.
  induction kv as [|x kv IH]; intros b; [destruct b; reflexivity|].
  cbn [map app length read_params]. rewrite IH. reflexivity.
Qed.

Lemma read_stored_params : forall kv a,
    length kv <= length a ->
    read_params (store_params a 0 kv) (length kv) = Some kv.
Proof.
  intros kv a H.
  rewrite <- (firstn_skipn (length kv) a).
  pose proof (store_params_app kv [] (firstn (length kv) a) (skipn (length kv) a)) as E.
  cbn [app length] in E. rewrite E by (rewrite length_firstn; lia).
  apply read_params_app.
Qed.

Lemma copy_params_length : forall r kv,
    length (auth_params (copy_params r kv)) = length (auth_params r).
Proof.
  intros r kv. unfold copy_params.
  destruct (_ && _); [|reflexivity]. cbn [auth_params]. apply store_params_length.
Qed.

Lemma scan_challenges_length : forall fuel target auth_start r r',
    scan_challenges fuel target auth_start r = Done r' ->
    length (auth_params r') = length (auth_params r).
Proof.
  induction fuel as [|fuel IH]; intros target auth_start r r' H;
    rewrite scan_challenges_eq in H;
    destruct (parse_auth_scheme auth_start) as [scheme rest];
    cbv zeta in H;
    set (r1 := if cstr_eqb scheme target
               then mkAuthResult 0 (auth_params r) (auth_paramcount r) else r) in *;
    assert (H1 : length (auth_params r1) = length (auth_params r))
      by (unfold r1; destruct (cstr_eqb scheme target); reflexivity);
    clearbody r1;
    destruct rest as [|e rest'];
    try (inversion H; subst; cbn [set_single auth_params];
         rewrite array_set_length; exact H1);
    destruct (is_token68 (e :: rest'));
    try (inversion H; subst; cbn [set_single auth_params];
         rewrite array_set_length; exact H1);
    destruct (parse_auth_params (e :: rest')) as [[kv more]| |]; try discriminate;
    destruct more as [next|];
    try (inversion H; subst; rewrite copy_params_length; exact H1);
    try discriminate.
  apply IH in H. rewrite H, copy_params_length. exact H1.
Qed.

Lemma scan_headers_length : forall headers target r r',
    scan_headers target headers r = Done r' ->
    length (auth_params r') = length (auth_params r).
Proof.
  induction headers as [|h headers IH]; intros target r r' H.
  - inversion H; subst. reflexivity.
  - cbn [scan_headers] in H. destruct (is_www_authenticate h); [|eauto].
    destruct (scan_challenges _ target _ r) as [r1| |] eqn:E; try discriminate.
    rewrite (IH target r1 r' H). apply (scan_challenges_length _ _ _ _ _ E).
Qed.

(** ** Headers that are no challenge *)

Lemma scan_headers_no_challenge : forall headers target r,
    no_challenge headers = true -> scan_headers target headers r = Done r.
Proof.
  induction headers as [|h headers IH]; intros target r H; [reflexivity|].
  unfold no_challenge in H. cbn [forallb] in H.
  apply andb_true_iff in H. destruct H as [Hh H]. apply negb_true_iff in Hh.
  cbn [scan_headers]. rewrite Hh. apply IH. exact H.
Qed.

Lemma scan_headers_app : forall hs1 hs2 target r r',
    scan_headers target (hs1 ++ hs2) r = Done r' ->
    exists r1, scan_headers target hs1 r = Done r1
               /\ scan_headers target hs2 r1 = Done r'.
Proof.
  induction hs1 as [|h hs1 IH]; intros hs2 target r r' H.
  - exists r. split; [reflexivity|exact H].
  - cbn [app scan_headers] in *. destruct (is_www_authenticate h); [|eauto].
    destruct (scan_challenges _ target _ r) as [r1| |]; try discriminate.
    eauto.
Qed.

(** ** The parameters of the challenge that ends a header value *)

Lemma parse_auth_value_end : forall v,
    wf_value v = true -> parse_auth_value (render_value v) = (value_text v, []).
Proof.
  intros [c|c] H; unfold wf_value in H.
  - apply andb_true_iff in H. destruct H as [Hl Hc]. apply Nat.ltb_lt in Hl.
    unfold render_value, quoted, value_text.
    cbn [app parse_auth_value]. rewrite Ascii.eqb_refl.
    rewrite take_quoted_exact; [|unfold MAX_TOKEN in *; lia|exact Hc].
    rewrite Ascii.eqb_refl. reflexivity.
  - apply andb_true_iff in H. destruct H as [H Hd].
    apply andb_true_iff in H. destruct H as [Hl Hc]. apply Nat.ltb_lt in Hl.
    apply negb_true_iff in Hd.
    unfold render_value, value_text.
    destruct c as [|x c]; [reflexivity|].
    cbn [starts_dquote] in Hd. cbn [parse_auth_value]. rewrite Hd.
    pose proof (take_token_exact (x :: c) (MAX_TOKEN - 1)
                  (fun c => Ascii.eqb c ",") []) as E.
    rewrite app_nil_r in E. apply E; [unfold MAX_TOKEN in *; lia|exact Hc|exact I].
Qed.

Lemma parse_auth_params_one : forall fuel sep k R kv,
    forallb ows_or_comma sep = true ->
    wf_key k = true ->
    length kv < MAX_AUTH_KEY_VAL ->
    parse_auth_params_loop (S fuel) (sep ++ k ++ "="%char :: R) kv
    = let (value, p2) := parse_auth_value R in
      parse_auth_params_loop fuel p2 (kv ++ [(k, value)]).
Proof.
  intros fuel sep k R kv Hsep Hk Hn.
  unfold wf_key in Hk. apply andb_true_iff in Hk. destruct Hk as [Hkl Hkc].
  apply Nat.ltb_lt in Hkl.
  destruct (sep ++ k ++ "="%char :: R) as [|c t] eqn:E.
  { destruct sep; destruct k; discriminate. }
  rewrite parse_auth_params_loop_S. rewrite <- E. cbv zeta.
  rewrite skip_sep.
  - rewrite take_token_exact.
    + replace (MAX_AUTH_KEY_VAL <=? length kv) with false
        by (symmetry; apply Nat.leb_gt; lia).
      rewrite Ascii.eqb_refl. reflexivity.
    + unfold MAX_TOKEN in *. lia.
    + apply forallb_token_chars; [apply token_char_not_key_stop|exact Hkc].
    + reflexivity.
  - exact Hsep.
  - destruct k as [|x k]; [reflexivity|].
    cbn [app]. cbn [forallb] in Hkc. apply andb_true_iff in Hkc.
    apply token_char_not_sep. apply Hkc.
Qed.

Lemma wf_param_parts : forall p,
    wf_param p = true -> wf_key (fst p) = true /\ wf_value (snd p) = true.
Proof. intros p H. unfold wf_param in H. apply andb_true_iff in H. exact H. Qed.

Lemma parse_auth_params_final : forall ps fuel sep kv p,
    forallb ows_or_comma sep = true ->
    forallb wf_param ps = true ->
    wf_param p = true ->
    length kv + length ps < MAX_AUTH_KEY_VAL ->
    length (sep ++ render_params ps ++ render_param p) < fuel ->
    parse_auth_params_loop fuel (sep ++ render_params ps ++ render_param p) kv
    = Done (kv ++ map plain_param (ps ++ [p]), None).
Proof.
  induction ps as [|[k v] ps IH]; intros fuel sep kv p Hsep Hps Hp Hn Hf.
  - destruct (wf_param_parts p Hp) as [Hk Hv].
    destruct fuel as [|fuel]; [lia|].
    unfold render_params, render_param. cbn [map concat app].
    change (fst p ++ L "=" ++ render_value (snd p))
      with (fst p ++ "="%char :: render_value (snd p)).
    rewrite parse_auth_params_one by (try assumption; simpl in Hn; lia).
    rewrite parse_auth_value_end by exact Hv.
    destruct fuel; reflexivity.
  - cbn [forallb] in Hps. apply andb_true_iff in Hps. destruct Hps as [Hkv Hps].
    destruct (wf_param_parts _ Hkv) as [Hk Hv]. cbn [fst snd] in Hk, Hv.
    destruct fuel as [|fuel]; [lia|].
    rewrite render_params_cons in *. cbn [fst snd] in *.
    assert (E : sep ++ (k ++ L "=" ++ render_value v ++ L ", " ++ render_params ps)
                    ++ render_param p
                = sep ++ k ++ "="%char
                      :: (render_value v ++ L ", " ++ render_params ps ++ render_param p)).
    { rewrite <- !app_assoc. reflexivity. }
    rewrite E in *.
    rewrite parse_auth_params_one by (try assumption; simpl in Hn; lia).
    rewrite parse_auth_value_rendered by exact Hv.
    rewrite (IH fuel (L ", ") (kv ++ [(k, value_text v)]) p);
      try assumption; try reflexivity.
    + rewrite <- app_assoc. reflexivity.
    + rewrite length_app. simpl in *. lia.
    + clear E IH. rewrite !length_app in *. cbn [length] in *.
      rewrite ?length_app in *. lia.
Qed.

Lemma final_params_head : forall ps p,
    forallb wf_param ps = true ->
    wf_param p = true ->
    match render_params ps ++ render_param p with
    | c :: _ => isspace c = false
    | [] => True
    end.
Proof.
  intros ps p Hps Hp. destruct ps as [|q ps].
  - destruct (wf_param_parts p Hp) as [Hk _].
    unfold wf_key in Hk. apply andb_true_iff in Hk. destruct Hk as [_ Hkc].
    unfold render_params, render_param. cbn [map concat app].
    destruct (fst p) as [|c k]; [reflexivity|].
    cbn [app]. cbn [forallb] in Hkc. apply andb_true_iff in Hkc.
    apply token_char_not_space. apply Hkc.
  - apply render_params_head; [discriminate|exact Hps].
Qed.

Lemma final_params_nonempty : forall ps p, render_params ps ++ render_param p <> [].
Proof.
  intros ps p H. apply (f_equal (@length ascii)) in H.
  rewrite length_app in H. unfold render_param in H.
  rewrite !length_app in H. simpl in H. lia.
Qed.

Lemma next_scheme_final : forall before target ps p,
    forallb wf_challenge before = true ->
    wf_token target = true ->
    exists tok after,
      render_challenges before ++ render_final target ps p = tok ++ after
      /\ wf_token tok = true /\ starts_sp_or_empty after = true.
Proof.
  intros before target ps p Hb Ht. unfold render_final.
  apply next_scheme_name; [exact Hb|exact Ht|reflexivity].
Qed.

(** The scan of a header value that ends with the target challenge. *)
Lemma scan_challenges_final : forall before fuel target ps p r,
    forallb wf_challenge before = true ->
    wf_token target = true ->
    forallb wf_param ps = true ->
    wf_param p = true ->
    length ps < MAX_AUTH_KEY_VAL ->
    is_token68 (render_params ps ++ render_param p) = false ->
    length before <= fuel ->
    length (auth_params r) = MAX_AUTH_KEY_VAL ->
    exists r',
      scan_challenges fuel target (render_challenges before ++ render_final target ps p) r
      = Done r'
      /\ return_code r' = 0%Z
      /\ returned_params r' = Some (map plain_param (ps ++ [p])).
Proof.
  induction before as [|[s qs] before IH];
    intros fuel target ps p r Hb Ht Hps Hp Hn H68 Hf Hlen.
  - cbn [render_challenges map concat app]. unfold render_final.
    rewrite scan_challenges_eq.
    rewrite parse_auth_scheme_token by (assumption || reflexivity).
    rewrite skip_leading_sp.
    rewrite skip_space_head by (apply final_params_head; assumption).
    cbv zeta. rewrite cstr_eqb_refl.
    pose proof (final_params_nonempty ps p) as Hne.
    destruct (render_params ps ++ render_param p) as [|e rest'] eqn:E; [congruence|].
    rewrite H68. unfold parse_auth_params. rewrite <- E.
    pose proof (parse_auth_params_final ps (S (length (render_params ps ++ render_param p)))
                  [] [] p) as F.
    cbn [app] in F. rewrite F; try assumption; try reflexivity; [|lia].
    eexists. split; [reflexivity|].
    unfold copy_params. cbn [return_code auth_params].
    rewrite Z.eqb_refl.
    replace (length (map plain_param (ps ++ [p])) =? 0) with false
      by (rewrite length_map, length_app; simpl; symmetry; apply Nat.eqb_neq; lia).
    cbn [andb negb return_code]. split; [reflexivity|].
    unfold returned_params. cbn [auth_paramcount auth_params].
    apply read_stored_params.
    rewrite length_map, length_app, Hlen. simpl. lia.
  - pose proof Hb as Hb0.
    cbn [forallb] in Hb. apply andb_true_iff in Hb. destruct Hb as [Hc Hb].
    destruct (wf_challenge_parts s qs Hc) as [Hs [Hne [Hl Hqs]]].
    destruct (next_scheme_final before target ps p Hb Ht) as [tok [after [Hnext [Htok Hafter]]]].
    match goal with
    | |- context [scan_challenges _ _ ?x _] =>
        assert (Hv : x = s ++ L " " ++ render_params qs ++ tok ++ after)
    end.
    { rewrite <- Hnext. unfold render_challenges. cbn [map concat].
      unfold render_challenge. cbn [fst snd]. rewrite <- !app_assoc. reflexivity. }
    rewrite Hv. rewrite scan_challenges_eq.
    rewrite parse_auth_scheme_token by (assumption || reflexivity).
    rewrite skip_leading_sp.
    rewrite skip_space_head by (apply render_params_head; assumption).
    cbv zeta.
    destruct (render_params_comma qs (tok ++ after) Hne) as [a [b Hab]].
    destruct (render_params qs ++ tok ++ after) as [|e rest'] eqn:E.
    { destruct a; discriminate. }
    assert (Hq : is_token68 (e :: rest') = false)
      by (rewrite Hab; apply is_token68_comma).
    rewrite Hq. clear Hq Hab a b.
    unfold parse_auth_params. rewrite <- E.
    pose proof (parse_auth_params_rendered qs
                  (S (length (render_params qs ++ tok ++ after))) [] [] tok after) as F.
    cbn [app] in F. rewrite F; try assumption; try reflexivity; [|lia].
    destruct fuel as [|fuel]; [simpl in Hf; lia|].
    rewrite <- Hnext.
    apply IH; try assumption; [simpl in Hf; lia|].
    rewrite copy_params_length.
    destruct (cstr_eqb s target); exact Hlen.
Qed.

(** ** The resolver on a message given by its lines *)

Lemma CheckAuthScheme_lines : forall start (hs : list (cstring * cstring)) body target,
    absent CRLF start = true ->
    forallb wf_header hs = true ->
    length hs <= MAX_HEADERS ->
    starts_wsp body = false ->
    CheckAuthScheme (start ++ CRLF ++ lines (map header_text hs) ++ CRLF ++ body) target
    = scan_headers target (map header_struct hs) auth_result_init.
Proof.
  intros start hs body target Hs Hw Hl Hb. unfold CheckAuthScheme.
  rewrite parse_message_app by exact Hs.
  rewrite parse_headers_lines_blank by assumption. reflexivity.
Qed.

Lemma is_token68_dquote : forall a b, is_token68 (a ++ DQUOTE :: b) = false.
Proof.
  intros a b. unfold is_token68. rewrite forallb_app. cbn [forallb].
  replace (isalnum DQUOTE || Ascii.eqb DQUOTE "+" || Ascii.eqb DQUOTE "/"
           || Ascii.eqb DQUOTE "=") with false by reflexivity.
  cbn [andb]. apply andb_false_r.
Qed.

Lemma no_challenge_app : forall a b,
    no_challenge (a ++ b) = no_challenge a && no_challenge b.
Proof. intros a b. unfold no_challenge. apply forallb_app. Qed.

(** One WWW-Authenticate header whose value ends with the target
    challenge, among headers that are no challenge. *)
Lemma scan_headers_single : forall hs1 h hs2 target before ps p,
    no_challenge hs1 = true ->
    no_challenge hs2 = true ->
    is_www_authenticate h = true ->
    get_trimmed_string (field_value h)
    = render_challenges before ++ render_final target ps p ->
    forallb wf_challenge before = true ->
    wf_token target = true ->
    forallb wf_param ps = true ->
    wf_param p = true ->
    length ps < MAX_AUTH_KEY_VAL ->
    is_token68 (render_params ps ++ render_param p) = false ->
    exists r,
      scan_headers target (hs1 ++ h :: hs2) auth_result_init = Done r
      /\ return_code r = 0%Z
      /\ returned_params r = Some (map plain_param (ps ++ [p])).
Proof.
  intros hs1 h hs2 target before ps p H1 H2 Hh Hv Hb Ht Hps Hp Hn H68.
  destruct (scan_challenges_final before
              (length (render_challenges before ++ render_final target ps p))
              target ps p auth_result_init Hb Ht Hps Hp Hn H68)
    as (r & Hr & Hc & Hk); [apply render_challenges_length|reflexivity|].
  exists r. split; [|split; assumption].
  assert (E : forall r0, scan_headers target (hs1 ++ h :: hs2) r0
                         = scan_headers target (h :: hs2) r0).
  { clear - H1. induction hs1 as [|x hs1 IH]; intros r0; [reflexivity|].
    unfold no_challenge in H1. cbn [forallb] in H1.
    apply andb_true_iff in H1. destruct H1 as [Hx H1]. apply negb_true_iff in Hx.
    cbn [app scan_headers]. rewrite Hx. apply IH. exact H1. }
  rewrite E. cbn [scan_headers]. rewrite Hh, Hv, Hr.
  apply scan_headers_no_challenge. exact H2.
Qed.

End Challenge.

(** X6.  In a message of at most [MAX_HEADERS] header lines without
    WWW-Authenticate header, whose body does not start with a blank or a
    tab, [CheckAuthScheme] returns -10 and writes neither the caller's
    arrays nor the count; [GetAuthSchemeBasic] and [GetAuthSchemeDigest]
    then return -1 with empty data. *)
Theorem CheckAuthScheme_without_challenge :
  forall (start : cstring) (hs : list (cstring * cstring)) (body target : cstring),
    absent CRLF start = true ->
    forallb wf_header hs = true ->
    (length hs <= MAX_HEADERS)%nat ->
    starts_wsp body = false ->
    no_challenge (map header_struct hs) = true ->
    let buffer := start ++ CRLF ++ lines (map header_text hs) ++ CRLF ++ body in
    CheckAuthScheme buffer target
    = Done (mkAuthResult (-10) (repeat None MAX_AUTH_KEY_VAL) None)
    /\ GetAuthSchemeBasic buffer = Some ((-1)%Z, mkBasicAuthData [])
    /\ GetAuthSchemeDigest buffer = Some ((-1)%Z, digest_data_init).
Proof.
  intros start hs body target Hs Hw Hl Hb Hn buffer.
  assert (E : forall t, CheckAuthScheme buffer t = Done auth_result_init).
  { intros t. unfold buffer. rewrite CheckAuthScheme_lines by assumption.
    apply scan_headers_no_challenge. exact Hn. }
  split; [apply E|].
  unfold GetAuthSchemeBasic, GetAuthSchemeDigest. rewrite !E. split; reflexivity.
Qed.

Lemma CheckAuthScheme_without_challenge_witness :
  let buffer := L "RTSP/1.0 200 OK" ++ CRLF
                ++ lines (map header_text [(L "CSeq", L " 2"); (L "Public", L " DESCRIBE")])
                ++ CRLF ++ [] in
  CheckAuthScheme buffer (L "Digest")
  = Done (mkAuthResult (-10) (repeat None MAX_AUTH_KEY_VAL) None)
  /\ GetAuthSchemeBasic buffer = Some ((-1)%Z, mkBasicAuthData [])
  /\ GetAuthSchemeDigest buffer = Some ((-1)%Z, digest_data_init).
Proof.
  apply CheckAuthScheme_without_challenge;
    [reflexivity|reflexivity|vm_compute; lia|reflexivity|reflexivity].
Defined.

(** X7.  One header line without colon, or one that reaches the line
    cap, among the first [MAX_HEADERS] header lines makes
    [CheckAuthScheme] return -2 for the whole message, also when a
    header before that line carries the challenge looked for (neither
    that line nor the text after it starting with a blank or a tab). *)
Theorem CheckAuthScheme_malformed_header :
  forall (start : cstring) (good : list cstring) (bad rest target : cstring),
    absent CRLF start = true ->
    Forall (fun l => header_line l = true) good ->
    (length good < MAX_HEADERS)%nat ->
    bad <> [] ->
    starts_wsp bad = false ->
    logical_line bad = true ->
    starts_wsp rest = false ->
    (MAX_HEADER_LINE <= length bad)%nat \/ has_colon bad = false ->
    CheckAuthScheme (start ++ CRLF ++ lines good ++ bad ++ CRLF ++ rest) target
    = Done (mkAuthResult (-2) (repeat None MAX_AUTH_KEY_VAL) None).
Proof.
  intros start good bad rest target Hs Hg Hl Hne Hw Hb Hr Hbad.
  unfold CheckAuthScheme. rewrite parse_message_app by exact Hs.
  assert (E : fst (parse_headers (lines good ++ bad ++ CRLF ++ rest)) = (-1)%Z).
  { unfold parse_headers.
    rewrite parse_headers_loop_lines;
      [|exact Hg|rewrite starts_wsp_app by exact Hne; exact Hw].
    replace (length good <=? MAX_HEADERS)%nat with true
      by (symmetry; apply Nat.leb_le; lia).
    replace (MAX_HEADERS - length good)%nat
      with (S (MAX_HEADERS - length good - 1)) by lia.
    apply parse_headers_loop_bad; assumption. }
  destruct (parse_headers (lines good ++ bad ++ CRLF ++ rest)) as [z headers].
  cbn [fst] in E. subst z. reflexivity.
Qed.

Lemma CheckAuthScheme_malformed_header_witness :
  CheckAuthScheme
    (L "RTSP/1.0 401 Unauthorized" ++ CRLF
     ++ lines [L "WWW-Authenticate: Basic realm=x"]
     ++ L "Server camera" ++ CRLF ++ CRLF) (L "Basic")
  = Done (mkAuthResult (-2) (repeat None MAX_AUTH_KEY_VAL) None).
Proof.
  apply CheckAuthScheme_malformed_header;
    [reflexivity|repeat constructor|vm_compute; lia|discriminate|reflexivity
    |reflexivity|reflexivity|right; reflexivity].
Defined.

(** X8.  When the challenge of the scheme looked for is the last
    challenge of the message (it ends the value of the last
    WWW-Authenticate header) and is not a single unquoted parameter made
    of letters, digits, [+], [/] and [=] only, [CheckAuthScheme], as
    long as it stays inside its parameter arrays, returns 0 and hands
    back exactly the parameters of this challenge, in their order, the
    quotes of quoted values removed. *)
Theorem CheckAuthScheme_last_challenge_params :
  forall (buffer headers_start : cstring) (hs1 hs2 : HeaderStructList) (h : HeaderStruct)
         (before : list challenge) (target : cstring)
         (ps : list challenge_param) (p : challenge_param),
    parse_message buffer = Some headers_start ->
    parse_headers headers_start = (0%Z, hs1 ++ h :: hs2) ->
    is_www_authenticate h = true ->
    no_challenge hs2 = true ->
    get_trimmed_string (field_value h)
    = render_challenges before ++ render_final target ps p ->
    forallb wf_challenge before = true ->
    wf_token target = true ->
    forallb wf_param ps = true ->
    wf_param p = true ->
    (length ps < MAX_AUTH_KEY_VAL)%nat ->
    is_token68 (render_params ps ++ render_param p) = false ->
    CheckAuthScheme buffer target <> Undefined ->
    exists r,
      CheckAuthScheme buffer target = Done r
      /\ return_code r = 0%Z
      /\ returned_params r = Some (map plain_param (ps ++ [p])).
Proof.
  intros buffer headers_start hs1 hs2 h before target ps p
         Hm Hh Hw H2 Hv Hb Ht Hps Hp Hn H68 Hdef.
  pose proof (CheckAuthScheme_terminates buffer target) as Hterm.
  destruct (CheckAuthScheme buffer target) as [r| |] eqn:E; try congruence.
  exists r. split; [reflexivity|].
  unfold CheckAuthScheme in E. rewrite Hm, Hh in E.
  apply scan_headers_app in E. destruct E as (r1 & E1 & E2).
  cbn [scan_headers] in E2. rewrite Hw, Hv in E2.
  destruct (scan_challenges_final before
              (length (render_challenges before ++ render_final target ps p))
              target ps p r1 Hb Ht Hps Hp Hn H68)
    as (r2 & Hr & Hc & Hk).
  - apply render_challenges_length.
  - rewrite (scan_headers_length _ _ _ _ E1). reflexivity.
  - rewrite Hr in E2. rewrite scan_headers_no_challenge in E2 by exact H2.
    inversion E2; subst. split; assumption.
Qed.

Lemma CheckAuthScheme_last_challenge_params_witness :
  exists r,
    CheckAuthScheme challenge_digest_comma_basic (L "Basic") = Done r
    /\ return_code r = 0%Z
    /\ returned_params r = Some [(L "realm", L "other")].
Proof.
  apply (CheckAuthScheme_last_challenge_params
           challenge_digest_comma_basic
           (skipn 27 challenge_digest_comma_basic)
           [mkHeader (L "CSeq") (L " 1")] []
           (mkHeader (L "WWW-Authenticate")
              (L " Digest realm=" ++ quoted (L "cam") ++ L ", nonce=" ++ quoted (L "abc")
               ++ L ", Basic realm=" ++ quoted (L "other")))
           [(L "Digest", [(L "realm", Quoted (L "cam")); (L "nonce", Quoted (L "abc"))])]
           (L "Basic") [] (L "realm", Quoted (L "other")));
    try (vm_compute; reflexivity).
  - vm_compute. lia.
  - vm_compute. discriminate.
Defined.

Section ChallengeData.

Local Open Scope nat_scope.

Lemma trimmed_value : forall lead x,
    all_space lead = true ->
    starts_space (x ++ [DQUOTE]) = false ->
    get_trimmed_string (trim_whitespace (lead ++ x ++ [DQUOTE])) = x ++ [DQUOTE].
Proof.
  intros lead x Hl Hx.
  rewrite <- (app_nil_r (x ++ [DQUOTE])) at 1.
  rewrite trim_whitespace_lead_core by (auto; reflexivity).
  rewrite <- (app_nil_r (x ++ [DQUOTE])) at 1. rewrite app_assoc.
  rewrite <- (app_assoc lead).
  apply get_trimmed_string_lead_core; auto; reflexivity.
Qed.

Lemma wf_quoted : forall k v,
    wf_key k = true -> length v < MAX_TOKEN -> quoted_ok DQUOTE v = true ->
    wf_param (k, Quoted v) = true.
Proof.
  intros k v Hk Hl Hq. unfold wf_param, wf_value. cbn [fst snd].
  rewrite Hk, Hq. apply Nat.ltb_lt in Hl. rewrite Hl. reflexivity.
Qed.

(** The resolver on a message whose only challenge is [scheme] with the
    parameters [ps] and [p]. *)
Lemma CheckAuthScheme_single : forall start hs1 hs2 body name lead target ps p x,
    let h := (name, lead ++ x ++ [DQUOTE]) in
    absent CRLF start = true ->
    forallb wf_header (hs1 ++ h :: hs2) = true ->
    length (hs1 ++ h :: hs2) <= MAX_HEADERS ->
    starts_wsp body = false ->
    no_challenge (map header_struct hs1) = true ->
    no_challenge (map header_struct hs2) = true ->
    is_www_authenticate (header_struct h) = true ->
    all_space lead = true ->
    starts_space (x ++ [DQUOTE]) = false ->
    x ++ [DQUOTE] = render_final target ps p ->
    wf_token target = true ->
    forallb wf_param ps = true ->
    wf_param p = true ->
    length ps < MAX_AUTH_KEY_VAL ->
    is_token68 (render_params ps ++ render_param p) = false ->
    exists r,
      CheckAuthScheme
        (start ++ CRLF ++ lines (map header_text (hs1 ++ h :: hs2)) ++ CRLF ++ body) target
      = Done r
      /\ return_code r = 0%Z
      /\ returned_params r = Some (map plain_param (ps ++ [p])).
Proof.
  intros start hs1 hs2 body name lead target ps p x h
         Hs Hw Hl Hb H1 H2 Hh Hlead Hx Hr Ht Hps Hp Hn H68.
  rewrite CheckAuthScheme_lines by assumption.
  rewrite map_app. cbn [map].
  apply (scan_headers_single _ _ _ target []); try assumption.
  - unfold h, header_struct. cbn [fst snd field_value].
    rewrite trimmed_value by assumption. exact Hr.
  - reflexivity.
Qed.

Lemma digest_challenge_final : forall realm nonce_value,
    digest_challenge realm nonce_value
    = (L "Digest realm=" ++ quoted realm ++ L ", nonce=" ++ DQUOTE :: nonce_value)
      ++ [DQUOTE]
    /\ digest_challenge realm nonce_value
       = render_final (L "Digest") [(L "realm", Quoted realm)]
           (L "nonce", Quoted nonce_value).
Proof.
  intros realm nonce_value.
  unfold digest_challenge, render_final, render_params, render_param, quoted.
  cbn [map concat fst snd render_value]. unfold quoted.
  rewrite <- !app_assoc. cbn [app L list_ascii_of_string].
  rewrite <- !app_assoc. split; reflexivity.
Qed.

Lemma basic_challenge_final : forall realm,
    basic_challenge realm = (L "Basic realm=" ++ DQUOTE :: realm) ++ [DQUOTE]
    /\ basic_challenge realm = render_final (L "Basic") [] (L "realm", Quoted realm).
Proof.
  intros realm.
  unfold basic_challenge, render_final, render_params, render_param, quoted.
  cbn [map concat fst snd render_value]. unfold quoted.
  rewrite <- !app_assoc. cbn [app L list_ascii_of_string]. split; reflexivity.
Qed.

End ChallengeData.

(** X9.  From a message whose only challenge is
    [Digest realm="...", nonce="..."] (the body of the message not
    starting with a blank or a tab, the two quoted texts shorter than
    [MAX_TOKEN], without unescaped double quote and not ending in a
    backslash), [GetAuthSchemeDigest] returns 0 with the realm and the
    nonce in [rx_realm] and [nonce] and the other fields empty, as long
    as the realm is shorter than the 32 characters of [rx_realm] and the
    nonce shorter than the 64 characters of [nonce]; a realm of 32
    characters or more, or a nonce of 64 or more, is copied past the end
    of its array. *)
Theorem GetAuthSchemeDigest_realm_nonce :
  forall (start : cstring) (hs1 hs2 : list (cstring * cstring))
         (body name lead realm nonce_value : cstring),
    let h := (name, lead ++ digest_challenge realm nonce_value) in
    let buffer := start ++ CRLF ++ lines (map header_text (hs1 ++ h :: hs2))
                  ++ CRLF ++ body in
    absent CRLF start = true ->
    forallb wf_header (hs1 ++ h :: hs2) = true ->
    (length (hs1 ++ h :: hs2) <= MAX_HEADERS)%nat ->
    starts_wsp body = false ->
    no_challenge (map header_struct hs1) = true ->
    no_challenge (map header_struct hs2) = true ->
    is_www_authenticate (header_struct h) = true ->
    all_space lead = true ->
    (length realm < MAX_TOKEN)%nat ->
    quoted_ok DQUOTE realm = true ->
    (length nonce_value < MAX_TOKEN)%nat ->
    quoted_ok DQUOTE nonce_value = true ->
    ((length realm < 32)%nat -> (length nonce_value < 64)%nat ->
     GetAuthSchemeDigest buffer
     = Some (0%Z, mkDigestAuthData nonce_value [] [] [] [] realm [] []))
    /\ ((32 <= length realm)%nat \/ (64 <= length nonce_value)%nat ->
        GetAuthSchemeDigest buffer = None).
Proof.
  intros start hs1 hs2 body name lead realm nonce_value h buffer
         Hs Hw Hl Hb H1 H2 Hh Hlead Hrl Hrq Hnl Hnq.
  destruct (digest_challenge_final realm nonce_value) as [Ex Er].
  assert (Hc : exists r,
             CheckAuthScheme buffer (L "Digest") = Done r
             /\ return_code r = 0%Z
             /\ returned_params r
                = Some [(L "realm", realm); (L "nonce", nonce_value)]).
  { unfold buffer, h in *. rewrite Ex in *.
    apply (CheckAuthScheme_single start hs1 hs2 body name lead (L "Digest")
             [(L "realm", Quoted realm)] (L "nonce", Quoted nonce_value));
      try assumption; try reflexivity.
    - cbn [forallb]. rewrite wf_quoted by (assumption || reflexivity). reflexivity.
    - apply wf_quoted; [reflexivity|exact Hnl|exact Hnq].
    - vm_compute. lia. }
  destruct Hc as (r & Hr & Hc & Hk).
  unfold GetAuthSchemeDigest. rewrite Hr. cbn [defined obind]. rewrite Hc.
  cbn [Z.eqb]. rewrite Hk. cbn [obind digest_store_all digest_store].
  unfold store_if.
  repeat match goal with
    | |- context [cstr_eqb ?a ?b] =>
        let v := eval vm_compute in (cstr_eqb a b) in
        change (cstr_eqb a b) with v
    end.
  cbn [obind digest_data_init nonce nc cnonce qop uri rx_realm opaque algorithm].
  split.
  - intros Hlen Hnonce. rewrite (fits_lt 32 realm Hlen). cbn [obind].
    rewrite (fits_lt 64 nonce_value Hnonce). reflexivity.
  - intros Hlong. destruct (Nat.lt_ge_cases (length realm) 32) as [Hlen|Hlen].
    + destruct Hlong as [Hlong|Hlong]; [lia|].
      rewrite (fits_lt 32 realm Hlen). cbn [obind].
      unfold fits. replace (length nonce_value <? 64)%nat with false
        by (symmetry; apply Nat.ltb_ge; exact Hlong).
      reflexivity.
    + unfold fits at 1. replace (length realm <? 32)%nat with false
        by (symmetry; apply Nat.ltb_ge; exact Hlen).
      reflexivity.
Qed.

Lemma GetAuthSchemeDigest_realm_nonce_witness :
  GetAuthSchemeDigest
    (L "RTSP/1.0 401 Unauthorized" ++ CRLF
     ++ lines (map header_text
                 ([(L "CSeq", L " 1")]
                  ++ (L "WWW-Authenticate", L " " ++ digest_challenge (L "cam") (L "abc"))
                  :: [(L "Server", L " camera")]))
     ++ CRLF ++ [])
  = Some (0%Z, mkDigestAuthData (L "abc") [] [] [] [] (L "cam") [] [])
  /\ GetAuthSchemeDigest
       (L "RTSP/1.0 401 Unauthorized" ++ CRLF
        ++ lines (map header_text
                    ([(L "CSeq", L " 1")]
                     ++ (L "WWW-Authenticate",
                         L " " ++ digest_challenge (L "cam") (repeat "a"%char 64))
                     :: [(L "Server", L " camera")]))
        ++ CRLF ++ [])
     = None.
Proof.
  split.
  - pose proof (GetAuthSchemeDigest_realm_nonce
                  (L "RTSP/1.0 401 Unauthorized") [(L "CSeq", L " 1")]
                  [(L "Server", L " camera")] [] (L "WWW-Authenticate") (L " ")
                  (L "cam") (L "abc")) as H.
    cbv zeta in H. apply H; try reflexivity; vm_compute; lia.
  - pose proof (GetAuthSchemeDigest_realm_nonce
                  (L "RTSP/1.0 401 Unauthorized") [(L "CSeq", L " 1")]
                  [(L "Server", L " camera")] [] (L "WWW-Authenticate") (L " ")
                  (L "cam") (repeat "a"%char 64)) as H.
    cbv zeta in H. apply H; try reflexivity; vm_compute; lia.
Defined.

(** X10.  From a message whose only challenge is [Basic realm="..."]
    (the body of the message not starting with a blank or a tab),
    [GetAuthSchemeBasic] returns 0 with the realm in [rx_realm], as long
    as the realm is shorter than the 128 characters of [rx_realm]; a
    longer realm is copied past its end. *)
Theorem GetAuthSchemeBasic_realm :
  forall (start : cstring) (hs1 hs2 : list (cstring * cstring))
         (body name lead realm : cstring),
    let h := (name, lead ++ basic_challenge realm) in
    let buffer := start ++ CRLF ++ lines (map header_text (hs1 ++ h :: hs2))
                  ++ CRLF ++ body in
    absent CRLF start = true ->
    forallb wf_header (hs1 ++ h :: hs2) = true ->
    (length (hs1 ++ h :: hs2) <= MAX_HEADERS)%nat ->
    starts_wsp body = false ->
    no_challenge (map header_struct hs1) = true ->
    no_challenge (map header_struct hs2) = true ->
    is_www_authenticate (header_struct h) = true ->
    all_space lead = true ->
    (length realm < MAX_TOKEN)%nat ->
    quoted_ok DQUOTE realm = true ->
    ((length realm < 128)%nat ->
     GetAuthSchemeBasic buffer = Some (0%Z, mkBasicAuthData realm))
    /\ ((128 <= length realm)%nat -> GetAuthSchemeBasic buffer = None).
Proof.
  intros start hs1 hs2 body name lead realm h buffer
         Hs Hw Hl Hb H1 H2 Hh Hlead Hrl Hrq.
  destruct (basic_challenge_final realm) as [Ex Er].
  assert (Hc : exists r,
             CheckAuthScheme buffer (L "Basic") = Done r
             /\ return_code r = 0%Z
             /\ returned_params r = Some [(L "realm", realm)]).
  { unfold buffer, h in *. rewrite Ex in *.
    apply (CheckAuthScheme_single start hs1 hs2 body name lead (L "Basic")
             [] (L "realm", Quoted realm));
      try assumption; try reflexivity.
    - apply wf_quoted; [reflexivity|exact Hrl|exact Hrq].
    - vm_compute. lia. }
  destruct Hc as (r & Hr & Hc & Hk).
  unfold GetAuthSchemeBasic. rewrite Hr. cbn [defined obind]. rewrite Hc.
  cbn [Z.eqb]. rewrite Hk. cbn [obind basic_store_all]. unfold basic_store.
  cbn [fst snd].
  change (cstr_eqb (L "realm") (L "realm")) with true. cbv iota.
  split; intros Hlen.
  - rewrite (fits_lt 128 realm Hlen). reflexivity.
  - unfold fits. replace (length realm <? 128)%nat with false
      by (symmetry; apply Nat.ltb_ge; exact Hlen).
    reflexivity.
Qed.

Lemma GetAuthSchemeBasic_realm_witness :
  GetAuthSchemeBasic
    (L "RTSP/1.0 401 Unauthorized" ++ CRLF
     ++ lines (map header_text
                 ([(L "CSeq", L " 1")]
                  ++ (L "WWW-Authenticate", L " " ++ basic_challenge (L "cam"))
                  :: []))
     ++ CRLF ++ [])
  = Some (0%Z, mkBasicAuthData (L "cam")).
Proof.
  pose proof (GetAuthSchemeBasic_realm
                (L "RTSP/1.0 401 Unauthorized") [(L "CSeq", L " 1")]
                [] [] (L "WWW-Authenticate") (L " ") (L "cam")) as H.
  cbv zeta in H. apply H; try reflexivity; vm_compute; lia.
Defined.

Section Token68.

Local Open Scope nat_scope.

Lemma token68_char_not_space : forall c,
    (isalnum c || Ascii.eqb c "+" || Ascii.eqb c "/" || Ascii.eqb c "=") = true ->
    isspace c = false.
Proof.
  intros [b0 b1 b2 b3 b4 b5 b6 b7] H.
  destruct b0, b1, b2, b3, b4, b5, b6, b7; try reflexivity; vm_compute in H; discriminate.
Qed.

Lemma is_token68_no_space : forall s, is_token68 s = true -> forallb (fun c => negb (isspace c)) s = true.
Proof.
  intros s H. unfold is_token68 in H. rewrite forallb_forall in *.
  intros c Hc. rewrite (token68_char_not_space c (H c Hc)). reflexivity.
Qed.

Lemma scan_headers_one : forall hs1 h hs2 target r,
    no_challenge hs1 = true ->
    no_challenge hs2 = true ->
    is_www_authenticate h = true ->
    scan_challenges (length (get_trimmed_string (field_value h))) target
      (get_trimmed_string (field_value h)) auth_result_init = Done r ->
    scan_headers target (hs1 ++ h :: hs2) auth_result_init = Done r.
Proof.
  intros hs1 h hs2 target r H1 H2 Hh Hr.
  assert (E : forall r0, scan_headers target (hs1 ++ h :: hs2) r0
                         = scan_headers target (h :: hs2) r0).
  { clear - H1. induction hs1 as [|x hs1 IH]; intros r0; [reflexivity|].
    unfold no_challenge in H1. cbn [forallb] in H1.
    apply andb_true_iff in H1. destruct H1 as [Hx H1]. apply negb_true_iff in Hx.
    cbn [app scan_headers]. rewrite Hx. apply IH. exact H1. }
  rewrite E. cbn [scan_headers]. rewrite Hh, Hr.
  apply scan_headers_no_challenge. exact H2.
Qed.

Lemma nonspace_core : forall s,
    s <> [] ->
    forallb (fun c => negb (isspace c)) s = true ->
    exists x c, s = x ++ [c] /\ isspace c = false /\ starts_space (x ++ [c]) = false.
Proof.
  intros s Hne H.
  destruct (exists_last Hne) as (x & c & ->).
  exists x, c. split; [reflexivity|].
  rewrite forallb_forall in H. split.
  - apply negb_true_iff. apply H. apply in_or_app. right. left. reflexivity.
  - destruct x as [|d x]; cbn [app starts_space];
      apply negb_true_iff; apply H; [left; reflexivity|left; reflexivity].
Qed.

End Token68.

Section Token68Scan.

Local Open Scope nat_scope.

Lemma trimmed_core : forall lead x c,
    all_space lead = true ->
    starts_space (x ++ [c]) = false ->
    isspace c = false ->
    get_trimmed_string (trim_whitespace (lead ++ x ++ [c])) = x ++ [c].
Proof.
  intros lead x c Hl Hx Hc.
  rewrite <- (app_nil_r (x ++ [c])) at 1.
  rewrite trim_whitespace_lead_core by (auto; reflexivity).
  rewrite <- (app_nil_r (x ++ [c])) at 1. rewrite app_assoc.
  rewrite <- (app_assoc lead).
  apply get_trimmed_string_lead_core; auto; reflexivity.
Qed.

Lemma scan_challenges_token68 : forall fuel target rest r,
    wf_token target = true ->
    rest <> [] ->
    is_token68 rest = true ->
    scan_challenges fuel target (target ++ L " " ++ rest) r
    = Done (set_single (mkAuthResult 0 (auth_params r) (auth_paramcount r))
              (L "Token68") rest).
Proof.
  intros fuel target rest r Ht Hne H68.
  rewrite scan_challenges_eq.
  rewrite parse_auth_scheme_token by (assumption || reflexivity).
  rewrite skip_leading_sp.
  pose proof (is_token68_no_space rest H68) as Hs.
  destruct rest as [|e rest']; [congruence|].
  rewrite skip_space_head
    by (cbn [forallb] in Hs; apply andb_true_iff in Hs; apply negb_true_iff; apply Hs).
  cbv zeta. rewrite cstr_eqb_refl, H68. reflexivity.
Qed.

End Token68Scan.

(** X11.  A challenge, the only one of a message whose body does not
    start with a blank or a tab, whose text after the scheme name
    consists of letters, digits, [+], [/] and [=] only (such as an
    unquoted [realm=abc]) is not split into key and value:
    [CheckAuthScheme] returns 0 with the single pair [Token68] and that
    text. *)
Theorem CheckAuthScheme_token68 :
  forall (start : cstring) (hs1 hs2 : list (cstring * cstring))
         (body name lead target rest : cstring),
    let h := (name, lead ++ target ++ L " " ++ rest) in
    let buffer := start ++ CRLF ++ lines (map header_text (hs1 ++ h :: hs2))
                  ++ CRLF ++ body in
    absent CRLF start = true ->
    forallb wf_header (hs1 ++ h :: hs2) = true ->
    (length (hs1 ++ h :: hs2) <= MAX_HEADERS)%nat ->
    starts_wsp body = false ->
    no_challenge (map header_struct hs1) = true ->
    no_challenge (map header_struct hs2) = true ->
    is_www_authenticate (header_struct h) = true ->
    all_space lead = true ->
    wf_token target = true ->
    rest <> [] ->
    is_token68 rest = true ->
    exists r,
      CheckAuthScheme buffer target = Done r
      /\ return_code r = 0%Z
      /\ returned_params r = Some [(L "Token68", rest)].
Proof.
  intros start hs1 hs2 body name lead target rest h buffer
         Hs Hw Hl Hb H1 H2 Hh Hlead Ht Hne H68.
  unfold buffer. rewrite CheckAuthScheme_lines by assumption.
  rewrite map_app. cbn [map].
  eexists. split.
  - apply scan_headers_one; try assumption.
    unfold h, header_struct. cbn [fst snd field_value].
    destruct (nonspace_core rest Hne (is_token68_no_space rest H68))
      as (y & c & Hy & Hc & _).
    assert (E : target ++ L " " ++ rest = (target ++ L " " ++ y) ++ [c])
      by (rewrite Hy, <- !app_assoc; reflexivity).
    rewrite E. rewrite trimmed_core; try assumption.
    + rewrite <- E. apply scan_challenges_token68; assumption.
    + destruct (wf_token_parts target Ht) as [Hn [_ Hc']].
      destruct target as [|d target]; [congruence|].
      cbn [app starts_space]. cbn [forallb] in Hc'.
      apply andb_true_iff in Hc'. apply token_char_not_space. apply Hc'.
  - split; reflexivity.
Qed.

Lemma CheckAuthScheme_token68_witness :
  exists r,
    CheckAuthScheme
      (L "RTSP/1.0 401 Unauthorized" ++ CRLF
       ++ lines (map header_text
                   ([(L "CSeq", L " 1")]
                    ++ (L "WWW-Authenticate", L " " ++ L "Digest" ++ L " " ++ L "realm=abc")
                    :: []))
       ++ CRLF ++ []) (L "Digest")
    = Done r
    /\ return_code r = 0%Z
    /\ returned_params r = Some [(L "Token68", L "realm=abc")].
Proof.
  pose proof (CheckAuthScheme_token68
                (L "RTSP/1.0 401 Unauthorized") [(L "CSeq", L " 1")]
                [] [] (L "WWW-Authenticate") (L " ") (L "Digest") (L "realm=abc")) as H.
  cbv zeta in H. apply H; try reflexivity; try discriminate. vm_compute. lia.
Defined.
(* ===================================================================== *)
(** * The resolver on later challenges *)
(* ===================================================================== *)

Section Missed.

Local Open Scope nat_scope.



End Missed.




(** Two header instances, one Basic and one Digest: both schemes are
    found, whichever instance comes first. *)
Example two_instances_either_order :
  option_map return_code (defined (CheckAuthScheme challenge_basic_then_digest (L "Basic")))
  = Some 0%Z
  /\ option_map return_code (defined (CheckAuthScheme challenge_basic_then_digest (L "Digest")))
     = Some 0%Z
  /\ option_map return_code (defined (CheckAuthScheme challenge_digest_then_basic (L "Basic")))
     = Some 0%Z
  /\ option_map return_code (defined (CheckAuthScheme challenge_digest_then_basic (L "Digest")))
     = Some 0%Z.
Proof. repeat split; vm_compute; reflexivity. Qed.

(* ===================================================================== *)
(** * Identifiers and numbers in text *)
(* ===================================================================== *)

Section Digits.

Lemma digits_length : forall k fuel base n acc,
    1 < base ->
    0 <= n < base ^ Z.of_nat (S k) ->
    (k < fuel)%nat ->
    (S (length acc) <= length (digits fuel base n acc) <= S k + length acc)%nat.
Proof.
  induction k as [|k IH]; intros fuel base n acc Hb Hn Hf.
  - destruct fuel as [|fuel]; [lia|]. cbn [digits].
    replace (n / base) with 0 by (symmetry; apply Z.div_small; lia).
    cbn [Z.eqb length]. lia.
  - destruct fuel as [|fuel]; [lia|]. cbn [digits].
    destruct (n / base =? 0) eqn:E; [cbn [length]; lia|].
    assert (Hq : 0 <= n / base < base ^ Z.of_nat (S k)).
    { split; [apply Z.div_pos; lia|].
      apply Z.div_lt_upper_bound; [lia|].
      replace (Z.of_nat (S (S k))) with (Z.succ (Z.of_nat (S k))) in Hn by lia.
      rewrite Z.pow_succ_r in Hn by lia. lia. }
    specialize (IH fuel base (n / base) (digit_char (n mod base) :: acc) Hb Hq).
    cbn [length] in IH. lia.
Qed.

Lemma digits_hex : forall fuel n acc,
    0 <= n ->
    forallb is_hex acc = true ->
    forallb is_hex (digits fuel 16 n acc) = true.
Proof.
  induction fuel as [|fuel IH]; intros n acc Hn Ha; [exact Ha|].
  cbn [digits].
  assert (Hd : forallb is_hex (digit_char (n mod 16) :: acc) = true).
  { cbn [forallb]. rewrite digit_char_hex by (apply Z.mod_pos_bound; lia). exact Ha. }
  destruct (n / 16 =? 0); [exact Hd|].
  apply IH; [apply Z.div_pos; lia|exact Hd].
Qed.

Lemma forallb_repeat : forall (f : ascii -> bool) c k,
    f c = true -> forallb f (repeat c k) = true.
Proof.
  intros f c k H. induction k as [|k IH]; [reflexivity|].
  cbn [repeat forallb]. rewrite H. exact IH.
Qed.

(** ["%08lx"] of a 32-bit value: eight hexadecimal digits. *)
Lemma fmt_08lx_hex8 : forall n,
    0 <= n < 2 ^ 32 ->
    length (fmt_08lx n) = 8%nat /\ forallb is_hex (fmt_08lx n) = true.
Proof.
  intros n Hn. unfold fmt_08lx, pad_left.
  pose proof (digits_length 7 64 16 n [] ltac:(lia) ltac:(simpl; lia) ltac:(lia)) as Hl.
  cbn [length] in Hl. split.
  - rewrite length_app, repeat_length. lia.
  - rewrite forallb_app, forallb_repeat by reflexivity.
    apply digits_hex; [lia|reflexivity].
Qed.

(** ["%8ld"] of a 31-bit value: eight to ten characters. *)
Lemma fmt_8ld_length : forall n,
    0 <= n < 2 ^ 31 ->
    (8 <= length (fmt_8ld n) <= 10)%nat.
Proof.
  intros n Hn. unfold fmt_8ld, pad_left, fmt_d.
  replace (n <? 0) with false by (symmetry; apply Z.ltb_ge; lia).
  pose proof (digits_length 9 64 10 n [] ltac:(lia) ltac:(simpl; lia) ltac:(lia)) as Hl.
  cbn [length] in Hl. rewrite length_app, repeat_length. lia.
Qed.

End Digits.

(** X12.  With [random()] in its range (0 to 2^31 - 1), the identifiers
    that the SIP speaker generates fit their arrays and have the shape
    the requests need: the source tag is eight hexadecimal digits, the
    branch is the cookie [z9hG4bK] (with [i-]) and 32 hexadecimal digits,
    the session id is [158] and a number in a field of eight to ten
    characters; they take one, four and one random numbers. *)
Theorem generated_identifiers :
  forall (player : RtspPlayer) (w : World),
    (forall k, 0 <= random_results w k < 2 ^ 31) ->
    (exists t w',
        generateSrcTag player w = Some (set_src_tag player t, w')
        /\ length t = 8%nat /\ forallb is_hex t = true
        /\ random_calls w' = S (random_calls w))
    /\ (exists t w',
           generateBranch player w = Some (set_branch_id player (L "z9hG4bKi-" ++ t), w')
           /\ length t = 32%nat /\ forallb is_hex t = true
           /\ random_calls w' = (4 + random_calls w)%nat)
    /\ (exists t w',
           generateSessionId player w = Some (set_session_id player (L "158" ++ t), w')
           /\ (8 <= length t <= 10)%nat
           /\ random_calls w' = S (random_calls w)).
Proof.
  intros player w Hr.
  assert (H8 : forall k, length (fmt_08lx (random_results w k)) = 8%nat
                         /\ forallb is_hex (fmt_08lx (random_results w k)) = true).
  { intros k. apply fmt_08lx_hex8. specialize (Hr k). lia. }
  split; [|split].
  - unfold generateSrcTag, bind, random, lift, ret.
    destruct (H8 (random_calls w)) as [L1 X1].
    rewrite fits_lt by (rewrite L1; lia).
    do 2 eexists. split; [reflexivity|]. cbn [random_calls]. auto.
  - unfold generateBranch, bind, random, lift, ret. cbn [random_results random_calls].
    destruct (H8 (random_calls w)) as [L1 X1].
    destruct (H8 (S (random_calls w))) as [L2 X2].
    destruct (H8 (S (S (random_calls w)))) as [L3 X3].
    destruct (H8 (S (S (S (random_calls w))))) as [L4 X4].
    remember (fmt_08lx (random_results w (random_calls w))) as a1.
    remember (fmt_08lx (random_results w (S (random_calls w)))) as a2.
    remember (fmt_08lx (random_results w (S (S (random_calls w))))) as a3.
    remember (fmt_08lx (random_results w (S (S (S (random_calls w)))))) as a4.
    assert (Hlen : length (a1 ++ a2 ++ a3 ++ a4) = 32%nat)
      by (rewrite !length_app, L1, L2, L3, L4; reflexivity).
    rewrite fits_lt
      by (rewrite length_app, Hlen; cbn [length L list_ascii_of_string]; lia).
    exists (a1 ++ a2 ++ a3 ++ a4). eexists. split; [reflexivity|].
    cbn [random_calls]. split; [exact Hlen|]. split; [|reflexivity].
    rewrite !forallb_app, X1, X2, X3, X4. reflexivity.
  - unfold generateSessionId, bind, random, lift, ret.
    pose proof (fmt_8ld_length _ (Hr (random_calls w))) as Hl.
    remember (fmt_8ld (random_results w (random_calls w))) as s1.
    rewrite fits_lt by (rewrite length_app; cbn [length L list_ascii_of_string]; lia).
    do 2 eexists. split; [reflexivity|]. cbn [random_calls]. auto.
Qed.

Lemma generated_identifiers_witness :
  (exists t w',
      generateSrcTag speaker0 world1 = Some (set_src_tag speaker0 t, w')
      /\ length t = 8%nat /\ forallb is_hex t = true
      /\ random_calls w' = S (random_calls world1))
  /\ (exists t w',
         generateBranch speaker0 world1
         = Some (set_branch_id speaker0 (L "z9hG4bKi-" ++ t), w')
         /\ length t = 32%nat /\ forallb is_hex t = true
         /\ random_calls w' = (4 + random_calls world1)%nat)
  /\ (exists t w',
         generateSessionId speaker0 world1
         = Some (set_session_id speaker0 (L "158" ++ t), w')
         /\ (8 <= length t <= 10)%nat
         /\ random_calls w' = S (random_calls world1)).
Proof.
  apply generated_identifiers. intros k. cbn [world1 random_results].
  apply Z.mod_pos_bound. reflexivity.
Defined.

Section Decimal.

Lemma digit_char_value : forall d,
    0 <= d < 10 ->
    isdigit (digit_char d) = true
    /\ Z.of_nat (nat_of_ascii (digit_char d)) - 48 = d.
Proof.
  intros d H.
  assert (E : d = 0 \/ d = 1 \/ d = 2 \/ d = 3 \/ d = 4 \/ d = 5 \/ d = 6 \/ d = 7
              \/ d = 8 \/ d = 9) by lia.
  repeat (destruct E as [E|E]; [subst; split; reflexivity|]). subst. split; reflexivity.
Qed.

Lemma digits_decimal : forall fuel n acc,
    0 <= n < 10 ^ Z.of_nat fuel ->
    forallb isdigit acc = true ->
    forallb isdigit (digits fuel 10 n acc) = true
    /\ decimal_value (digits fuel 10 n acc) 0 = decimal_value acc n.
Proof.
  induction fuel as [|fuel IH]; intros n acc Hn Ha.
  - simpl in Hn. assert (n = 0) by lia. subst. split; [exact Ha|reflexivity].
  - cbn [digits].
    destruct (digit_char_value (n mod 10)) as [Hd Hv]; [apply Z.mod_pos_bound; lia|].
    assert (Hacc : forallb isdigit (digit_char (n mod 10) :: acc) = true)
      by (cbn [forallb]; rewrite Hd; exact Ha).
    destruct (n / 10 =? 0) eqn:E.
    + split; [exact Hacc|]. cbn [decimal_value]. rewrite Hv.
      apply Z.eqb_eq in E. f_equal.
      pose proof (Z.div_mod n 10 ltac:(lia)). lia.
    + assert (Hq : 0 <= n / 10 < 10 ^ Z.of_nat fuel).
      { split; [apply Z.div_pos; lia|].
        apply Z.div_lt_upper_bound; [lia|].
        replace (Z.of_nat (S fuel)) with (Z.succ (Z.of_nat fuel)) in Hn by lia.
        rewrite Z.pow_succ_r in Hn by lia. lia. }
      destruct (IH (n / 10) _ Hq Hacc) as [I1 I2]. split; [exact I1|].
      rewrite I2. cbn [decimal_value]. rewrite Hv. f_equal.
      pose proof (Z.div_mod n 10 ltac:(lia)). lia.
Qed.

Lemma read_digits_app : forall s rest acc prev,
    forallb isdigit s = true ->
    no_digit_next rest = true ->
    fst (fst (read_digits (s ++ rest) acc prev)) = decimal_value s acc
    /\ snd (read_digits (s ++ rest) acc prev) = rest.
Proof.
  induction s as [|c s IH]; intros rest acc prev Hs Hr.
  - cbn [app decimal_value]. destruct rest as [|d rest]; [split; reflexivity|].
    cbn [no_digit_next] in Hr. apply negb_true_iff in Hr.
    cbn [read_digits]. rewrite Hr. split; reflexivity.
  - cbn [forallb] in Hs. apply andb_true_iff in Hs. destruct Hs as [Hc Hs].
    cbn [app read_digits decimal_value]. rewrite Hc. apply IH; assumption.
Qed.

Lemma isdigit_plain : forall c,
    isdigit c = true ->
    isspace c = false /\ Ascii.eqb c "-" = false /\ Ascii.eqb c "+" = false.
Proof.
  intros [b0 b1 b2 b3 b4 b5 b6 b7] H.
  destruct b0, b1, b2, b3, b4, b5, b6, b7; try discriminate H; repeat split; reflexivity.
Qed.

Lemma strtol_digits : forall s rest,
    s <> [] ->
    forallb isdigit s = true ->
    no_digit_next rest = true ->
    fst (fst (strtol SP (s ++ rest))) = Z.min (decimal_value s 0) LONG_MAX
    /\ fst (fst (strtol SP ("-"%char :: s ++ rest)))
       = Z.max (- decimal_value s 0) (- LONG_MAX - 1).
Proof.
  intros s rest Hne Hs Hr.
  destruct s as [|c s]; [congruence|].
  pose proof Hs as Hs0. cbn [forallb] in Hs. apply andb_true_iff in Hs.
  destruct Hs as [Hc Hs]. destruct (isdigit_plain c Hc) as (H1 & H2 & H3).
  destruct (read_digits_app (c :: s) rest 0 c Hs0 Hr) as [Hv _].
  split.
  - unfold strtol. cbn [app skip_while] in *. rewrite H1, H2, H3, Hc.
    destruct (read_digits (c :: s ++ rest) 0 c) as [[v prev] k].
    cbn [fst] in *. rewrite Hv. reflexivity.
  - unfold strtol. cbn [skip_while].
    replace (isspace "-") with false by reflexivity.
    rewrite Ascii.eqb_refl. cbn [app] in *. rewrite Hc.
    destruct (read_digits (c :: s ++ rest) 0 c) as [[v prev] k].
    cbn [fst] in *. rewrite Hv. reflexivity.
Qed.

Lemma digits_acc : forall fuel base n acc, acc <> [] -> digits fuel base n acc <> [].
Proof.
  induction fuel as [|fuel IH]; intros base n acc H; [exact H|].
  cbn [digits]. destruct (n / base =? 0); [discriminate|]. apply IH. discriminate.
Qed.

Lemma digits_nonempty : forall fuel n acc, (0 < fuel)%nat -> digits fuel 10 n acc <> [].
Proof.
  intros [|fuel] n acc Hf; [lia|].
  cbn [digits]. destruct (n / 10 =? 0); [discriminate|]. apply digits_acc. discriminate.
Qed.

(** [atoi] reads back what ["%d"] wrote. *)
Lemma atoi_fmt_d : forall n rest,
    - 2 ^ 31 <= n < 2 ^ 31 ->
    no_digit_next rest = true ->
    atoi (fmt_d n ++ rest) = n.
Proof.
  intros n rest Hn Hr. unfold atoi, fmt_d.
  assert (Hbig : 2 ^ 31 < 10 ^ Z.of_nat 64) by (vm_compute; reflexivity).
  destruct (n <? 0) eqn:E.
  - apply Z.ltb_lt in E.
    destruct (digits_decimal 64 (- n) [] ltac:(lia) eq_refl) as [Hd Hv].
    cbn [decimal_value] in Hv. cbn [app].
    rewrite (proj2 (strtol_digits _ rest (digits_nonempty 64 (- n) [] ltac:(lia)) Hd Hr)).
    rewrite Hv. unfold LONG_MAX, to_int.
    rewrite Z.max_l by lia.
    replace (- - n) with n by lia.
    rewrite Z.mod_small by lia. lia.
  - apply Z.ltb_ge in E.
    destruct (digits_decimal 64 n [] ltac:(lia) eq_refl) as [Hd Hv].
    cbn [decimal_value] in Hv.
    rewrite (proj1 (strtol_digits _ rest (digits_nonempty 64 n [] ltac:(lia)) Hd Hr)).
    rewrite Hv. unfold LONG_MAX, to_int.
    rewrite Z.min_l by lia. rewrite Z.mod_small by lia. lia.
Qed.

End Decimal.

(* ===================================================================== *)
(** * Header lookup in the raw buffer *)
(* ===================================================================== *)

Section Lookup.

Local Open Scope nat_scope.

Lemma strncasecmp_eq_app : forall n a b r,
    n <= length a ->
    strncasecmp_eq (a ++ r) b n = strncasecmp_eq a b n.
Proof.
  induction n as [|n IH]; intros a b r H.
  { destruct a, r; reflexivity. }
  destruct a as [|x a]; [simpl in H; lia|].
  destruct b as [|y b]; [reflexivity|].
  cbn [app strncasecmp_eq]. rewrite IH by (simpl in H; lia). reflexivity.
Qed.

Lemma strcasestr_cons : forall c t name,
    strcasestr (c :: t) name
    = if strncasecmp_eq (c :: t) name (length name)
         && (length name <=? length (c :: t))
      then Some 0
      else option_map S (strcasestr t name).
Proof. reflexivity. Qed.

(** The first occurrence of [name] stays the first one when the text
    goes on. *)
Lemma strcasestr_app : forall pre w name rest,
    length w = length name ->
    strcasestr (pre ++ w) name = Some (length pre) ->
    strcasestr (pre ++ w ++ rest) name = Some (length pre).
Proof.
  induction pre as [|c pre IH]; intros w name rest Hw H.
  - cbn [app length] in *.
    assert (Hhead : strncasecmp_eq w name (length name)
                    && (length name <=? length w) = true).
    { destruct w as [|x w]; cbn [strcasestr] in H;
        destruct (strncasecmp_eq _ name (length name) && _); try reflexivity;
        try discriminate.
      destruct (strcasestr w name); discriminate. }
    apply andb_true_iff in Hhead. destruct Hhead as [H1 H2].
    assert (Hnew : strncasecmp_eq (w ++ rest) name (length name)
                   && (length name <=? length (w ++ rest)) = true).
    { rewrite strncasecmp_eq_app by lia. rewrite H1.
      apply Nat.leb_le. rewrite length_app. lia. }
    destruct (w ++ rest) as [|x t]; cbn [strcasestr]; rewrite Hnew; reflexivity.
  - change ((c :: pre) ++ w) with (c :: pre ++ w) in H.
    change ((c :: pre) ++ w ++ rest) with (c :: pre ++ w ++ rest).
    rewrite strcasestr_cons in *.
    destruct (strncasecmp_eq (c :: pre ++ w) name (length name)
              && (length name <=? length (c :: pre ++ w))) eqn:E; [discriminate|].
    assert (Hlen : length name <= length (c :: pre ++ w))
      by (cbn [length]; rewrite length_app; lia).
    replace (length name <=? length (c :: pre ++ w)) with true in E
      by (symmetry; apply Nat.leb_le; exact Hlen).
    rewrite andb_true_r in E.
    replace (strncasecmp_eq (c :: pre ++ w ++ rest) name (length name)) with false.
    + cbn [andb].
      destruct (strcasestr (pre ++ w) name) as [k|] eqn:F; [|discriminate].
      cbn [option_map length] in H. inversion H; subst k.
      rewrite (IH w name rest Hw F). reflexivity.
    + rewrite <- E. symmetry.
      change (c :: pre ++ w ++ rest) with ((c :: pre) ++ w ++ rest).
      rewrite app_assoc. apply strncasecmp_eq_app. exact Hlen.
Qed.

Lemma nth_at : forall (a b : cstring) x,
    nth (length a) (a ++ x :: b) "000"%char = x.
Proof. intros a b x. apply nth_middle. Qed.

Lemma skipn_at : forall (a b : cstring), skipn (length a) (a ++ b) = b.
Proof.
  intros a b. rewrite skipn_app, skipn_all, Nat.sub_diag. reflexivity.
Qed.

(** The lookup of a header that stands at the start of a line, when its
    name does not occur before that line. *)
Lemma HasHeader_line : forall pre w name rest (bufferLen : Z),
    name <> [] ->
    length w = length name ->
    strcasestr ((pre ++ CRLF) ++ w) name = Some (length (pre ++ CRLF)) ->
    (Z.of_nat (length pre + 2) <= bufferLen)%Z ->
    HasHeader (pre ++ CRLF ++ w ++ L ": " ++ rest) bufferLen name
    = length pre + 2 + length name + 2
    /\ skipn (length pre + 2 + length name + 2) (pre ++ CRLF ++ w ++ L ": " ++ rest)
       = rest.
Proof.
  intros pre w name rest bufferLen Hne Hw Hfirst Hlen.
  assert (Hpl : length (pre ++ CRLF) = length pre + 2)
    by (rewrite length_app; reflexivity).
  split.
  - unfold HasHeader.
    replace (length name =? 0) with false
      by (symmetry; apply Nat.eqb_neq; destruct name; [congruence|discriminate]).
    replace (pre ++ CRLF ++ w ++ L ": " ++ rest)
      with ((pre ++ CRLF) ++ w ++ L ": " ++ rest) by (rewrite <- app_assoc; reflexivity).
    rewrite (strcasestr_app _ w name _ Hw Hfirst). rewrite Hpl.
    replace (length pre + 2 <? 2) with false by (symmetry; apply Nat.ltb_ge; lia).
    replace (bufferLen <? Z.of_nat (length pre + 2))%Z with false
      by (symmetry; apply Z.ltb_ge; exact Hlen).
    rewrite <- app_assoc.
    set (B := pre ++ CRLF ++ w ++ L ": " ++ rest).
    assert (N1 : nth (length pre + 2 - 2) B "000"%char = CR).
    { replace (length pre + 2 - 2) with (length pre) by lia. apply nth_middle. }
    assert (N2 : nth (length pre + 2 - 1) B "000"%char = LF).
    { replace (length pre + 2 - 1) with (length (pre ++ [CR]))
        by (rewrite length_app; simpl; lia).
      replace B with ((pre ++ [CR]) ++ LF :: w ++ L ": " ++ rest)
        by (unfold B; rewrite <- app_assoc; reflexivity).
      apply nth_middle. }
    assert (N3 : nth (length pre + 2 + length name) B "000"%char = ":"%char).
    { replace (length pre + 2 + length name) with (length (pre ++ CRLF ++ w))
        by (rewrite !length_app; cbn [length CRLF]; lia).
      replace B with ((pre ++ CRLF ++ w) ++ ":"%char :: SP :: rest)
        by (unfold B; rewrite <- !app_assoc; reflexivity).
      apply nth_middle. }
    assert (N4 : nth (length pre + 2 + length name + 1) B "000"%char = SP).
    { replace (length pre + 2 + length name + 1)
        with (length (pre ++ CRLF ++ w ++ [":"%char]))
        by (rewrite !length_app; cbn [length CRLF]; lia).
      replace B with ((pre ++ CRLF ++ w ++ [":"%char]) ++ SP :: rest)
        by (unfold B; rewrite <- !app_assoc; reflexivity).
      apply nth_middle. }
    rewrite N1, N2, N3, N4. reflexivity.
  - replace (pre ++ CRLF ++ w ++ L ": " ++ rest)
      with ((pre ++ CRLF ++ w ++ L ": ") ++ rest)
      by (rewrite <- !app_assoc; reflexivity).
    replace (length pre + 2 + length name + 2) with (length (pre ++ CRLF ++ w ++ L ": "))
      by (rewrite !length_app; cbn [length L list_ascii_of_string CRLF]; lia).
    apply skipn_at.
Qed.

Lemma prefixb_app_ext : forall lit a r,
    length lit <= length a -> prefixb lit (a ++ r) = prefixb lit a.
Proof.
  induction lit as [|x lit IH]; intros a r H; [reflexivity|].
  destruct a as [|y a]; [simpl in H; lia|].
  cbn [app prefixb]. rewrite IH by (simpl in H; lia). reflexivity.
Qed.

Lemma strstr_cons : forall c t needle,
    strstr (c :: t) needle
    = if prefixb needle (c :: t) then Some (c :: t) else strstr t needle.
Proof. reflexivity. Qed.

(** The first occurrence of [needle] stays the first one when the text
    goes on. *)
Lemma strstr_app : forall pre needle rest,
    needle <> [] ->
    strstr (pre ++ needle) needle = Some needle ->
    strstr (pre ++ needle ++ rest) needle = Some (needle ++ rest).
Proof.
  induction pre as [|c pre IH]; intros needle rest Hne H.
  - cbn [app]. destruct needle as [|x needle]; [congruence|].
    cbn [app]. rewrite strstr_cons.
    change (x :: needle ++ rest) with ((x :: needle) ++ rest).
    rewrite prefixb_app. reflexivity.
  - change ((c :: pre) ++ needle) with (c :: pre ++ needle) in H.
    change ((c :: pre) ++ needle ++ rest) with (c :: pre ++ needle ++ rest).
    rewrite strstr_cons in *.
    destruct (prefixb needle (c :: pre ++ needle)) eqn:E.
    + inversion H as [Hlen]. apply (f_equal (@length ascii)) in Hlen.
      cbn [length] in Hlen. rewrite length_app in Hlen. lia.
    + replace (prefixb needle (c :: pre ++ needle ++ rest)) with false.
      * apply IH; assumption.
      * rewrite <- E. symmetry.
        change (c :: pre ++ needle ++ rest) with ((c :: pre) ++ needle ++ rest).
        rewrite app_assoc. apply prefixb_app_ext.
        cbn [length]. rewrite length_app. lia.
Qed.

Lemma GetResponseLen_app : forall head body,
    strstr (head ++ CRLF ++ CRLF) (CRLF ++ CRLF) = Some (CRLF ++ CRLF) ->
    GetResponseLen (head ++ CRLF ++ CRLF ++ body) = length head + 4.
Proof.
  intros head body H. unfold GetResponseLen.
  replace (head ++ CRLF ++ CRLF ++ body) with (head ++ (CRLF ++ CRLF) ++ body)
    by (rewrite <- !app_assoc; reflexivity).
  rewrite strstr_app by (discriminate || exact H).
  rewrite !length_app. cbn [length CRLF]. lia.
Qed.

End Lookup.

(** X13.  For a header that stands at the start of a line as
    [name: value] (the name in any case), when the name does not occur
    earlier in the buffer, [GetHeaderValue] hands back the text between
    the blank after the colon and the end of the line, and
    [CheckHeaderValue] tests, without regard to case, whether this text
    and what follows it start with the value asked for; later lines,
    also later instances of the header, are not looked at. *)
Theorem header_lookup_at_line :
  forall (pre w name value rest : cstring) (bufferLen : Z) (v : cstring),
    name <> [] ->
    length w = length name ->
    strcasestr ((pre ++ CRLF) ++ w) name = Some (length (pre ++ CRLF)) ->
    Z.of_nat (length pre + 2) <= bufferLen ->
    absent CRLF value = true ->
    let buffer := pre ++ CRLF ++ w ++ L ": " ++ value ++ CRLF ++ rest in
    HasHeader buffer bufferLen name = (length pre + 2 + length name + 2)%nat
    /\ GetHeaderValue buffer bufferLen name = Some value
    /\ CheckHeaderValue buffer bufferLen name v
       = strncasecmp_eq (value ++ CRLF ++ rest) v (length v).
Proof.
  intros pre w name value rest bufferLen v Hne Hw Hfirst Hlen Hv buffer.
  destruct (HasHeader_line pre w name (value ++ CRLF ++ rest) bufferLen
              Hne Hw Hfirst Hlen) as [Hh Hs].
  fold buffer in Hh, Hs.
  unfold GetHeaderValue, CheckHeaderValue. rewrite Hh.
  destruct (length pre + 2 + length name + 2)%nat as [|i] eqn:E; [lia|].
  rewrite Hs. split; [reflexivity|]. split; [|reflexivity].
  rewrite strstr_CRLF_app by (apply absent_strstr; exact Hv).
  replace (length (value ++ CRLF ++ rest) - length (CRLF ++ rest))%nat
    with (length value) by (rewrite !length_app; lia).
  rewrite firstn_length_app. reflexivity.
Qed.

Lemma header_lookup_at_line_witness :
  let buffer := L "RTSP/1.0 200 OK" ++ CRLF ++ L "session" ++ L ": "
                ++ L "1234;timeout=60" ++ CRLF
                ++ (L "Session: 9" ++ CRLF ++ CRLF) in
  HasHeader buffer 60 (L "Session") = 26%nat
  /\ GetHeaderValue buffer 60 (L "Session") = Some (L "1234;timeout=60")
  /\ CheckHeaderValue buffer 60 (L "Session") (L "1234")
     = strncasecmp_eq (L "1234;timeout=60" ++ CRLF ++ (L "Session: 9" ++ CRLF ++ CRLF))
         (L "1234") (length (L "1234")).
Proof.
  apply (header_lookup_at_line (L "RTSP/1.0 200 OK") (L "session") (L "Session")
           (L "1234;timeout=60") (L "Session: 9" ++ CRLF ++ CRLF) 60 (L "1234"));
    try reflexivity; [discriminate|vm_compute; discriminate].
Defined.

(** X14.  A number that a header line carries in decimal, as ["%d"]
    writes it (the length of a body in Content-Length), is what
    [GetHeaderValueInt] returns for this header. *)
Theorem GetHeaderValueInt_decimal :
  forall (pre w name rest : cstring) (bufferLen n : Z),
    name <> [] ->
    length w = length name ->
    strcasestr ((pre ++ CRLF) ++ w) name = Some (length (pre ++ CRLF)) ->
    Z.of_nat (length pre + 2) <= bufferLen ->
    - 2 ^ 31 <= n < 2 ^ 31 ->
    no_digit_next rest = true ->
    GetHeaderValueInt (pre ++ CRLF ++ w ++ L ": " ++ fmt_d n ++ rest) bufferLen name = n.
Proof.
  intros pre w name rest bufferLen n Hne Hw Hfirst Hlen Hn Hr.
  destruct (HasHeader_line pre w name (fmt_d n ++ rest) bufferLen
              Hne Hw Hfirst Hlen) as [Hh Hs].
  unfold GetHeaderValueInt. rewrite Hh.
  destruct (length pre + 2 + length name + 2)%nat as [|i] eqn:E; [lia|].
  rewrite Hs. apply atoi_fmt_d; assumption.
Qed.

Lemma GetHeaderValueInt_decimal_witness :
  GetHeaderValueInt
    (L "RTSP/1.0 200 OK" ++ CRLF ++ L "Content-Length" ++ L ": " ++ fmt_d 131
     ++ (CRLF ++ CRLF)) 40 (L "Content-Length")
  = 131.
Proof.
  apply (GetHeaderValueInt_decimal (L "RTSP/1.0 200 OK") (L "Content-Length")
           (L "Content-Length") (CRLF ++ CRLF) 40 131);
    try reflexivity; [discriminate|vm_compute; discriminate|lia].
Defined.

(** X15.  [GetResponseCode] reads the status code at offset 9 of an RTSP
    answer and at offset 8 of a SIP answer, and returns -1 for a buffer
    of fewer than 12 characters. *)
Theorem GetResponseCode_status_line :
  forall (code bufferLen : Z) (rest : cstring),
    - 2 ^ 31 <= code < 2 ^ 31 ->
    no_digit_next rest = true ->
    12 <= bufferLen ->
    GetResponseCode (L "RTSP/1.0 " ++ fmt_d code ++ rest) bufferLen 0 = code
    /\ GetResponseCode (L "SIP/2.0 " ++ fmt_d code ++ rest) bufferLen 1 = code
    /\ (forall buffer short isSIP, short < 12 ->
           GetResponseCode buffer short isSIP = -1).
Proof.
  intros code bufferLen rest Hc Hr Hl. unfold GetResponseCode.
  replace (bufferLen <? 12) with false by (symmetry; apply Z.ltb_ge; exact Hl).
  cbn [Z.eqb L list_ascii_of_string app skipn].
  repeat split; try (apply atoi_fmt_d; assumption).
  intros buffer short isSIP Hs.
  replace (short <? 12) with true by (symmetry; apply Z.ltb_lt; exact Hs).
  reflexivity.
Qed.

Lemma GetResponseCode_status_line_witness :
  GetResponseCode (L "RTSP/1.0 " ++ fmt_d 401 ++ L " Unauthorized") 25 0 = 401
  /\ GetResponseCode (L "SIP/2.0 " ++ fmt_d 401 ++ L " Unauthorized") 25 1 = 401
  /\ (forall buffer short isSIP, short < 12 ->
         GetResponseCode buffer short isSIP = -1).
Proof.
  apply GetResponseCode_status_line; [lia|reflexivity|lia].
Defined.

(** X16.  [GetResponseLen] is the length of the message head up to and
    including its first empty line, and 0 while the buffer holds no
    empty line. *)
Theorem GetResponseLen_first_empty_line :
  forall head body partial : cstring,
    strstr (head ++ CRLF ++ CRLF) (CRLF ++ CRLF) = Some (CRLF ++ CRLF) ->
    absent (CRLF ++ CRLF) partial = true ->
    GetResponseLen (head ++ CRLF ++ CRLF ++ body) = (length head + 4)%nat
    /\ GetResponseLen partial = 0%nat.
Proof.
  intros head body partial Hh Hp. split.
  - apply GetResponseLen_app. exact Hh.
  - unfold GetResponseLen. rewrite (absent_strstr _ _ Hp). reflexivity.
Qed.

Lemma GetResponseLen_first_empty_line_witness :
  GetResponseLen (L "RTSP/1.0 200 OK" ++ CRLF ++ CRLF ++ L "v=0" ++ CRLF ++ CRLF)
  = (length (L "RTSP/1.0 200 OK") + 4)%nat
  /\ GetResponseLen (L "RTSP/1.0 200 OK" ++ CRLF ++ L "CSeq: 1" ++ CRLF) = 0%nat.
Proof.
  apply (GetResponseLen_first_empty_line (L "RTSP/1.0 200 OK")
           (L "v=0" ++ CRLF ++ CRLF)); reflexivity.
Defined.

Section Shadow.

Local Open Scope nat_scope.

Lemma last_two : forall (s : cstring),
    2 <= length s -> exists p a b, s = p ++ [a; b].
Proof.
  intros s H.
  destruct (exists_last (l := s)) as (s1 & b & ->); [destruct s; [simpl in H; lia|discriminate]|].
  rewrite length_app in H. cbn [length] in H.
  destruct (exists_last (l := s1)) as (p & a & ->); [destruct s1; [simpl in H; lia|discriminate]|].
  exists p, a, b. rewrite <- app_assoc. reflexivity.
Qed.

Lemma HasHeader_shadowed : forall pre w name rest (bufferLen : Z),
    name <> [] ->
    length w = length name ->
    strcasestr (pre ++ w) name = Some (length pre) ->
    (forall p, pre <> p ++ CRLF) \/ prefixb (L ": ") rest = false ->
    HasHeader (pre ++ w ++ rest) bufferLen name = 0.
Proof.
  intros pre w name rest bufferLen Hne Hw Hfirst Hcase.
  unfold HasHeader.
  destruct (length name =? 0); [reflexivity|].
  rewrite (strcasestr_app pre w name rest Hw Hfirst).
  destruct (length pre <? 2) eqn:E2; [reflexivity|].
  destruct (bufferLen <? Z.of_nat (length pre))%Z; [reflexivity|].
  apply Nat.ltb_ge in E2.
  destruct (last_two pre E2) as (p & a & b & ->).
  assert (N1 : nth (length (p ++ [a; b]) - 2) ((p ++ [a; b]) ++ w ++ rest) "000"%char = a).
  { rewrite length_app. cbn [length].
    replace (length p + 2 - 2) with (length p) by lia.
    rewrite <- app_assoc. apply nth_middle. }
  assert (N2 : nth (length (p ++ [a; b]) - 1) ((p ++ [a; b]) ++ w ++ rest) "000"%char = b).
  { rewrite length_app. cbn [length].
    replace (length p + 2 - 1) with (length (p ++ [a])) by (rewrite length_app; simpl; lia).
    replace ((p ++ [a; b]) ++ w ++ rest) with ((p ++ [a]) ++ b :: w ++ rest)
      by (rewrite <- !app_assoc; reflexivity).
    apply nth_middle. }
  rewrite N1, N2.
  destruct (Ascii.eqb a CR && Ascii.eqb b LF) eqn:Ecr; [|reflexivity].
  cbn [negb].
  destruct Hcase as [Hpre|Hrest].
  - exfalso. apply andb_true_iff in Ecr. destruct Ecr as [Ea Eb].
    apply Ascii.eqb_eq in Ea, Eb. subst. apply (Hpre p). reflexivity.
  - replace (length (p ++ [a; b]) + length name) with (length ((p ++ [a; b]) ++ w))
      by (rewrite !length_app; lia).
    rewrite app_assoc.
    destruct rest as [|x rest].
    + rewrite app_nil_r. rewrite nth_overflow by lia. reflexivity.
    + rewrite nth_middle.
      destruct (Ascii.eqb x ":") eqn:Ex; [|reflexivity].
      destruct rest as [|y rest].
      * rewrite nth_overflow by (rewrite !length_app; cbn [length]; lia). reflexivity.
      * replace (length ((p ++ [a; b]) ++ w) + 1)
          with (length (((p ++ [a; b]) ++ w) ++ [x]))
          by (rewrite (length_app _ [x]); reflexivity).
        replace (((p ++ [a; b]) ++ w) ++ x :: y :: rest)
          with ((((p ++ [a; b]) ++ w) ++ [x]) ++ y :: rest)
          by (rewrite <- (app_assoc _ [x]); reflexivity).
        rewrite nth_middle.
        apply Ascii.eqb_eq in Ex. subst x.
        cbn [prefixb L list_ascii_of_string] in Hrest.
        rewrite Ascii.eqb_refl in Hrest. cbn [andb] in Hrest.
        rewrite andb_true_r in Hrest. rewrite Ascii.eqb_sym in Hrest.
        unfold SP. rewrite Hrest. reflexivity.
Qed.

End Shadow.

(** X17.  The lookup takes the first place where the header name occurs
    in the buffer, in any case and also inside a word or a value.  When
    this place is not the start of a line, or is not followed by a colon
    and a blank, the header counts as absent, whatever the rest of the
    buffer holds: [HasHeader] and [GetHeaderValueInt] return 0,
    [GetHeaderValue] returns NULL and [CheckHeaderValue] is false. *)
Theorem header_lookup_first_occurrence_only :
  forall (pre w name rest : cstring) (bufferLen : Z) (v : cstring),
    name <> [] ->
    length w = length name ->
    strcasestr (pre ++ w) name = Some (length pre) ->
    (forall p, pre <> p ++ CRLF) \/ prefixb (L ": ") rest = false ->
    let buffer := pre ++ w ++ rest in
    HasHeader buffer bufferLen name = 0%nat
    /\ GetHeaderValue buffer bufferLen name = None
    /\ GetHeaderValueInt buffer bufferLen name = 0
    /\ CheckHeaderValue buffer bufferLen name v = false.
Proof.
  intros pre w name rest bufferLen v Hne Hw Hfirst Hcase buffer.
  pose proof (HasHeader_shadowed pre w name rest bufferLen Hne Hw Hfirst Hcase) as H.
  fold buffer in H.
  unfold GetHeaderValue, GetHeaderValueInt, CheckHeaderValue. rewrite H.
  repeat split; reflexivity.
Qed.

Lemma header_lookup_first_occurrence_only_witness :
  let buffer := (L "RTSP/1.0 200 OK" ++ CRLF ++ L "Content-Base: rtsp://cam/")
                ++ L "session"
                ++ (L "/" ++ CRLF ++ L "Session: 1234" ++ CRLF ++ CRLF) in
  HasHeader buffer 80 (L "Session") = 0%nat
  /\ GetHeaderValue buffer 80 (L "Session") = None
  /\ GetHeaderValueInt buffer 80 (L "Session") = 0
  /\ CheckHeaderValue buffer 80 (L "Session") (L "1234") = false.
Proof.
  apply (header_lookup_first_occurrence_only
           (L "RTSP/1.0 200 OK" ++ CRLF ++ L "Content-Base: rtsp://cam/")
           (L "session") (L "Session")
           (L "/" ++ CRLF ++ L "Session: 1234" ++ CRLF ++ CRLF) 80 (L "1234"));
    try reflexivity; [discriminate|right; reflexivity].
Defined.

(* ===================================================================== *)
(** * Receive statistics and port pairs *)
(* ===================================================================== *)

Section Stats.

Lemma u32_range : forall x, 0 <= u32 x < 2 ^ 32.
Proof. intros x. unfold u32. apply Z.mod_pos_bound. reflexivity. Qed.

Lemma u32_succ : forall x y, u32 (u32 (x + y) + 1) = u32 (x + (y + 1)).
Proof.
  intros x y. unfold u32. rewrite Zplus_mod_idemp_l. f_equal. lia.
Qed.

Lemma largest_range : forall ps, 0 <= largest (map packet_sn ps) < 2 ^ 32.
Proof.
  induction ps as [|p ps IH]; [cbn; lia|].
  cbn [map largest fold_right]. fold (largest (map packet_sn ps)).
  assert (0 <= packet_sn p < 2 ^ 32) by apply u32_range. lia.
Qed.

Lemma first_nonzero_le_largest : forall ps,
    0 <= first_nonzero (map packet_sn ps) <= largest (map packet_sn ps).
Proof.
  induction ps as [|p ps IH]; [cbn; lia|].
  cbn [map first_nonzero largest fold_right]. fold (largest (map packet_sn ps)).
  assert (0 <= packet_sn p < 2 ^ 32) by apply u32_range.
  destruct (packet_sn p =? 0); lia.
Qed.

(** The statistics after the packets [ps], from any state. *)
Lemma updates_from : forall ps s n,
    stats_count s = u32 n ->
    0 <= maxSN s ->
    let s' := fold_left update_with ps s in
    stats_count s' = u32 (n + Z.of_nat (length ps))
    /\ minSN s' = (if minSN s =? 0 then first_nonzero (map packet_sn ps) else minSN s)
    /\ maxSN s' = Z.max (maxSN s) (largest (map packet_sn ps)).
Proof.
  induction ps as [|p ps IH]; intros s n Hc Hm.
  - cbn [fold_left length map first_nonzero largest fold_right Z.of_nat].
    rewrite Z.add_0_r. repeat split; [exact Hc| |lia].
    destruct (minSN s =? 0) eqn:E; [apply Z.eqb_eq in E; exact E|reflexivity].
  - cbn [fold_left].
    assert (Hr : 0 <= packet_sn p < 2 ^ 32) by apply u32_range.
    destruct (IH (update_with s p) (n + 1)) as (I1 & I2 & I3).
    + unfold update_with, MediaStatsUpdate. cbn [stats_count]. rewrite Hc.
      unfold u32. rewrite Zplus_mod_idemp_l. reflexivity.
    + unfold update_with, MediaStatsUpdate. cbn [maxSN].
      fold (packet_sn p). destruct (maxSN s <? packet_sn p); lia.
    + cbv zeta. rewrite I1, I2, I3.
      unfold update_with, MediaStatsUpdate. cbn [minSN maxSN].
      cbn [map first_nonzero largest fold_right length].
      fold (largest (map packet_sn ps)). fold (packet_sn p).
      repeat split.
      * f_equal. lia.
      * destruct (minSN s =? 0) eqn:E; [|rewrite E; reflexivity].
        destruct (packet_sn p =? 0); reflexivity.
      * destruct (maxSN s <? packet_sn p) eqn:E;
          [apply Z.ltb_lt in E|apply Z.ltb_ge in E]; lia.
Qed.

End Stats.

(** X18.  After [MediaStatsReset] and one [MediaStatsUpdate] for each
    packet received, [count] is the number of packets (modulo 2^32),
    [maxSN] is the largest sequence number and [minSN] is the first
    sequence number that was not 0 (not the smallest one); [minSN] never
    exceeds [maxSN], so the difference that [MediaStatsRR] takes does
    not wrap around. *)
Theorem MediaStats_after_updates :
  forall (stats0 : MediaStats) (now : Z) (ps : list packet),
    let stats := fold_left update_with ps (MediaStatsReset stats0 now) in
    stats_count stats = u32 (Z.of_nat (length ps))
    /\ minSN stats = first_nonzero (map packet_sn ps)
    /\ maxSN stats = largest (map packet_sn ps)
    /\ 0 <= minSN stats <= maxSN stats
    /\ u32 (maxSN stats - minSN stats) = maxSN stats - minSN stats.
Proof.
  intros stats0 now ps stats.
  destruct (updates_from ps (MediaStatsReset stats0 now) 0 eq_refl ltac:(cbn; lia))
    as (H1 & H2 & H3).
  fold stats in H1, H2, H3. cbn [MediaStatsReset minSN maxSN Z.eqb] in H2, H3.
  pose proof (largest_range ps) as Hl.
  pose proof (first_nonzero_le_largest ps) as Hf.
  rewrite Z.max_r in H3 by lia.
  rewrite H1, H2, H3. repeat split; try lia; try reflexivity.
  unfold u32. apply Z.mod_small. lia.
Qed.

(** X19.  When the second socket got a port between 1 and 65534 and
    the system grants every port that [GetUdpPorts] asks for by number
    (from the third socket on), the loop ends after at most two retries,
    whatever port the first socket got: the second retry starts from the
    even port that follows an odd one.  The second port handed back is
    at most two above the port of the second socket. *)
Theorem GetUdpPorts_ends_when_granted :
  forall (os_bind : nat -> Z -> Z),
    (forall k r, (2 <= k)%nat -> 0 < r < 65536 -> os_bind k r = r) ->
    0 < os_bind 1%nat 0 < 65535 ->
    exists r, GetUdpPorts os_bind 2 = Some r
              /\ os_bind 1%nat 0 <= port_q r <= os_bind 1%nat 0 + 2.
Proof.
  intros os_bind Hgrant Hq.
  unfold GetUdpPorts, bind_and_getsockname.
  change (u16 0) with 0.
  set (p0 := u16 (os_bind 0%nat 0)).
  assert (Eq0 : u16 (os_bind 1%nat 0) = os_bind 1%nat 0)
    by (unfold u16; apply Z.mod_small; lia).
  rewrite Eq0. set (q0 := os_bind 1%nat 0) in *.
  cbn [GetUdpPorts_loop].
  destruct (negb (Z.rem p0 2 =? 0) || negb (p0 + 1 =? q0)) eqn:E0.
  - unfold bind_and_getsockname.
    replace (0 <? q0) with true by (symmetry; apply Z.ltb_lt; lia).
    assert (E1 : u16 (os_bind 2%nat (u16 (q0 + 1))) = q0 + 1).
    { unfold u16. rewrite (Z.mod_small (q0 + 1)) by lia.
      rewrite Hgrant by lia. apply Z.mod_small. lia. }
    rewrite E1. rewrite Z.eqb_refl. cbn [negb]. rewrite orb_false_r.
    destruct (negb (Z.rem q0 2 =? 0)) eqn:E2.
    + apply negb_true_iff in E2. apply Z.eqb_neq in E2.
      rewrite Z.rem_mod_nonneg in E2 by lia.
      pose proof (Z.mod_pos_bound q0 2 ltac:(lia)) as Hm.
      pose proof (Z.div_mod q0 2 ltac:(lia)) as Hd.
      assert (Hodd : q0 mod 2 = 1) by lia.
      replace (0 <? q0 + 1) with true by (symmetry; apply Z.ltb_lt; lia).
      assert (E3 : u16 (os_bind 3%nat (u16 (q0 + 1 + 1))) = q0 + 1 + 1).
      { unfold u16. rewrite (Z.mod_small (q0 + 1 + 1)) by lia.
        rewrite Hgrant by lia. apply Z.mod_small. lia. }
      rewrite E3. rewrite Z.eqb_refl. cbn [negb]. rewrite orb_false_r.
      replace (Z.rem (q0 + 1) 2 =? 0) with true.
      * cbn [negb]. eexists. split; [reflexivity|]. cbn [port_q]. lia.
      * symmetry. apply Z.eqb_eq. rewrite Z.rem_mod_nonneg by lia.
        replace (q0 + 1) with ((q0 mod 2 + 1) + (q0 / 2) * 2) by lia.
        rewrite Z.mod_add by lia.
        rewrite Hodd. reflexivity.
    + eexists. split; [reflexivity|]. cbn [port_q]. lia.
  - eexists. split; [reflexivity|]. cbn [port_q]. lia.
Qed.

Lemma GetUdpPorts_ends_when_granted_witness :
  exists r, GetUdpPorts os_with_collisions 2 = Some r
            /\ os_with_collisions 1%nat 0 <= port_q r <= os_with_collisions 1%nat 0 + 2.
Proof.
  apply GetUdpPorts_ends_when_granted.
  - intros k r Hk Hr. destruct k as [|[|k]]; [lia|lia|reflexivity].
  - cbn [os_with_collisions]. lia.
Defined.

(* ===================================================================== *)
(** * Lines of a session description *)
(* ===================================================================== *)

Section SdpLines.

Local Open Scope nat_scope.

Lemma scan_to_app : forall c a b len,
    forallb (fun x => negb (Ascii.eqb x c)) a = true ->
    length a < len ->
    scan_to c (a ++ c :: b) len = length a.
Proof.
  intros c. induction a as [|x a IH]; intros b len Ha Hl.
  - destruct len as [|len]; [lia|]. cbn [app scan_to]. rewrite Ascii.eqb_refl. reflexivity.
  - cbn [forallb] in Ha. apply andb_true_iff in Ha. destruct Ha as [Hx Ha].
    apply negb_true_iff in Hx.
    destruct len as [|len]; [lia|]. cbn [app scan_to length]. rewrite Hx.
    rewrite IH by (try assumption; simpl in Hl; lia). reflexivity.
Qed.

Lemma table_names_plain :
  forallb (fun e => forallb (fun x => negb (Ascii.eqb x "/")) (snd e)
                    && negb (length (snd e) =? 0)) mimeTypes = true.
Proof. vm_compute. reflexivity. Qed.

Lemma rtpmap_table_skip : forall fmt name table ini len pt m n,
    strncasecmp_eq ini name len = false ->
    rtpmap_table ((fmt, name) :: table) ini len pt m n
    = rtpmap_table table ini len pt m n.
Proof. intros. cbn [rtpmap_table]. rewrite H. reflexivity. Qed.

Lemma rtpmap_table_fill : forall fmt name table ini len pt m n f,
    strncasecmp_eq ini name len = true ->
    nth_error (formats m) n = Some f ->
    rtpmap_table ((fmt, name) :: table) ini len pt m n
    = rtpmap_table table ini len pt
        (mkSDPMedia (array_set (formats m) n (mkSDPFormat pt fmt (control f)))
                    (num m) (Z.lor (all m) fmt) (peer_media_port m))
        (S n).
Proof. intros. cbn [rtpmap_table]. rewrite H, H0. reflexivity. Qed.

(** Every codec name of the table but H263 agrees with exactly one entry
    of the table, its own. *)
Lemma rtpmap_table_unique : forall fmt name rest pt m n f,
    In (fmt, name) mimeTypes ->
    name <> L "H263" ->
    nth_error (formats m) n = Some f ->
    rtpmap_table mimeTypes (name ++ "/"%char :: rest) (length name) pt m n
    = Some (mkSDPMedia (array_set (formats m) n (mkSDPFormat pt fmt (control f)))
                       (num m) (Z.lor (all m) fmt) (peer_media_port m),
            S n).
Proof.
  intros fmt name rest pt m n f Hin Hne Hf.
  unfold mimeTypes in Hin. cbn [In] in Hin.
  repeat (destruct Hin as [Hin|Hin];
          [inversion Hin; subst fmt name; try congruence;
           unfold mimeTypes;
           repeat (rewrite rtpmap_table_skip by (vm_compute; reflexivity));
           rewrite (rtpmap_table_fill _ _ _ _ _ _ _ _ f) by (exact Hf || (vm_compute; reflexivity));
           repeat (rewrite rtpmap_table_skip by (vm_compute; reflexivity));
           reflexivity|]).
  contradiction.
Qed.

Lemma digits_no_space : forall n,
    (0 <= n)%Z ->
    forallb (fun x => negb (Ascii.eqb x SP)) (fmt_d n) = true.
Proof.
  intros n Hn. unfold fmt_d.
  replace (n <? 0)%Z with false by (symmetry; apply Z.ltb_ge; exact Hn).
  assert (Hd : forall fuel m acc,
             (0 <= m)%Z ->
             forallb (fun x => negb (Ascii.eqb x SP)) acc = true ->
             forallb (fun x => negb (Ascii.eqb x SP)) (digits fuel 10 m acc) = true).
  { induction fuel as [|fuel IH]; intros m acc Hm Ha; [exact Ha|].
    cbn [digits].
    assert (Hc : forallb (fun x => negb (Ascii.eqb x SP)) (digit_char (m mod 10) :: acc)
                 = true).
    { cbn [forallb]. rewrite Ha, andb_true_r.
      destruct (digit_char_value (m mod 10)) as [Hdig _];
        [apply Z.mod_pos_bound; lia|].
      destruct (isdigit_plain _ Hdig) as [Hs _].
      apply nonspace_not_wsp in Hs. unfold is_wsp in Hs.
      apply orb_false_iff in Hs. destruct Hs as [Hs _]. rewrite Hs. reflexivity. }
    destruct (m / 10 =? 0)%Z; [exact Hc|].
    apply IH; [apply Z.div_pos; lia|exact Hc]. }
  apply Hd; [exact Hn|reflexivity].
Qed.

Lemma sdp_line_at : forall line tail sip_enable st,
    1 <= length line ->
    sdp_line (line ++ CRLF ++ tail) (S (length line)) sip_enable st
    = if prefixb (L "m=") (line ++ CRLF ++ tail)
      then sdp_media_line (line ++ CRLF ++ tail) (length line) sip_enable st
      else if prefixb (L "a=rtpmap:") (line ++ CRLF ++ tail)
      then sdp_rtpmap (line ++ CRLF ++ tail) (length line) st
      else if prefixb (L "a=control:") (line ++ CRLF ++ tail)
      then sdp_control (line ++ CRLF ++ tail) (length line) st
      else Some st.
Proof.
  intros line tail sip_enable st Hlen. unfold sdp_line.
  replace (S (length line) <=? 1) with false by (symmetry; apply Nat.leb_gt; lia).
  replace (S (length line) - 1) with (length line) by lia.
  replace (nth (length line) (line ++ CRLF ++ tail) SP) with CR
    by (symmetry; apply (nth_middle line (LF :: tail) CR SP)).
  rewrite Ascii.eqb_refl. reflexivity.
Qed.

Lemma sdp_rtpmap_line : forall fmt name pt rate tail st m f,
    In (fmt, name) mimeTypes ->
    name <> L "H263" ->
    (0 <= pt < 2 ^ 31)%Z ->
    get_media st = Some m ->
    next_n st < num m ->
    nth_error (formats m) (next_n st) = Some f ->
    let line := L "a=rtpmap:" ++ fmt_d pt ++ L " " ++ name ++ L "/" ++ rate in
    sdp_rtpmap (line ++ tail) (length line) st
    = Some (put_media st
              (mkSDPMedia (array_set (formats m) (next_n st)
                             (mkSDPFormat pt fmt (control f)))
                          (num m) (Z.lor (all m) fmt) (peer_media_port m))
              (S (next_n st))).
Proof.
  intros fmt name pt rate tail st m f Hin Hne Hpt Hm Hn Hf line.
  pose proof table_names_plain as Hplain. rewrite forallb_forall in Hplain.
  specialize (Hplain _ Hin). cbn [snd] in Hplain.
  apply andb_true_iff in Hplain. destruct Hplain as [Hslash _].
  unfold sdp_rtpmap. rewrite Hm.
  replace (next_n st =? num m) with false by (symmetry; apply Nat.eqb_neq; lia).
  assert (Ei : line ++ tail
               = (L "a=rtpmap:" ++ fmt_d pt)
                 ++ SP :: (name ++ "/"%char :: (rate ++ tail))).
  { unfold line. rewrite <- !app_assoc. reflexivity. }
  assert (Elen : length line = length (L "a=rtpmap:" ++ fmt_d pt) + 1 + length name + 1
                               + length rate).
  { unfold line. rewrite !length_app. cbn [length L list_ascii_of_string]. lia. }
  rewrite Ei.
  rewrite scan_to_app;
    [|rewrite forallb_app; rewrite digits_no_space by lia; reflexivity|lia].
  replace (length line <=? S (length (L "a=rtpmap:" ++ fmt_d pt))) with false
    by (symmetry; apply Nat.leb_gt; lia).
  replace (skipn (S (length (L "a=rtpmap:" ++ fmt_d pt)))
             ((L "a=rtpmap:" ++ fmt_d pt) ++ SP :: name ++ "/"%char :: rate ++ tail))
    with (name ++ "/"%char :: rate ++ tail).
  2:{ replace (S (length (L "a=rtpmap:" ++ fmt_d pt)))
        with (length ((L "a=rtpmap:" ++ fmt_d pt) ++ [SP]))
        by (rewrite (length_app _ [SP]); simpl; lia).
      replace ((L "a=rtpmap:" ++ fmt_d pt) ++ SP :: name ++ "/"%char :: rate ++ tail)
        with (((L "a=rtpmap:" ++ fmt_d pt) ++ [SP]) ++ name ++ "/"%char :: rate ++ tail)
        by (rewrite <- (app_assoc _ [SP]); reflexivity).
      rewrite skipn_at. reflexivity. }
  rewrite scan_to_app by (try exact Hslash; lia).
  replace (skipn 9 ((L "a=rtpmap:" ++ fmt_d pt) ++ SP :: name ++ "/"%char :: rate ++ tail))
    with (fmt_d pt ++ SP :: name ++ "/"%char :: rate ++ tail)
    by (rewrite <- app_assoc; reflexivity).
  rewrite atoi_fmt_d by (try reflexivity; lia).
  rewrite (rtpmap_table_unique fmt name (rate ++ tail) pt m (next_n st) f Hin Hne Hf).
  reflexivity.
Qed.

End SdpLines.

(** X20.  An [a=rtpmap:] line that names a codec of the table other than
    H263, inside a media section with an unfilled slot, fills exactly the
    next slot with the payload number of the line and the codec of that
    name, adds the codec to [all] and moves on by one slot. *)
Theorem sdp_line_rtpmap :
  forall (fmt : Z) (name : cstring) (pt : Z) (rate tail : cstring) (sip_enable : Z)
         (st : SDPState) (m : SDPMedia) (f : SDPFormat),
    In (fmt, name) mimeTypes ->
    name <> L "H263" ->
    0 <= pt < 2 ^ 31 ->
    get_media st = Some m ->
    (next_n st < num m)%nat ->
    nth_error (formats m) (next_n st) = Some f ->
    let line := L "a=rtpmap:" ++ fmt_d pt ++ L " " ++ name ++ L "/" ++ rate in
    sdp_line (line ++ CRLF ++ tail) (S (length line)) sip_enable st
    = Some (put_media st
              (mkSDPMedia (array_set (formats m) (next_n st)
                             (mkSDPFormat pt fmt (control f)))
                          (num m) (Z.lor (all m) fmt) (peer_media_port m))
              (S (next_n st))).
Proof.
  intros fmt name pt rate tail sip_enable st m f Hin Hne Hpt Hm Hn Hf line.
  rewrite sdp_line_at
    by (unfold line; rewrite length_app; cbn [length L list_ascii_of_string]; lia).
  replace (prefixb (L "m=") (line ++ CRLF ++ tail)) with false by reflexivity.
  replace (prefixb (L "a=rtpmap:") (line ++ CRLF ++ tail)) with true by reflexivity.
  apply sdp_rtpmap_line; assumption.
Qed.

Lemma sdp_line_rtpmap_witness :
  sdp_line ((L "a=rtpmap:" ++ fmt_d 0 ++ L " " ++ L "PCMU" ++ L "/" ++ L "8000")
            ++ CRLF ++ [])
    (S (length (L "a=rtpmap:" ++ fmt_d 0 ++ L " " ++ L "PCMU" ++ L "/" ++ L "8000")))
    0 sdp_after_audio_line
  = Some (put_media sdp_after_audio_line
            (mkSDPMedia (array_set [mkSDPFormat (-1) 0 None] 0
                           (mkSDPFormat 0 AST_FORMAT_ULAW None))
                        1 (Z.lor 0 AST_FORMAT_ULAW) 0)
            1).
Proof.
  apply (sdp_line_rtpmap AST_FORMAT_ULAW (L "PCMU") 0 (L "8000") [] 0
           sdp_after_audio_line (mkSDPMedia [mkSDPFormat (-1) 0 None] 1 0 0)
           (mkSDPFormat (-1) 0 None)).
  - unfold mimeTypes. cbn [In]. right. right. left. reflexivity.
  - discriminate.
  - lia.
  - reflexivity.
  - cbn [sdp_after_audio_line next_n num]. lia.
  - reflexivity.
Defined.

Section MediaLine.

Local Open Scope nat_scope.

Lemma count_spaces_app : forall a b : cstring,
    length (filter (fun c => Ascii.eqb c SP) (a ++ b))
    = length (filter (fun c => Ascii.eqb c SP) a)
      + length (filter (fun c => Ascii.eqb c SP) b).
Proof. intros a b. rewrite filter_app, length_app. reflexivity. Qed.

Lemma count_spaces_none : forall s,
    no_space s = true -> length (filter (fun c => Ascii.eqb c SP) s) = 0.
Proof.
  induction s as [|c s IH]; intros H; [reflexivity|].
  unfold no_space in H. cbn [forallb] in H. apply andb_true_iff in H.
  destruct H as [Hc H]. apply negb_true_iff in Hc.
  cbn [filter]. rewrite Hc. apply IH. exact H.
Qed.

Lemma count_spaces_payloads : forall pts,
    Forall (fun pt => (0 <= pt)%Z) pts ->
    length (filter (fun c => Ascii.eqb c SP) (payload_list pts)) = length pts.
Proof.
  induction pts as [|pt pts IH]; intros H; [reflexivity|].
  inversion H; subst. unfold payload_list in *. cbn [map concat].
  rewrite !count_spaces_app, IH by assumption.
  rewrite (count_spaces_none (fmt_d pt)) by (apply digits_no_space; assumption).
  reflexivity.
Qed.

Lemma read_digits_full : forall s rest acc prev,
    forallb isdigit s = true ->
    isdigit prev = true ->
    no_digit_next rest = true ->
    exists p,
      read_digits (s ++ rest) acc prev = (decimal_value s acc, p, rest)
      /\ isdigit p = true.
Proof.
  induction s as [|c s IH]; intros rest acc prev Hs Hp Hr.
  - exists prev. split; [|exact Hp].
    cbn [app decimal_value]. destruct rest as [|d rest]; [reflexivity|].
    cbn [no_digit_next] in Hr. apply negb_true_iff in Hr.
    cbn [read_digits]. rewrite Hr. reflexivity.
  - cbn [forallb] in Hs. apply andb_true_iff in Hs. destruct Hs as [Hc Hs].
    cbn [app read_digits decimal_value]. rewrite Hc.
    apply IH; assumption.
Qed.

Lemma digit_not_R : forall c, isdigit c = true -> Ascii.eqb "R" c = false.
Proof.
  intros [b0 b1 b2 b3 b4 b5 b6 b7] H.
  destruct b0, b1, b2, b3, b4, b5, b6, b7; try discriminate H; reflexivity.
Qed.

(** [strtol] on the decimal text of a port number. *)
Lemma strtol_port : forall before n rest,
    (0 <= n < 2 ^ 31)%Z ->
    no_digit_next rest = true ->
    exists prev,
      strtol before (fmt_d n ++ rest) = (n, prev, rest) /\ isdigit prev = true.
Proof.
  intros before n rest Hn Hr. unfold fmt_d.
  replace (n <? 0)%Z with false by (symmetry; apply Z.ltb_ge; lia).
  assert (Hbig : (2 ^ 31 < 10 ^ Z.of_nat 64)%Z) by (vm_compute; reflexivity).
  destruct (digits_decimal 64 n [] ltac:(lia) eq_refl) as [Hd Hv].
  cbn [decimal_value] in Hv.
  pose proof (digits_nonempty 64 n [] ltac:(lia)) as Hne.
  destruct (digits 64 10 n []) as [|c s] eqn:E; [congruence|].
  pose proof Hd as Hd0. cbn [forallb] in Hd. apply andb_true_iff in Hd.
  destruct Hd as [Hc Hs]. destruct (isdigit_plain c Hc) as (H1 & H2 & H3).
  destruct (read_digits_full (c :: s) rest 0%Z c Hd0 Hc Hr) as (p & Hp & Hdp).
  exists p. split; [|exact Hdp].
  unfold strtol. cbn [app skip_while] in *. rewrite H1, H2, H3, Hc, Hp, Hv.
  unfold LONG_MAX. rewrite Z.min_l by lia. reflexivity.
Qed.

Lemma CreateMedia_line : forall port proto pts tail,
    (0 <= port)%Z ->
    no_space proto = true ->
    pts <> [] ->
    Forall (fun pt => (0 <= pt)%Z) pts ->
    let line := L "m=audio " ++ fmt_d port ++ L " " ++ proto ++ payload_list pts in
    CreateMedia (line ++ tail) (length line)
    = Some (mkSDPMedia (repeat unfilled (length pts)) (length pts) 0 0).
Proof.
  intros port proto pts tail Hport Hproto Hne Hpts line.
  unfold CreateMedia. rewrite firstn_length_app.
  assert (E : length (filter (fun c => Ascii.eqb c SP) line) = 2 + length pts).
  { unfold line. rewrite !count_spaces_app.
    rewrite (count_spaces_none (fmt_d port)) by (apply digits_no_space; assumption).
    rewrite (count_spaces_none proto) by exact Hproto.
    rewrite count_spaces_payloads by exact Hpts. reflexivity. }
  rewrite E.
  replace (2 + length pts <? 3) with false
    by (symmetry; apply Nat.ltb_ge; destruct pts; [congruence|simpl; lia]).
  replace (2 + length pts - 2) with (length pts) by lia. reflexivity.
Qed.

Lemma sdp_media_line_audio : forall port proto pts tail sip_enable st,
    (0 < port < 65536)%Z ->
    no_space proto = true ->
    pts <> [] ->
    Forall (fun pt => (0 <= pt)%Z) pts ->
    let line := L "m=audio " ++ fmt_d port ++ L " " ++ proto ++ payload_list pts in
    sdp_media_line (line ++ tail) (length line) sip_enable st
    = Some (mkSDPState
              (mkSDPContent
                 (Some (mkSDPMedia (repeat unfilled (length pts)) (length pts) 0%Z
                                   (if (sip_enable =? 0)%Z then 0%Z else port)))
                 (video (sdp st)))
              MediaAudio 0).
Proof.
  intros port proto pts tail sip_enable st Hport Hproto Hne Hpts line.
  unfold sdp_media_line.
  replace (prefixb (L "video") (skipn 2 (line ++ tail))) with false by reflexivity.
  replace (prefixb (L "audio") (skipn 2 (line ++ tail))) with true by reflexivity.
  pose proof (CreateMedia_line port proto pts tail ltac:(lia) Hproto Hne Hpts) as Hm.
  cbv zeta in Hm. fold line in Hm. rewrite Hm.
  destruct (sip_enable =? 0)%Z; [reflexivity|].
  replace (skipn 8 (line ++ tail))
    with (fmt_d port ++ (L " " ++ proto ++ payload_list pts ++ tail))
    by (unfold line; rewrite <- !app_assoc; reflexivity).
  destruct (strtol_port (nth 7 (line ++ tail) SP) port
              (L " " ++ proto ++ payload_list pts ++ tail)
              ltac:(lia) eq_refl) as (prev & Hs & Hd).
  rewrite Hs.
  rewrite Z.mod_small by lia.
  replace (port =? 0)%Z with false by (symmetry; apply Z.eqb_neq; lia).
  replace (prefixb (L "RTP") (prev :: L " " ++ proto ++ payload_list pts ++ tail))
    with false
    by (cbn [prefixb L list_ascii_of_string]; rewrite (digit_not_R prev Hd); reflexivity).
  reflexivity.
Qed.

End MediaLine.

(** X21.  An audio [m=] line with a decimal port, a protocol name and a
    list of payload types opens the audio section with as many unfilled
    format slots as payload types are listed, and makes it the current
    section with the first slot next.  With SIP enabled the port of the
    line becomes [peer_media_port], whatever the protocol name is; with
    SIP disabled it stays 0. *)
Theorem sdp_line_audio :
  forall (port : Z) (proto : cstring) (pts : list Z) (tail : cstring)
         (sip_enable : Z) (st : SDPState),
    0 < port < 65536 ->
    no_space proto = true ->
    pts <> [] ->
    Forall (fun pt => 0 <= pt) pts ->
    let line := L "m=audio " ++ fmt_d port ++ L " " ++ proto ++ payload_list pts in
    sdp_line (line ++ CRLF ++ tail) (S (length line)) sip_enable st
    = Some (mkSDPState
              (mkSDPContent
                 (Some (mkSDPMedia (repeat unfilled (length pts)) (length pts) 0
                                   (if sip_enable =? 0 then 0 else port)))
                 (video (sdp st)))
              MediaAudio 0).
Proof.
  intros port proto pts tail sip_enable st Hport Hproto Hne Hpts line.
  rewrite sdp_line_at
    by (unfold line; rewrite length_app; cbn [length L list_ascii_of_string]; lia).
  replace (prefixb (L "m=") (line ++ CRLF ++ tail)) with true by reflexivity.
  apply sdp_media_line_audio; assumption.
Qed.

Lemma sdp_line_audio_witness :
  sdp_line ((L "m=audio " ++ fmt_d 5004 ++ L " " ++ L "RTP/AVP" ++ payload_list [0; 8])
            ++ CRLF ++ [])
    (S (length (L "m=audio " ++ fmt_d 5004 ++ L " " ++ L "RTP/AVP" ++ payload_list [0; 8])))
    1 (mkSDPState (mkSDPContent None None) MediaNone 0)
  = Some (mkSDPState
            (mkSDPContent (Some (mkSDPMedia (repeat unfilled 2) 2 0 5004)) None)
            MediaAudio 0).
Proof.
  apply (sdp_line_audio 5004 (L "RTP/AVP") [0; 8] [] 1
           (mkSDPState (mkSDPContent None None) MediaNone 0));
    [lia|reflexivity|discriminate|repeat constructor; lia].
Defined.

(* ===================================================================== *)
(** * Sessions, transports and the peer tag *)
(* ===================================================================== *)

Section Sessions.

Local Open Scope nat_scope.

Lemma strchr_firstn : forall s c k,
    strchr s c = Some k -> has_char c (firstn k s) = false.
Proof.
  induction s as [|x s IH]; intros c k H; [discriminate|].
  cbn [strchr] in H. destruct (Ascii.eqb x c) eqn:E.
  - inversion H; subst. reflexivity.
  - destruct (strchr s c) as [k'|] eqn:F; [|discriminate].
    cbn [option_map] in H. inversion H; subst.
    cbn [firstn has_char existsb]. rewrite E. apply (IH c k' F).
Qed.

Lemma strchr_none : forall s c, strchr s c = None -> has_char c s = false.
Proof.
  induction s as [|x s IH]; intros c H; [reflexivity|].
  cbn [strchr] in H. destruct (Ascii.eqb x c) eqn:E; [discriminate|].
  destruct (strchr s c) eqn:F; [discriminate|].
  cbn [has_char existsb]. rewrite E. apply IH. exact F.
Qed.

Lemma strip_parameters_plain : forall session,
    has_char ";" (strip_parameters session) = false.
Proof.
  intros session. unfold strip_parameters.
  destruct (strchr session ";") as [k|] eqn:E;
    [apply (strchr_firstn _ _ _ E)|apply (strchr_none _ _ E)].
Qed.

Lemma existsb_cstr_eqb : forall s ss,
    existsb (cstr_eqb s) ss = false -> ~ In s ss.
Proof.
  intros s ss H Hin.
  assert (E : existsb (cstr_eqb s) ss = true).
  { apply existsb_exists. exists s. split; [exact Hin|apply cstr_eqb_refl]. }
  congruence.
Qed.

Lemma RtspPlayerAddSession_ok : forall ids ss id,
    sessions_ok ids ss ->
    In id ids ->
    exists r ss',
      RtspPlayerAddSession ss id = Some (r, ss') /\ sessions_ok ids ss'
      /\ (r = 0%Z /\ ss' = ss
          \/ r = Z.of_nat (length ss') /\ ss' = ss ++ [strip_parameters id]).
Proof.
  intros ids ss id (Hl & Hn & Hf) Hin. unfold RtspPlayerAddSession.
  destruct (length ss =? 2) eqn:E2.
  { do 2 eexists. split; [reflexivity|]. split; [repeat split; assumption|]. left. auto. }
  apply Nat.eqb_neq in E2.
  replace (2 <? length ss) with false by (symmetry; apply Nat.ltb_ge; lia).
  cbv zeta.
  destruct (existsb (cstr_eqb (strip_parameters id)) ss) eqn:Ex.
  { do 2 eexists. split; [reflexivity|]. split; [repeat split; assumption|]. left. auto. }
  do 2 eexists. split; [reflexivity|]. split.
  - repeat split.
    + rewrite length_app. simpl. lia.
    + apply NoDup_app; [exact Hn|repeat constructor; intros []| ].
      intros x Hx [Hy|[]]. subst x.
      apply (existsb_cstr_eqb _ _ Ex). exact Hx.
    + apply Forall_app. split; [exact Hf|]. constructor; [|constructor].
      split; [apply strip_parameters_plain|]. exists id. auto.
  - right. split; [|reflexivity]. rewrite length_app. simpl. f_equal. lia.
Qed.

Lemma add_sessions_ok : forall all ids ss0,
    sessions_ok all ss0 ->
    incl ids all ->
    exists ss,
      add_sessions ss0 ids = Some ss /\ sessions_ok all ss
      /\ (exists more, ss = ss0 ++ more)
      /\ (length ss = 2 \/ forall id, In id ids -> In (strip_parameters id) ss).
Proof.
  intros all. induction ids as [|id ids IH]; intros ss0 Hok Hincl.
  - exists ss0. split; [reflexivity|]. split; [exact Hok|].
    split; [exists []; rewrite app_nil_r; reflexivity|]. right. intros id [].
  - destruct (RtspPlayerAddSession_ok all ss0 id Hok (Hincl id (or_introl eq_refl)))
      as (r & ss1 & Hadd & Hok1 & Hcase).
    destruct (IH ss1 Hok1 (fun x Hx => Hincl x (or_intror Hx)))
      as (ss & Hrun & Hoks & (more & Hmore) & Hfull).
    exists ss. cbn [add_sessions]. rewrite Hadd. split; [exact Hrun|].
    split; [exact Hoks|]. split.
    + destruct Hcase as [[_ ->]|[_ ->]]; [exists more; exact Hmore|].
      exists ([strip_parameters id] ++ more). rewrite Hmore, <- app_assoc. reflexivity.
    + destruct Hfull as [H2|Hall]; [left; exact H2|].
      destruct Hcase as [[_ E]|[_ E]].
      * subst ss1.
        destruct (Nat.eq_dec (length ss) 2) as [H2|H2]; [left; exact H2|right].
        intros x [Hx|Hx]; [subst x|apply Hall; exact Hx].
        unfold RtspPlayerAddSession in Hadd.
        destruct (length ss0 =? 2) eqn:E2.
        { apply Nat.eqb_eq in E2. destruct Hoks as (Hl & _).
          rewrite Hmore, length_app in *. lia. }
        destruct (2 <? length ss0); [discriminate|]. cbv zeta in Hadd.
        destruct (existsb (cstr_eqb (strip_parameters id)) ss0) eqn:Ex.
        -- apply existsb_exists in Ex. destruct Ex as (y & Hy & Hey).
           apply cstr_eqb_eq in Hey. subst y. rewrite Hmore.
           apply in_or_app. left. exact Hy.
        -- inversion Hadd as [[Hr Hs]].
           apply (f_equal (@length cstring)) in Hs.
           rewrite length_app in Hs. simpl in Hs. unfold cstring in *. lia.
      * right. intros x [Hx|Hx]; [subst x|apply Hall; exact Hx].
        rewrite Hmore, E. apply in_or_app. left. apply in_or_app. right. left. reflexivity.
Qed.

End Sessions.

(** X22.  Whatever session ids the answers carry, [RtspPlayerAddSession]
    keeps at most two sessions, never writes past the two slots, stores
    no session twice and stores every id without its parameters (the
    text from the first [;] on); once the answers are processed, an id
    that is not stored was left out only because both slots were
    taken. *)
Theorem RtspPlayerAddSession_slots :
  forall ids : list cstring,
    exists ss,
      add_sessions [] ids = Some ss
      /\ (length ss <= 2)%nat
      /\ NoDup ss
      /\ Forall (fun s => has_char ";" s = false
                          /\ exists id, In id ids /\ s = strip_parameters id) ss
      /\ (length ss = 2%nat \/ forall id, In id ids -> In (strip_parameters id) ss).
Proof.
  intros ids.
  destruct (add_sessions_ok ids ids []) as (ss & Hrun & (Hl & Hn & Hf) & _ & Hfull).
  - repeat split; [simpl; lia|constructor|constructor].
  - apply incl_refl.
  - exists ss. repeat split; assumption.
Qed.

Section Transport.

Local Open Scope nat_scope.

Lemma strstr_char : forall c x y,
    has_char c x = false -> strstr (x ++ c :: y) [c] = Some (c :: y).
Proof.
  intros c. induction x as [|a x IH]; intros y H.
  - cbn [app]. rewrite strstr_cons. cbn [prefixb]. rewrite Ascii.eqb_refl. reflexivity.
  - cbn [has_char existsb] in H. apply orb_false_iff in H. destruct H as [Ha H].
    cbn [app]. rewrite strstr_cons. cbn [prefixb].
    rewrite Ascii.eqb_sym, Ha. cbn [andb]. apply IH. exact H.
Qed.

Lemma fmt_d_no_dash : forall n, (0 <= n)%Z -> has_char "-" (fmt_d n) = false.
Proof.
  intros n Hn. unfold fmt_d.
  replace (n <? 0)%Z with false by (symmetry; apply Z.ltb_ge; exact Hn).
  assert (Hd : forall fuel m acc,
             (0 <= m)%Z -> has_char "-" acc = false ->
             has_char "-" (digits fuel 10 m acc) = false).
  { induction fuel as [|fuel IH]; intros m acc Hm Ha; [exact Ha|].
    cbn [digits].
    assert (Hc : has_char "-" (digit_char (m mod 10) :: acc) = false).
    { cbn [has_char existsb].
      destruct (digit_char_value (m mod 10)) as [Hdig _];
        [apply Z.mod_pos_bound; lia|].
      destruct (isdigit_plain _ Hdig) as (_ & Hs & _). rewrite Hs. exact Ha. }
    destruct (m / 10 =? 0)%Z; [exact Hc|].
    apply IH; [apply Z.div_pos; lia|exact Hc]. }
  apply Hd; [exact Hn|reflexivity].
Qed.

Lemma has_char_app : forall c a b, has_char c (a ++ b) = has_char c a || has_char c b.
Proof. intros c a b. unfold has_char. apply existsb_app. Qed.

Lemma take_while_exact : forall (f : ascii -> bool) tag after,
    forallb f tag = true ->
    match after with
    | c :: _ => f c = false
    | [] => True
    end ->
    take_while f (tag ++ after) = tag.
Proof.
  intros f. induction tag as [|c tag IH]; intros after Ht Ha.
  - cbn [app]. destruct after as [|d after]; [reflexivity|].
    cbn [take_while]. rewrite Ha. reflexivity.
  - cbn [forallb] in Ht. apply andb_true_iff in Ht. destruct Ht as [Hc Ht].
    cbn [app take_while]. rewrite Hc. f_equal. apply IH; assumption.
Qed.

End Transport.

(** X23.  From a Transport header with [server_port=a-b] the audio setup
    connects the audio RTCP socket to the port [b] (the audio RTP socket
    is not connected), and the video setup connects the video RTP socket
    to [a] and the video RTCP socket to [b]; a port range in front of
    [server_port=], such as [client_port=c-d], plays no part.  Without
    [server_port=] nothing is connected. *)
Theorem transport_server_ports :
  forall (pre rest other : cstring) (a b : Z),
    strstr (pre ++ L "server_port=") (L "server_port=") = Some (L "server_port=") ->
    0 <= a < 2 ^ 31 ->
    0 <= b < 2 ^ 31 ->
    no_digit_next rest = true ->
    absent (L "server_port=") other = true ->
    let transport := pre ++ L "server_port=" ++ fmt_d a ++ L "-" ++ fmt_d b ++ rest in
    RrspPlayerSetAudioTransport transport = ConnectAudioRtcp b
    /\ RrspPlayerSetVideoTransport transport = ConnectVideo a b
    /\ RrspPlayerSetAudioTransport other = LogNoServer
    /\ RrspPlayerSetVideoTransport other = VideoLogNoServer.
Proof.
  intros pre rest other a b Hfirst Ha Hb Hr Ho transport.
  assert (E1 : strstr transport (L "server_port=")
               = Some (L "server_port=" ++ fmt_d a ++ L "-" ++ fmt_d b ++ rest)).
  { unfold transport. apply strstr_app; [discriminate|exact Hfirst]. }
  assert (E2 : strstr (L "server_port=" ++ fmt_d a ++ L "-" ++ fmt_d b ++ rest) (L "-")
               = Some (L "-" ++ fmt_d b ++ rest)).
  { rewrite app_assoc. apply (strstr_char "-").
    rewrite has_char_app, fmt_d_no_dash by lia. reflexivity. }
  unfold RrspPlayerSetAudioTransport, RrspPlayerSetVideoTransport.
  rewrite E1, E2, (absent_strstr _ _ Ho).
  change (skipn 1 (L "-" ++ fmt_d b ++ rest)) with (fmt_d b ++ rest).
  change (skipn 12 (L "server_port=" ++ fmt_d a ++ L "-" ++ fmt_d b ++ rest))
    with (fmt_d a ++ L "-" ++ fmt_d b ++ rest).
  rewrite !atoi_fmt_d by (try reflexivity; try assumption; lia).
  repeat split; reflexivity.
Qed.

Lemma transport_server_ports_witness :
  let transport := L "RTP/AVP;unicast;client_port=40004-40005;"
                   ++ L "server_port=" ++ fmt_d 6256 ++ L "-" ++ fmt_d 6257
                   ++ L ";ssrc=1" in
  RrspPlayerSetAudioTransport transport = ConnectAudioRtcp 6257
  /\ RrspPlayerSetVideoTransport transport = ConnectVideo 6256 6257
  /\ RrspPlayerSetAudioTransport (L "RTP/AVP;unicast") = LogNoServer
  /\ RrspPlayerSetVideoTransport (L "RTP/AVP;unicast") = VideoLogNoServer.
Proof.
  apply (transport_server_ports (L "RTP/AVP;unicast;client_port=40004-40005;")
           (L ";ssrc=1") (L "RTP/AVP;unicast") 6256 6257);
    try reflexivity; lia.
Defined.

(** X24.  Outside a dialog [SipSetPeerTag] takes the peer tag from the
    first [tag=] of the To header: the text up to the next blank, CR or
    the end of the header.  A tag of 20 characters or more is written
    past the end of [peer_tag].  Inside a dialog the tag is left as it
    is. *)
Theorem SipSetPeerTag_from_To :
  forall (player other : RtspPlayer) (pre w addr tag after rest : cstring)
         (bufferLen : Z),
    in_a_dialog player = 0 ->
    in_a_dialog other <> 0 ->
    length w = 2%nat ->
    strcasestr ((pre ++ CRLF) ++ w) (L "To") = Some (length (pre ++ CRLF)) ->
    Z.of_nat (length pre + 2) <= bufferLen ->
    absent CRLF (addr ++ L "tag=" ++ tag ++ after) = true ->
    strstr (addr ++ L "tag=") (L "tag=") = Some (L "tag=") ->
    forallb (fun c => negb (tag_stop c)) tag = true ->
    match after with
    | c :: _ => tag_stop c = true
    | [] => True
    end ->
    let buffer := pre ++ CRLF ++ w ++ L ": " ++ (addr ++ L "tag=" ++ tag ++ after)
                  ++ CRLF ++ rest in
    ((length tag < 20)%nat ->
     SipSetPeerTag player buffer bufferLen = Some (set_peer_tag player tag))
    /\ ((20 <= length tag)%nat -> SipSetPeerTag player buffer bufferLen = None)
    /\ SipSetPeerTag other buffer bufferLen = Some other.
Proof.
  intros player other pre w addr tag after rest bufferLen
         Hd Ho Hw Hfirst Hlen Hv Htag Hchars Hafter buffer.
  assert (Hval : GetHeaderValue buffer bufferLen (L "To")
                 = Some (addr ++ L "tag=" ++ tag ++ after)).
  { destruct (HasHeader_line pre w (L "To")
                ((addr ++ L "tag=" ++ tag ++ after) ++ CRLF ++ rest) bufferLen
                ltac:(discriminate) Hw Hfirst Hlen) as [Hh Hs].
    fold buffer in Hh, Hs. unfold GetHeaderValue. rewrite Hh.
    destruct (length pre + 2 + length (L "To") + 2)%nat as [|i] eqn:E; [lia|].
    rewrite Hs.
    rewrite strstr_CRLF_app by (apply absent_strstr; exact Hv).
    replace (length ((addr ++ L "tag=" ++ tag ++ after) ++ CRLF ++ rest)
             - length (CRLF ++ rest))%nat
      with (length (addr ++ L "tag=" ++ tag ++ after))
      by (rewrite (length_app (addr ++ L "tag=" ++ tag ++ after)); lia).
    rewrite firstn_length_app. reflexivity. }
  assert (Hi : strstr (addr ++ L "tag=" ++ tag ++ after) (L "tag=")
               = Some (L "tag=" ++ tag ++ after))
    by (apply strstr_app; [discriminate|exact Htag]).
  unfold SipSetPeerTag. rewrite Hd, Hval, Hi. cbn [Z.eqb].
  change (skipn 4 (L "tag=" ++ tag ++ after)) with (tag ++ after).
  assert (Ht : take_while (fun c => negb (tag_stop c)) (tag ++ after) = tag).
  { apply take_while_exact; [exact Hchars|].
    destruct after; [exact I|rewrite Hafter; reflexivity]. }
  rewrite Ht.
  repeat split.
  - intros Hl. rewrite fits_lt by exact Hl. reflexivity.
  - intros Hl. unfold fits.
    replace (length tag <? 20)%nat with false by (symmetry; apply Nat.ltb_ge; exact Hl).
    reflexivity.
  - destruct (in_a_dialog other =? 0) eqn:E; [|reflexivity].
    apply Z.eqb_eq in E. congruence.
Qed.

Lemma SipSetPeerTag_from_To_witness :
  SipSetPeerTag speaker0
    (L "SIP/2.0 200 OK" ++ CRLF ++ L "To" ++ L ": "
     ++ (L "<sip:cam@192.168.0.34>;" ++ L "tag=" ++ L "9f3a" ++ L " ;x")
     ++ CRLF ++ (L "CSeq: 1 INVITE" ++ CRLF ++ CRLF)) 60
  = Some (set_peer_tag speaker0 (L "9f3a")).
Proof.
  pose proof (SipSetPeerTag_from_To speaker0 (set_in_a_dialog speaker0 1)
                (L "SIP/2.0 200 OK") (L "To") (L "<sip:cam@192.168.0.34>;")
                (L "9f3a") (L " ;x") (L "CSeq: 1 INVITE" ++ CRLF ++ CRLF) 60) as H.
  cbv zeta in H. apply H; try reflexivity; try discriminate; vm_compute; lia.
Defined.
Section SdpBody.

Local Open Scope nat_scope.

Lemma strchr_app : forall c a b,
    has_char c a = false -> strchr (a ++ c :: b) c = Some (length a).
Proof.
  intros c. induction a as [|x a IH]; intros b H.
  - cbn [app strchr]. rewrite Ascii.eqb_refl. reflexivity.
  - cbn [has_char existsb] in H. apply orb_false_iff in H. destruct H as [Hx H].
    cbn [app strchr length]. rewrite Hx. rewrite IH by exact H. reflexivity.
Qed.

Lemma strchr_line : forall l tail,
    has_char LF l = false -> strchr (l ++ CRLF ++ tail) LF = Some (S (length l)).
Proof.
  intros l tail H.
  replace (l ++ CRLF ++ tail) with ((l ++ [CR]) ++ LF :: tail)
    by (rewrite <- app_assoc; reflexivity).
  rewrite strchr_app.
  - rewrite length_app. simpl. f_equal. lia.
  - unfold has_char in *. rewrite existsb_app, H. reflexivity.
Qed.

Lemma CreateSDP_loop_step : forall fuel l tail sip st,
    has_char LF l = false ->
    CreateSDP_loop (S fuel) (l ++ CRLF ++ tail) sip st
    = obind (sdp_line (l ++ CRLF ++ tail) (S (length l)) sip st)
        (fun st' => CreateSDP_loop fuel tail sip st').
Proof.
  intros fuel l tail sip st H. cbn [CreateSDP_loop].
  rewrite strchr_line by exact H.
  replace (skipn (S (S (length l))) (l ++ CRLF ++ tail)) with tail; [reflexivity|].
  replace (S (S (length l))) with (length l + 2) by lia.
  symmetry. apply skipn_length_app2.
Qed.

Lemma prefixb_line : forall lit l r,
    has_char CR lit = false ->
    prefixb lit (l ++ CRLF) = false ->
    prefixb lit ((l ++ CRLF) ++ r) = false.
Proof.
  induction lit as [|x lit IH]; intros l r Hcr H; [discriminate|].
  cbn [has_char existsb] in Hcr. apply orb_false_iff in Hcr. destruct Hcr as [Hx Hcr].
  destruct l as [|y l].
  - cbn [app CRLF prefixb] in *. rewrite Ascii.eqb_sym in Hx.
    fold CR. rewrite Ascii.eqb_sym, Ascii.eqb_sym. 
    replace (Ascii.eqb x CR) with false. reflexivity.
  - cbn [app prefixb] in *. destruct (Ascii.eqb x y); [|reflexivity].
    cbn [andb] in *. apply IH; assumption.
Qed.

Lemma sdp_line_other : forall l tail sip st,
    other_line l = true ->
    sdp_line (l ++ CRLF ++ tail) (S (length l)) sip st = Some st.
Proof.
  intros l tail sip st H. unfold other_line in H.
  repeat (apply andb_true_iff in H; destruct H as [H ?]).
  repeat match goal with Hn : negb _ = true |- _ => apply negb_true_iff in Hn end.
  unfold sdp_line. destruct (S (length l) <=? 1); [reflexivity|].
  rewrite app_assoc.
  rewrite !prefixb_line by (assumption || reflexivity). reflexivity.
Qed.

Lemma CreateSDP_loop_others : forall ls fuel tail sip st,
    forallb other_line ls = true ->
    length ls <= fuel ->
    CreateSDP_loop fuel (lines ls ++ tail) sip st
    = CreateSDP_loop (fuel - length ls) tail sip st.
Proof.
  induction ls as [|l ls IH]; intros fuel tail sip st H Hf.
  - cbn [lines map concat app length]. rewrite Nat.sub_0_r. reflexivity.
  - cbn [forallb] in H. apply andb_true_iff in H. destruct H as [Hl H].
    destruct fuel as [|fuel]; [simpl in Hf; lia|].
    rewrite lines_cons, <- !app_assoc.
    rewrite CreateSDP_loop_step.
    + rewrite sdp_line_other by exact Hl. cbn [obind length Nat.sub].
      apply IH; [exact H|simpl in Hf; lia].
    + unfold other_line in Hl.
      repeat (apply andb_true_iff in Hl; destruct Hl as [Hl ?]).
      apply negb_true_iff in Hl. exact Hl.
Qed.

Lemma CreateSDP_loop_end : forall fuel sip st, CreateSDP_loop fuel [] sip st = Some st.
Proof. intros [|fuel] sip st; reflexivity. Qed.

Lemma fmt_d_digits : forall n, (0 <= n)%Z -> forallb isdigit (fmt_d n) = true.
Proof.
  intros n Hn. unfold fmt_d.
  replace (n <? 0)%Z with false by (symmetry; apply Z.ltb_ge; exact Hn).
  assert (Hd : forall fuel m acc,
             (0 <= m)%Z -> forallb isdigit acc = true ->
             forallb isdigit (digits fuel 10 m acc) = true).
  { induction fuel as [|fuel IH]; intros m acc Hm Ha; [exact Ha|].
    cbn [digits].
    assert (Hc : forallb isdigit (digit_char (m mod 10) :: acc) = true).
    { cbn [forallb]. destruct (digit_char_value (m mod 10)) as [Hdig _];
        [apply Z.mod_pos_bound; lia|]. rewrite Hdig. exact Ha. }
    destruct (m / 10 =? 0)%Z; [exact Hc|].
    apply IH; [apply Z.div_pos; lia|exact Hc]. }
  apply Hd; [exact Hn|reflexivity].
Qed.

Lemma digits_no_LF : forall s, forallb isdigit s = true -> has_char LF s = false.
Proof.
  induction s as [|c s IH]; intros H; [reflexivity|].
  cbn [forallb] in H. apply andb_true_iff in H. destruct H as [Hc H].
  unfold has_char in *. cbn [existsb]. rewrite (IH H), orb_false_r.
  destruct (isdigit_plain c Hc) as [Hs _].
  rewrite Ascii.eqb_sym. apply nonspace_not_LF. exact Hs.
Qed.

Lemma table_names_no_LF :
  forallb (fun e => negb (has_char LF (snd e))) mimeTypes = true.
Proof. vm_compute. reflexivity. Qed.


Lemma payload_list_no_LF : forall pts,
    Forall (fun pt => (0 <= pt)%Z) pts -> has_char LF (payload_list pts) = false.
Proof.
  induction pts as [|pt pts IH]; intros H; [reflexivity|].
  inversion H as [|? ? Hpt Hpts]; subst.
  unfold payload_list. cbn [map concat]. fold (payload_list pts).
  rewrite !has_char_app, (IH Hpts), (digits_no_LF _ (fmt_d_digits pt Hpt)).
  reflexivity.
Qed.

Lemma audio_line_no_LF : forall port proto pts,
    (0 <= port)%Z -> has_char LF proto = false ->
    Forall (fun pt => (0 <= pt)%Z) pts ->
    has_char LF (audio_line port proto pts) = false.
Proof.
  intros port proto pts Hport Hproto Hpts. unfold audio_line.
  rewrite !has_char_app, Hproto, (payload_list_no_LF pts Hpts),
    (digits_no_LF _ (fmt_d_digits port Hport)).
  reflexivity.
Qed.

Lemma rtpmap_line_no_LF : forall e, known_rtpmap e -> has_char LF (rtpmap_line e) = false.
Proof.
  intros e (Hpt & Hin & _ & Hrate). unfold rtpmap_line.
  pose proof table_names_no_LF as Ht. rewrite forallb_forall in Ht.
  specialize (Ht _ Hin). cbn [snd] in Ht. apply negb_true_iff in Ht.
  rewrite !has_char_app, Ht, Hrate, (digits_no_LF _ (fmt_d_digits _ (proj1 Hpt))).
  reflexivity.
Qed.

Lemma lines_length : forall ls, length ls <= length (lines ls).
Proof.
  induction ls as [|l ls IH]; [apply Nat.le_refl|].
  rewrite lines_cons, !length_app. cbn [length CRLF]. simpl. lia.
Qed.

Lemma lines_app : forall a b, lines (a ++ b) = lines a ++ lines b.
Proof. intros a b. unfold lines. rewrite map_app, concat_app. reflexivity. Qed.

Lemma rtpmap_lines_fill : forall es done fuel tail sip_enable v all0 port,
    Forall known_rtpmap es ->
    length es <= fuel ->
    CreateSDP_loop fuel (lines (map rtpmap_line es) ++ tail) sip_enable
      (audio_state (mkSDPMedia (done ++ repeat unfilled (length es))
                               (length done + length es) all0 port)
                   v (length done))
    = CreateSDP_loop (fuel - length es) tail sip_enable
        (audio_state (mkSDPMedia (done ++ map filled es)
                                 (length done + length es)
                                 (fold_left Z.lor (map rtp_format es) all0) port)
                     v (length done + length es)).
Proof.
  induction es as [|e es IH]; intros done fuel tail sip_enable v all0 port He Hf.
  - cbn [map lines concat app length repeat fold_left].
    rewrite Nat.sub_0_r, Nat.add_0_r. reflexivity.
  - inversion He as [|? ? Hk Hes]; subst.
    destruct fuel as [|fuel]; [simpl in Hf; lia|].
    cbn [map]. rewrite lines_cons, <- !app_assoc.
    rewrite CreateSDP_loop_step by (apply rtpmap_line_no_LF; exact Hk).
    destruct Hk as (Hpt & Hin & Hne & Hrate).
    rewrite sdp_line_at
      by (unfold rtpmap_line; rewrite length_app; cbn [length L list_ascii_of_string]; lia).
    replace (prefixb (L "m=") (rtpmap_line e ++ CRLF ++ lines (map rtpmap_line es) ++ tail))
      with false by reflexivity.
    replace (prefixb (L "a=rtpmap:")
               (rtpmap_line e ++ CRLF ++ lines (map rtpmap_line es) ++ tail))
      with true by reflexivity.
    pose proof (sdp_rtpmap_line (rtp_format e) (rtp_name e) (rtp_payload e) (rtp_rate e)
                  (CRLF ++ lines (map rtpmap_line es) ++ tail)
                  (audio_state (mkSDPMedia (done ++ repeat unfilled (length (e :: es)))
                                           (length done + length (e :: es)) all0 port)
                               v (length done))
                  (mkSDPMedia (done ++ repeat unfilled (length (e :: es)))
                              (length done + length (e :: es)) all0 port)
                  unfilled Hin Hne Hpt eq_refl) as Hs.
    cbv zeta in Hs. fold (rtpmap_line e) in Hs.
    rewrite Hs; clear Hs.
    + cbn [obind put_media audio_state media formats num all peer_media_port sdp video
             control unfilled next_n length repeat].
      rewrite array_set_app.
      cbn [fold_left]. 
      specialize (IH (done ++ [filled e]) fuel tail sip_enable v
                     (Z.lor all0 (rtp_format e)) port Hes ltac:(simpl in Hf; lia)).
      rewrite length_app in IH. cbn [length] in IH.
      rewrite <- !app_assoc in IH. cbn [app] in IH.
      replace (length done + 1 + length es) with (length done + S (length es)) in IH by lia.
      unfold audio_state in IH. unfold filled at 1 in IH.
      replace (length done + 1) with (S (length done)) in IH by lia.
      cbn [Nat.sub]. exact IH.
    + cbn [audio_state next_n num length]. lia.
    + cbn [audio_state next_n formats length repeat].
      rewrite nth_error_app2 by apply Nat.le_refl.
      rewrite Nat.sub_diag. reflexivity.
Qed.

End SdpBody.

(** X25.  A session description whose audio section is an [m=audio] line
    listing the payload types of the [a=rtpmap:] lines that follow it,
    one line per codec of the table other than [H263], among lines of
    other kinds: [CreateSDP] returns an audio media with one format per
    attribute, in their order, holding its payload type and the format of
    its codec; [all] is the bitwise or of these formats, the peer port is
    the one of the [m=] line when [sip_enable] is set and [0] otherwise,
    and there is no video media. *)
Theorem CreateSDP_audio_section :
  forall (before after : list cstring) (port : Z) (proto : cstring)
         (es : list rtpmap) (sip_enable : Z),
    forallb other_line before = true ->
    forallb other_line after = true ->
    0 < port < 65536 ->
    no_space proto = true ->
    has_char LF proto = false ->
    es <> [] ->
    Forall known_rtpmap es ->
    CreateSDP (lines before
               ++ lines (audio_line port proto (map rtp_payload es)
                         :: map rtpmap_line es)
               ++ lines after) sip_enable
    = Some (mkSDPContent
              (Some (mkSDPMedia (map filled es) (length es)
                                (fold_left Z.lor (map rtp_format es) 0)
                                (if sip_enable =? 0 then 0 else port)))
              None).
Proof.
  intros before after port proto es sip_enable Hb Ha Hport Hproto Hlf Hne Hes.
  assert (Hpts : Forall (fun pt => 0 <= pt) (map rtp_payload es)).
  { apply Forall_map. eapply Forall_impl; [|exact Hes].
    intros e (Hpt & _). lia. }
  unfold CreateSDP.
  set (buffer := lines before ++ _).
  assert (Hfuel : (length before + (1 + length es + length after) <= length buffer)%nat).
  { unfold buffer. rewrite <- lines_app, <- lines_app.
    eapply Nat.le_trans; [|apply lines_length].
    rewrite !length_app. cbn [length]. rewrite length_map. lia. }
  remember (length buffer) as n eqn:En. clear En. unfold buffer. clear buffer.
  rewrite CreateSDP_loop_others by (assumption || lia).
  destruct (n - length before)%nat as [|fuel] eqn:Ef; [lia|].
  rewrite lines_cons, <- !app_assoc.
  rewrite CreateSDP_loop_step by (apply audio_line_no_LF; [lia|assumption|assumption]).
  rewrite sdp_line_at
    by (unfold audio_line; rewrite length_app; cbn [length L list_ascii_of_string]; lia).
  replace (prefixb (L "m=") (audio_line port proto (map rtp_payload es) ++ CRLF
                             ++ lines (map rtpmap_line es) ++ lines after))
    with true by reflexivity.
  pose proof (sdp_media_line_audio port proto (map rtp_payload es)
                (CRLF ++ lines (map rtpmap_line es) ++ lines after) sip_enable
                (mkSDPState (mkSDPContent None None) MediaNone 0)
                Hport Hproto
                ltac:(destruct es; [congruence|discriminate]) Hpts) as Hm.
  cbv zeta in Hm. fold (audio_line port proto (map rtp_payload es)) in Hm.
  rewrite Hm; clear Hm. cbn [obind sdp video].
  rewrite length_map.
  pose proof (rtpmap_lines_fill es [] fuel (lines after) sip_enable None 0
                (if sip_enable =? 0 then 0 else port) Hes ltac:(lia)) as Hfill.
  cbn [app length Nat.add] in Hfill. unfold audio_state in Hfill.
  rewrite Hfill; clear Hfill.
  rewrite <- (app_nil_r (lines after)).
  rewrite CreateSDP_loop_others by (assumption || lia).
  rewrite CreateSDP_loop_end. reflexivity.
Qed.

Lemma CreateSDP_audio_section_witness :
  CreateSDP (lines [L "v=0"; L "o=- 0 0 IN IP4 10.0.0.1"; L "s=call";
                    L "c=IN IP4 10.0.0.1"; L "t=0 0"]
             ++ lines (audio_line 49170 (L "RTP/AVP")
                         (map rtp_payload [mkRtpmap 0 AST_FORMAT_ULAW (L "PCMU") (L "8000");
                                           mkRtpmap 8 AST_FORMAT_ALAW (L "PCMA") (L "8000")])
                       :: map rtpmap_line
                            [mkRtpmap 0 AST_FORMAT_ULAW (L "PCMU") (L "8000");
                             mkRtpmap 8 AST_FORMAT_ALAW (L "PCMA") (L "8000")])
             ++ lines [L "a=sendrecv"]) 1
  = Some (mkSDPContent
            (Some (mkSDPMedia
                     (map filled [mkRtpmap 0 AST_FORMAT_ULAW (L "PCMU") (L "8000");
                                  mkRtpmap 8 AST_FORMAT_ALAW (L "PCMA") (L "8000")])
                     2 (fold_left Z.lor [AST_FORMAT_ULAW; AST_FORMAT_ALAW] 0) 49170))
            None).
Proof.
  apply (CreateSDP_audio_section
           [L "v=0"; L "o=- 0 0 IN IP4 10.0.0.1"; L "s=call";
            L "c=IN IP4 10.0.0.1"; L "t=0 0"]
           [L "a=sendrecv"] 49170 (L "RTP/AVP")
           [mkRtpmap 0 AST_FORMAT_ULAW (L "PCMU") (L "8000");
            mkRtpmap 8 AST_FORMAT_ALAW (L "PCMA") (L "8000")] 1).
  - vm_compute. reflexivity.
  - vm_compute. reflexivity.
  - lia.
  - reflexivity.
  - reflexivity.
  - discriminate.
  - apply Forall_cons; [|apply Forall_cons; [|apply Forall_nil]];
      unfold known_rtpmap; cbn [rtp_payload rtp_format rtp_name rtp_rate];
      (split; [lia|split; [|split; [discriminate|reflexivity]]]);
      unfold mimeTypes; cbn [In].
    + right. right. left. reflexivity.
    + right. right. right. left. reflexivity.
Defined.
